(** * sjtu::linked_hashmap — a shallow embedding of [src/linked_hashmap.hpp]

    The container is a chained hash table whose entries are also threaded on
    a doubly linked list with two sentinels.  The embedding keeps the
    pointer graph of the C++ code: objects live in a heap indexed by
    addresses, fields of [LinkNode] and [Node] are record fields, and every
    member function is a computation in a state-and-error monad that reads
    and writes that heap exactly where the source does.

    Conventions.
    - [size_t] values are [Z] with the wrap-around modulo [2^64] written out.
    - A pointer is [option addr]; [None] is [nullptr].
    - The bucket array ([Node **buckets]) is private to one container and is
      never aliased, so its contents are kept inline in the container record
      as a list of chain heads; indexing outside of it is undefined
      behaviour.  Its allocation and its release are steps of their own:
      [new_array] and [delete_array] keep, in the field [arrays] of the
      memory, the number of bucket arrays that [new[]] has allocated and
      [delete[]] has not yet released.
    - Undefined behaviour of the C++ program (null or dangling dereference,
      [% 0], out-of-range array access) is the outcome [Undefined].
    - Loops run on fuel.  The fuel handed to a loop is one more than the
      number of live objects, which a walk along pairwise different objects
      never exceeds; the outcome [Diverge] therefore stands for a walk that
      runs in a cycle.
    - The comparison [num_elements + 1 > bucket_capacity * LOAD_FACTOR] is
      carried out in [double] by the source.  It is modelled by the exact
      integer comparison [3 * capacity < 4 * (count + 1)], with which it
      agrees while [count + 1 <= 2^53]; the theorems that depend on it carry
      that bound. *)

From stdpp Require Import base option list gmap sets.
From Stdlib Require Import ZArith Lia.

Open Scope Z_scope.

(** ** Addresses, exceptions and outcomes *)

Abbreviation addr := positive.
Abbreviation ptr := (option positive).

Inductive exn : Type :=
| invalid_iterator
| index_out_of_bound.

Definition size_t (z : Z) : Z := z mod 2 ^ 64.

(** [static const size_t INIT_CAPACITY = 16] *)
Definition INIT_CAPACITY : Z := 16.

(** [LOAD_FACTOR = 0.75]: [n > c * 0.75] as [3 * c < 4 * n]. *)
Definition exceeds_load (n c : Z) : bool := 3 * c <? 4 * n.

Section linked_hashmap.

Context {Key T : Type}.
(** [Hash hasher], [Equal key_equal] and the default constructor [T()]. *)
Variable hasher : Key → Z.
Variable key_equal : Key → Key → bool.
Variable T_default : T.

(** ** Objects *)

Record LinkNode : Type := mkLinkNode {
  order_prev : ptr;
  order_next : ptr
}.

Record Node : Type := mkNode {
  base : LinkNode;
  data : Key * T;
  next_in_bucket : ptr
}.

Inductive object : Type :=
| OLink (l : LinkNode)
| ONode (n : Node).

Record hashmap : Type := mkMap {
  buckets : list ptr;
  order_head : ptr;
  order_tail : ptr;
  bucket_capacity : Z;
  num_elements : Z
}.

Record memory : Type := mkMem {
  objs : gmap positive object;
  maps : gmap positive hashmap;
  arrays : Z
}.

Record iterator : Type := mkIter {
  node : ptr;
  map_ptr : ptr
}.

(** [const_iterator] has the same two fields and the same member functions
    (lines 188-242 repeat lines 99-186 with [const] added). *)
Definition const_iterator : Type := iterator.

Inductive result (A : Type) : Type :=
| Ok (a : A) (s : memory)
| Throw (e : exn) (s : memory)
| Undefined
| Diverge.

Arguments Ok {A} a s.
Arguments Throw {A} e s.
Arguments Undefined {A}.
Arguments Diverge {A}.

Definition M (A : Type) : Type := memory → result A.

Definition ret {A} (a : A) : M A := λ s, Ok a s.

Definition bind {A B} (c : M A) (k : A → M B) : M B :=
  λ s, match c s with
       | Ok a s' => k a s'
       | Throw e s' => Throw e s'
       | Undefined => Undefined
       | Diverge => Diverge
       end.

Definition throw {A} (e : exn) : M A := λ s, Throw e s.
Definition undefined {A} : M A := λ _, Undefined.
Definition diverge {A} : M A := λ _, Diverge.

Notation "'let*' x := c 'in' k" := (bind c (λ x, k))
  (at level 10, x name, c at level 100, k at level 200).
Notation "c ;;; k" := (bind c (λ _, k))
  (at level 100, k at level 200, right associativity).

(** ** Primitive accesses *)

Definition link_of (o : object) : LinkNode :=
  match o with
  | OLink l => l
  | ONode n => base n
  end.

Definition with_link (o : object) (l : LinkNode) : object :=
  match o with
  | OLink _ => OLink l
  | ONode n => ONode (mkNode l (data n) (next_in_bucket n))
  end.

Definition link_at (s : memory) (x : addr) : option LinkNode :=
  link_of <$> objs s !! x.

Definition node_at (s : memory) (x : addr) : option Node :=
  match objs s !! x with
  | Some (ONode n) => Some n
  | _ => None
  end.

Definition set_obj (x : addr) (o : object) (s : memory) : memory :=
  mkMem (<[x := o]> (objs s)) (maps s) (arrays s).

Definition set_map (a : addr) (m : hashmap) (s : memory) : memory :=
  mkMem (objs s) (<[a := m]> (maps s)) (arrays s).

(** The fuel of a loop started in [s]. *)
Definition fuel_of (s : memory) : nat := S (size (objs s)).

Definition get_fuel : M nat := λ s, Ok (fuel_of s) s.

(** [*this] read as a whole; a dangling or null container pointer is
    undefined behaviour. *)
Definition get_map (a : ptr) : M hashmap :=
  λ s, match a with
       | Some a' => match maps s !! a' with
                    | Some m => Ok m s
                    | None => Undefined
                    end
       | None => Undefined
       end.

Definition put_map (a : addr) (m : hashmap) : M unit :=
  λ s, Ok tt (set_map a m s).

(** [p->order_prev], [p->order_next] for [LinkNode *p]. *)
Definition get_link (p : ptr) : M LinkNode :=
  λ s, match p with
       | Some x => match link_at s x with
                   | Some l => Ok l s
                   | None => Undefined
                   end
       | None => Undefined
       end.

(** [p->data], [p->next_in_bucket] for [Node *p]: the object must be a
    [Node]. *)
Definition get_node (p : ptr) : M Node :=
  λ s, match p with
       | Some x => match node_at s x with
                   | Some n => Ok n s
                   | None => Undefined
                   end
       | None => Undefined
       end.

Definition set_order_prev (p q : ptr) : M unit :=
  λ s, match p with
       | Some x => match objs s !! x with
                   | Some o =>
                       Ok tt (set_obj x (with_link o (mkLinkNode q (order_next (link_of o)))) s)
                   | None => Undefined
                   end
       | None => Undefined
       end.

Definition set_order_next (p q : ptr) : M unit :=
  λ s, match p with
       | Some x => match objs s !! x with
                   | Some o =>
                       Ok tt (set_obj x (with_link o (mkLinkNode (order_prev (link_of o)) q)) s)
                   | None => Undefined
                   end
       | None => Undefined
       end.

Definition set_next_in_bucket (p q : ptr) : M unit :=
  λ s, match p with
       | Some x => match node_at s x with
                   | Some n => Ok tt (set_obj x (ONode (mkNode (base n) (data n) q)) s)
                   | None => Undefined
                   end
       | None => Undefined
       end.

(** [new]: a fresh address, not among the live ones.  Allocation failure is
    outside of the model. *)
Definition alloc (o : object) : M addr :=
  λ s, let x := fresh (dom (objs s)) in Ok x (set_obj x o s).

(** [delete p] *)
Definition free (p : ptr) : M unit :=
  λ s, match p with
       | Some x => match objs s !! x with
                   | Some _ => Ok tt (mkMem (delete x (objs s)) (maps s) (arrays s))
                   | None => Undefined
                   end
       | None => Undefined
       end.

(** [new Node*[n]] and [delete[] buckets].  The contents of the array are
    in the container record; what the heap keeps is the number of arrays
    that are allocated. *)
Definition new_array : M unit :=
  λ s, Ok tt (mkMem (objs s) (maps s) (arrays s + 1)).

Definition delete_array : M unit :=
  λ s, Ok tt (mkMem (objs s) (maps s) (arrays s - 1)).

(** [a[i]] and [a[i] = p] on a bucket array. *)
Definition bucket_get (b : list ptr) (i : Z) : M ptr :=
  λ s, match b !! Z.to_nat i with
       | Some p => Ok p s
       | None => Undefined
       end.

Definition bucket_set (b : list ptr) (i : Z) (p : ptr) : M (list ptr) :=
  λ s, match b !! Z.to_nat i with
       | Some _ => Ok (<[Z.to_nat i := p]> b) s
       | None => Undefined
       end.

(** [hasher(key) % capacity] *)
Definition hash_index (key : Key) (capacity : Z) : M Z :=
  if capacity =? 0 then undefined else ret (hasher key mod capacity).

Definition iterator_eq (a b : iterator) : bool :=
  bool_decide (node a = node b) && bool_decide (map_ptr a = map_ptr b).

(** ** Private member functions *)

(** lines 61-63 *)
Definition get_bucket_index (this : addr) (key : Key) : M Z :=
  let* m := get_map (Some this) in
  hash_index key (bucket_capacity m).

(** lines 65-70 *)
Definition init_empty (this : addr) : M unit :=
  let* h := alloc (OLink (mkLinkNode None None)) in
  let* m := get_map (Some this) in
  put_map this (mkMap (buckets m) (Some h) (order_tail m) (bucket_capacity m) (num_elements m)) ;;;
  let* t := alloc (OLink (mkLinkNode None None)) in
  let* m := get_map (Some this) in
  put_map this (mkMap (buckets m) (order_head m) (Some t) (bucket_capacity m) (num_elements m)) ;;;
  let* m := get_map (Some this) in
  set_order_next (order_head m) (order_tail m) ;;;
  set_order_prev (order_tail m) (order_head m).

(** lines 78-83: the loop of [rehash] over the order list. *)
Fixpoint rehash_loop (fuel : nat) (tail : ptr) (new_capacity : Z)
    (new_buckets : list ptr) (cur : ptr) : M (list ptr) :=
  match fuel with
  | O => diverge
  | S fuel' =>
      if bool_decide (cur = tail) then ret new_buckets
      else
        let* n := get_node cur in
        let* idx := hash_index (fst (data n)) new_capacity in
        let* b := bucket_get new_buckets idx in
        set_next_in_bucket cur b ;;;
        let* new_buckets' := bucket_set new_buckets idx cur in
        let* n' := get_node cur in
        rehash_loop fuel' tail new_capacity new_buckets' (order_next (base n'))
  end.

(** lines 72-88 *)
Definition rehash (this : addr) : M unit :=
  let* m := get_map (Some this) in
  let new_capacity := size_t (bucket_capacity m * 2) in
  new_array ;;;
  let new_buckets := replicate (Z.to_nat new_capacity) (None : ptr) in
  let* h := get_link (order_head m) in
  let* fuel := get_fuel in
  let* new_buckets' := rehash_loop fuel (order_tail m) new_capacity new_buckets (order_next h) in
  delete_array ;;;
  let* m := get_map (Some this) in
  put_map this (mkMap new_buckets' (order_head m) (order_tail m) new_capacity (num_elements m)).

(** ** Public member functions of the container *)

(** lines 332-333 *)
Definition begin_ (this : addr) : M iterator :=
  let* m := get_map (Some this) in
  let* h := get_link (order_head m) in
  ret (mkIter (order_next h) (Some this)).

(** lines 339-340 *)
Definition end_ (this : addr) : M iterator :=
  let* m := get_map (Some this) in
  ret (mkIter (order_tail m) (Some this)).

Definition cbegin (this : addr) : M const_iterator := begin_ this.
Definition cend (this : addr) : M const_iterator := end_ this.

(** lines 346, 351 *)
Definition empty (this : addr) : M bool :=
  let* m := get_map (Some this) in
  ret (num_elements m =? 0).

Definition size_ (this : addr) : M Z :=
  let* m := get_map (Some this) in
  ret (num_elements m).

(** lines 439-442: the chain walk of [find]. *)
Fixpoint find_loop (fuel : nat) (this : addr) (key : Key) (p : ptr) : M iterator :=
  match fuel with
  | O => diverge
  | S fuel' =>
      match p with
      | None => end_ this
      | Some _ =>
          let* n := get_node p in
          if key_equal (fst (data n)) key then ret (mkIter p (Some this))
          else find_loop fuel' this key (next_in_bucket n)
      end
  end.

(** lines 436-453 *)
Definition find (this : addr) (key : Key) : M iterator :=
  let* idx := get_bucket_index this key in
  let* m := get_map (Some this) in
  let* p := bucket_get (buckets m) idx in
  let* fuel := get_fuel in
  find_loop fuel this key p.

(** line 428 *)
Definition count (this : addr) (key : Key) : M Z :=
  let* it := find this key in
  let* e := cend this in
  ret (if iterator_eq it e then 0 else 1).

(** lines 375-393 *)
Definition insert (this : addr) (value : Key * T) : M (iterator * bool) :=
  let* it := find this (fst value) in
  let* e := end_ this in
  if negb (iterator_eq it e) then ret (it, false)
  else
    let* m := get_map (Some this) in
    (if exceeds_load (size_t (num_elements m + 1)) (bucket_capacity m)
     then rehash this else ret tt) ;;;
    let* new_node := alloc (ONode (mkNode (mkLinkNode None None) value None)) in
    let* idx := get_bucket_index this (fst value) in
    let* m := get_map (Some this) in
    let* b := bucket_get (buckets m) idx in
    set_next_in_bucket (Some new_node) b ;;;
    let* m := get_map (Some this) in
    let* buckets' := bucket_set (buckets m) idx (Some new_node) in
    put_map this (mkMap buckets' (order_head m) (order_tail m) (bucket_capacity m) (num_elements m)) ;;;
    let* m := get_map (Some this) in
    let* tl := get_link (order_tail m) in
    set_order_prev (Some new_node) (order_prev tl) ;;;
    set_order_next (Some new_node) (order_tail m) ;;;
    let* tl := get_link (order_tail m) in
    set_order_next (order_prev tl) (Some new_node) ;;;
    set_order_prev (order_tail m) (Some new_node) ;;;
    let* m := get_map (Some this) in
    put_map this (mkMap (buckets m) (order_head m) (order_tail m) (bucket_capacity m)
                        (size_t (num_elements m + 1))) ;;;
    ret (mkIter (Some new_node) (Some this), true).

(** lines 408-411: the chain scan of [erase]; it returns [prev]. *)
Fixpoint erase_scan (fuel : nat) (cur : ptr) (prev p : ptr) : M ptr :=
  match fuel with
  | O => diverge
  | S fuel' =>
      if bool_decide (p = cur) then ret prev
      else
        let* n := get_node p in
        erase_scan fuel' cur p (next_in_bucket n)
  end.

(** lines 400-420 *)
Definition erase (this : addr) (pos : iterator) : M unit :=
  if negb (bool_decide (map_ptr pos = Some this)) || bool_decide (node pos = None)
  then throw invalid_iterator
  else
    let* m := get_map (Some this) in
    if bool_decide (node pos = order_tail m) || bool_decide (node pos = order_head m)
    then throw invalid_iterator
    else
      let cur := node pos in
      let* c := get_node cur in
      let* idx := get_bucket_index this (fst (data c)) in
      let* m := get_map (Some this) in
      let* p := bucket_get (buckets m) idx in
      let* fuel := get_fuel in
      let* prev := erase_scan fuel cur None p in
      let* c := get_node cur in
      match prev with
      | Some _ => set_next_in_bucket prev (next_in_bucket c)
      | None =>
          let* m := get_map (Some this) in
          let* buckets' := bucket_set (buckets m) idx (next_in_bucket c) in
          put_map this (mkMap buckets' (order_head m) (order_tail m) (bucket_capacity m)
                              (num_elements m))
      end ;;;
      let* c := get_link cur in
      set_order_next (order_prev c) (order_next c) ;;;
      let* c := get_link cur in
      set_order_prev (order_next c) (order_prev c) ;;;
      free cur ;;;
      let* m := get_map (Some this) in
      put_map this (mkMap (buckets m) (order_head m) (order_tail m) (bucket_capacity m)
                          (size_t (num_elements m - 1))).

(** lines 358-362: the loop of [clear]. *)
Fixpoint clear_loop (fuel : nat) (tail : ptr) (cur : ptr) : M unit :=
  match fuel with
  | O => diverge
  | S fuel' =>
      if bool_decide (cur = tail) then ret tt
      else
        let* c := get_link cur in
        free cur ;;;
        clear_loop fuel' tail (order_next c)
  end.

(** lines 356-367 *)
Definition clear (this : addr) : M unit :=
  let* m := get_map (Some this) in
  let* h := get_link (order_head m) in
  let* fuel := get_fuel in
  clear_loop fuel (order_tail m) (order_next h) ;;;
  let* m := get_map (Some this) in
  set_order_next (order_head m) (order_tail m) ;;;
  set_order_prev (order_tail m) (order_head m) ;;;
  let* m := get_map (Some this) in
  put_map this (mkMap (replicate (Z.to_nat (bucket_capacity m)) None) (order_head m)
                      (order_tail m) (bucket_capacity m) (num_elements m)) ;;;
  let* m := get_map (Some this) in
  put_map this (mkMap (buckets m) (order_head m) (order_tail m) (bucket_capacity m) 0).

(** ** Iterators (lines 99-242) *)

(** [++iter], lines 138-143 and 212-217; the result is the updated [*this]. *)
Definition operator_inc (it : iterator) : M iterator :=
  if bool_decide (map_ptr it = None) || bool_decide (node it = None)
  then throw invalid_iterator
  else
    let* m := get_map (map_ptr it) in
    if bool_decide (node it = order_tail m) then throw invalid_iterator
    else
      let* l := get_link (node it) in
      ret (mkIter (order_next l) (map_ptr it)).

(** [iter++], lines 128-134 and 205-211: the returned copy and the updated
    [*this]. *)
Definition operator_inc_post (it : iterator) : M (iterator * iterator) :=
  if bool_decide (map_ptr it = None) || bool_decide (node it = None)
  then throw invalid_iterator
  else
    let* m := get_map (map_ptr it) in
    if bool_decide (node it = order_tail m) then throw invalid_iterator
    else
      let tmp := it in
      let* l := get_link (node it) in
      ret (tmp, mkIter (order_next l) (map_ptr it)).

(** [--iter], lines 157-162 and 225-230 *)
Definition operator_dec (it : iterator) : M iterator :=
  if bool_decide (map_ptr it = None) || bool_decide (node it = None)
  then throw invalid_iterator
  else
    let* m := get_map (map_ptr it) in
    let* h := get_link (order_head m) in
    if bool_decide (node it = order_next h) then throw invalid_iterator
    else
      let* l := get_link (node it) in
      ret (mkIter (order_prev l) (map_ptr it)).

(** [iter--], lines 147-153 and 218-224 *)
Definition operator_dec_post (it : iterator) : M (iterator * iterator) :=
  if bool_decide (map_ptr it = None) || bool_decide (node it = None)
  then throw invalid_iterator
  else
    let* m := get_map (map_ptr it) in
    let* h := get_link (order_head m) in
    if bool_decide (node it = order_next h) then throw invalid_iterator
    else
      let tmp := it in
      let* l := get_link (node it) in
      ret (tmp, mkIter (order_prev l) (map_ptr it)).

(** A [value_type &] or [T &] into an entry is the address of the entry;
    it is used through [read_data] and [write_second]. *)
Definition read_data (r : addr) : M (Key * T) :=
  let* n := get_node (Some r) in
  ret (data n).

Definition write_second (r : addr) (v : T) : M unit :=
  let* n := get_node (Some r) in
  λ s, Ok tt (set_obj r (ONode (mkNode (base n) (fst (data n), v) (next_in_bucket n))) s).

(** [get_node()->data] taken as an lvalue: the object has to be a live
    [Node]. *)
Definition data_ref (p : ptr) : M addr :=
  let* _ := get_node p in
  match p with
  | Some x => ret x
  | None => undefined
  end.

(** [*iter], lines 166-169 and 231-234 *)
Definition operator_star (it : iterator) : M addr :=
  if bool_decide (map_ptr it = None) || bool_decide (node it = None)
  then throw invalid_iterator
  else
    let* m := get_map (map_ptr it) in
    if bool_decide (node it = order_tail m) || bool_decide (node it = order_head m)
    then throw invalid_iterator
    else data_ref (node it).

(** [iter->], lines 182 and 239: [noexcept], no check at all. *)
Definition operator_arrow (it : iterator) : M addr :=
  data_ref (node it).

(** ** Element access (lines 298-327) *)

Definition at_ (this : addr) (key : Key) : M addr :=
  let* it := find this key in
  let* e := end_ this in
  if iterator_eq it e then throw index_out_of_bound
  else operator_arrow it.

(** [const T & operator[](const Key &) const] *)
Definition index_const (this : addr) (key : Key) : M addr :=
  at_ this key.

(** [T & operator[](const Key &)] *)
Definition index (this : addr) (key : Key) : M addr :=
  let* it := find this key in
  let* e := end_ this in
  if negb (iterator_eq it e) then operator_arrow it
  else
    let* p := insert this (key, T_default) in
    operator_arrow (fst p).

(** ** Construction and assignment (lines 248-280) *)

(** [buckets = new Node*[bucket_capacity]] and the loop that fills it with
    [nullptr] (lines 249-250, 254-255, 273-274). *)
Definition new_buckets_of_capacity (this : addr) : M unit :=
  new_array ;;;
  let* m := get_map (Some this) in
  put_map this (mkMap (replicate (Z.to_nat (bucket_capacity m)) None) (order_head m)
                      (order_tail m) (bucket_capacity m) (num_elements m)).

(** lines 248-252 *)
Definition ctor (this : addr) : M unit :=
  put_map this (mkMap [] None None INIT_CAPACITY 0) ;;;
  new_buckets_of_capacity this ;;;
  init_empty this.

(** lines 257-259 and 276-278: [for (it = other.cbegin(); it != other.cend(); ++it) insert( *it)] *)
Fixpoint copy_loop (fuel : nat) (this other : addr) (it : const_iterator) : M unit :=
  match fuel with
  | O => diverge
  | S fuel' =>
      let* e := cend other in
      if iterator_eq it e then ret tt
      else
        let* r := operator_star it in
        let* v := read_data r in
        insert this v ;;;
        let* it' := operator_inc it in
        copy_loop fuel' this other it'
  end.

(** lines 253-260 *)
Definition copy_ctor (this other : addr) : M unit :=
  let* o := get_map (Some other) in
  put_map this (mkMap [] None None (bucket_capacity o) 0) ;;;
  new_buckets_of_capacity this ;;;
  init_empty this ;;;
  let* it := cbegin other in
  let* fuel := get_fuel in
  copy_loop fuel this other it.

(** lines 265-280 *)
Definition assign (this other : addr) : M unit :=
  if bool_decide (this = other) then ret tt
  else
    clear this ;;;
    delete_array ;;;
    let* m := get_map (Some this) in
    free (order_head m) ;;;
    free (order_tail m) ;;;
    let* o := get_map (Some other) in
    let* m := get_map (Some this) in
    put_map this (mkMap (buckets m) (order_head m) (order_tail m) (bucket_capacity o)
                        (num_elements m)) ;;;
    let* m := get_map (Some this) in
    put_map this (mkMap (buckets m) (order_head m) (order_tail m) (bucket_capacity m) 0) ;;;
    new_buckets_of_capacity this ;;;
    init_empty this ;;;
    let* it := cbegin other in
    let* fuel := get_fuel in
    copy_loop fuel this other it.

(** lines 285-290.  When the destructor returns the lifetime of [*this] is
    over: its record leaves the store. *)
Definition destructor (this : addr) : M unit :=
  clear this ;;;
  delete_array ;;;
  let* m := get_map (Some this) in
  free (order_head m) ;;;
  free (order_tail m) ;;;
  λ s, Ok tt (mkMem (objs s) (delete this (maps s)) (arrays s)).

(** ** A client loop: [for (it = begin(); it != end(); ++it) visit( *it)] *)

Fixpoint traverse_loop (fuel : nat) (this : addr) (it : iterator) : M (list (Key * T)) :=
  match fuel with
  | O => diverge
  | S fuel' =>
      let* e := end_ this in
      if iterator_eq it e then ret []
      else
        let* r := operator_star it in
        let* v := read_data r in
        let* it' := operator_inc it in
        let* vs := traverse_loop fuel' this it' in
        ret (v :: vs)
  end.

Definition traverse (this : addr) : M (list (Key * T)) :=
  let* it := begin_ this in
  let* fuel := get_fuel in
  traverse_loop fuel this it.

(** The same walk backwards:
    [for (it = end(); it != begin(); ) { --it; visit( *it); }] *)
Fixpoint traverse_back_loop (fuel : nat) (this : addr) (it : iterator) : M (list (Key * T)) :=
  match fuel with
  | O => diverge
  | S fuel' =>
      let* b := begin_ this in
      if iterator_eq it b then ret []
      else
        let* it' := operator_dec it in
        let* r := operator_star it' in
        let* v := read_data r in
        let* vs := traverse_back_loop fuel' this it' in
        ret (v :: vs)
  end.

Definition traverse_back (this : addr) : M (list (Key * T)) :=
  let* it := end_ this in
  let* fuel := get_fuel in
  traverse_back_loop fuel this it.

(** ** Client code: the container driven through its public interface *)

(** [for (kv : kvs) map.insert(kv)] *)
Fixpoint insert_all (this : addr) (kvs : list (Key * T)) : M unit :=
  match kvs with
  | [] => ret tt
  | kv :: kvs' => insert this kv ;;; insert_all this kvs'
  end.

(** [it = map.find(k); if (it != map.end()) map.erase(it)] *)
Definition erase_key (this : addr) (k : Key) : M unit :=
  let* it := find this k in
  let* e := end_ this in
  if iterator_eq it e then ret tt else erase this it.

(** [map[k] = v] *)
Definition assign_at (this : addr) (k : Key) (v : T) : M unit :=
  let* r := index this k in
  write_second r v.

Inductive op : Type :=
| OInsert (kv : Key * T)
| OErase (k : Key)
| OClear
| OAssign (k : Key) (v : T).

Definition run_op (this : addr) (o : op) : M unit :=
  match o with
  | OInsert kv => insert this kv ;;; ret tt
  | OErase k => erase_key this k
  | OClear => clear this
  | OAssign k v => assign_at this k v
  end.

Fixpoint run_ops (this : addr) (os : list op) : M unit :=
  match os with
  | [] => ret tt
  | o :: os' => run_op this o ;;; run_ops this os'
  end.

(** ** The reference model: an association list in insertion order *)

Fixpoint al_insert (kv : Key * T) (al : list (Key * T)) : list (Key * T) :=
  match al with
  | [] => [kv]
  | e :: r => if key_equal e.1 kv.1 then e :: r else e :: al_insert kv r
  end.

Fixpoint al_erase (k : Key) (al : list (Key * T)) : list (Key * T) :=
  match al with
  | [] => []
  | e :: r => if key_equal e.1 k then r else e :: al_erase k r
  end.

Fixpoint al_assign (k : Key) (v : T) (al : list (Key * T)) : list (Key * T) :=
  match al with
  | [] => [(k, v)]
  | e :: r => if key_equal e.1 k then (e.1, v) :: r else e :: al_assign k v r
  end.

Fixpoint al_lookup (k : Key) (al : list (Key * T)) : option T :=
  match al with
  | [] => None
  | e :: r => if key_equal e.1 k then Some e.2 else al_lookup k r
  end.

Definition al_step (o : op) (al : list (Key * T)) : list (Key * T) :=
  match o with
  | OInsert kv => al_insert kv al
  | OErase k => al_erase k al
  | OClear => []
  | OAssign k v => al_assign k v al
  end.

Definition al_run (os : list op) : list (Key * T) :=
  fold_left (λ al o, al_step o al) os [].

(** Modelled from the spec: "[size()] equals the number of distinct keys
    ever inserted minus the number erased", counted along a run of
    operations.  A key is inserted by [insert] and by [map[k] = v]; it is
    counted once, however often it is inserted.  An erase is counted when
    it removes an entry. *)
Fixpoint keys_ever_inserted (os : list op) (seen : list Key) : list Key :=
  match os with
  | [] => seen
  | o :: os' =>
      let add k := if existsb (key_equal k) seen then seen else k :: seen in
      match o with
      | OInsert kv => keys_ever_inserted os' (add kv.1)
      | OAssign k _ => keys_ever_inserted os' (add k)
      | _ => keys_ever_inserted os' seen
      end
  end.

Fixpoint erased_count (os : list op) (al : list (Key * T)) : nat :=
  match os with
  | [] => O
  | o :: os' =>
      let here :=
        match o with
        | OErase k => match al_lookup k al with Some _ => 1%nat | None => O end
        | _ => O
        end in
      (here + erased_count os' (al_step o al))%nat
  end.

Definition spec_size (os : list op) : Z :=
  Z.of_nat (length (keys_ever_inserted os [])) - Z.of_nat (erased_count os []).

(** Pairwise different keys, as [Equal] sees them. *)
Fixpoint distinct_keys (kvs : list (Key * T)) : Prop :=
  match kvs with
  | [] => True
  | kv :: kvs' =>
      (∀ kv', kv' ∈ kvs' → key_equal kv.1 kv'.1 = false) ∧ distinct_keys kvs'
  end.

(** A computation that never raises an exception. *)
Definition nothrow {A} (c : M A) : Prop :=
  ∀ s e s', c s ≠ Throw e s'.

(** A computation that leaves the memory as it found it when it returns. *)
Definition readonly {A} (c : M A) : Prop :=
  ∀ s a s', c s = Ok a s' → s' = s.

(** A computation that raises nothing but [e0], and raises it with the
    memory it was started in. *)
Definition throws_only {A} (e0 : exn) (c : M A) : Prop :=
  ∀ s e s', c s = Throw e s' → e = e0 ∧ s' = s.

(** A computation that, when it returns, has changed the number of
    allocated bucket arrays by [k]. *)
Definition array_delta {A} (k : Z) (c : M A) : Prop :=
  ∀ s a s', c s = Ok a s' → arrays s' = arrays s + k.

(** ** Views of the heap, one per field *)

Definition next_at (s : memory) (x : addr) : option ptr :=
  (λ o, order_next (link_of o)) <$> objs s !! x.

Definition prev_at (s : memory) (x : addr) : option ptr :=
  (λ o, order_prev (link_of o)) <$> objs s !! x.

Definition data_at (s : memory) (x : addr) : option (Key * T) :=
  data <$> node_at s x.

Definition bnext_at (s : memory) (x : addr) : option ptr :=
  next_in_bucket <$> node_at s x.

(** ** The representation invariant *)

(** The order list between a predecessor [p] and an end [q]. *)
Fixpoint dseg (s : memory) (p : addr) (xs : list addr) (q : addr) : Prop :=
  match xs with
  | [] => next_at s p = Some (Some q) ∧ prev_at s q = Some (Some p)
  | x :: xs' =>
      next_at s p = Some (Some x) ∧ prev_at s x = Some (Some p) ∧ dseg s x xs' q
  end.

(** The same list read forwards only, from its first element. *)
Fixpoint fwd (s : memory) (cur : addr) (xs : list addr) (q : addr) : Prop :=
  match xs with
  | [] => cur = q
  | x :: xs' => cur = x ∧ ∃ nxt, next_at s x = Some (Some nxt) ∧ fwd s nxt xs' q
  end.

(** A bucket chain and the entries on it. *)
Fixpoint chain (s : memory) (p : ptr) (c : list (addr * (Key * T))) : Prop :=
  match c with
  | [] => p = None
  | e :: c' =>
      p = Some e.1 ∧ data_at s e.1 = Some e.2 ∧
      ∃ nb, bnext_at s e.1 = Some nb ∧ chain s nb c'
  end.

Definition bucket_of (capacity : Z) (k : Key) : nat :=
  Z.to_nat (hasher k mod capacity).

Fixpoint first_match (k : Key) (c : list (addr * (Key * T))) : option (addr * (Key * T)) :=
  match c with
  | [] => None
  | e :: c' => if key_equal e.2.1 k then Some e else first_match k c'
  end.

(** [inv s m h t l]: in memory [s] the container record [m] with sentinels
    [h] and [t] holds the entries [l] (address and data), in order. *)
Record inv (s : memory) (m : hashmap) (h t : addr) (l : list (addr * (Key * T))) : Prop := {
  inv_head : order_head m = Some h;
  inv_tail : order_tail m = Some t;
  inv_nodup : NoDup (h :: t :: l.*1);
  inv_order : dseg s h (l.*1) t;
  inv_data : ∀ e, e ∈ l → data_at s e.1 = Some e.2;
  inv_pow : ∃ j : nat, bucket_capacity m = 16 * 2 ^ Z.of_nat j;
  inv_cap : bucket_capacity m < 2 ^ 55;
  inv_len : length (buckets m) = Z.to_nat (bucket_capacity m);
  inv_chains : ∀ (i : nat) (p : ptr), buckets m !! i = Some p →
      ∃ c, chain s p c ∧ NoDup (c.*1) ∧
           ∀ e, e ∈ c ↔ e ∈ l ∧ bucket_of (bucket_capacity m) e.2.1 = i;
  inv_keys : ∀ e1 e2, e1 ∈ l → e2 ∈ l → key_equal e1.2.1 e2.2.1 = true → e1 = e2;
  inv_size : num_elements m = Z.of_nat (length l);
  inv_load : 4 * num_elements m ≤ 3 * bucket_capacity m;
  inv_small : num_elements m ≤ 2 ^ 53
}.

(** The entry before position [length c1] on a chain, as the scan of
    [erase] tracks it in [prev]. *)
Fixpoint chain_pred (prev : ptr) (c1 : list (addr * (Key * T))) : ptr :=
  match c1 with
  | [] => prev
  | a :: c1' => chain_pred (Some a.1) c1'
  end.

(** What [rehash] builds: one chain per bucket, holding the entries of [l]
    whose key hashes there. *)
Definition chains_ok (s : memory) (b : list ptr) (capacity : Z)
    (l : list (addr * (Key * T))) : Prop :=
  ∀ (i : nat) (p : ptr), b !! i = Some p →
    ∃ c, chain s p c ∧ NoDup (c.*1) ∧
         ∀ e, e ∈ c ↔ e ∈ l ∧ bucket_of capacity e.2.1 = i.

(** An object with its chain link blanked out. *)
Definition strip (o : object) : object :=
  match o with
  | OLink l => OLink l
  | ONode n => ONode (mkNode (base n) (data n) None)
  end.

(** [s] and [s'] hold the same objects at the same addresses, with the same
    order links, keys and values; only [next_in_bucket] fields may differ. *)
Definition chain_blind (s s' : memory) : Prop :=
  ∀ y, strip <$> objs s' !! y = strip <$> objs s !! y.

(** The container at address [this]. *)
Definition repr (s : memory) (this h t : addr) (l : list (addr * (Key * T))) : Prop :=
  ∃ m, maps s !! this = Some m ∧ inv s m h t l.

(** The objects a container owns. *)
Definition footprint (h t : addr) (l : list (addr * (Key * T))) : list addr :=
  h :: t :: l.*1.

(** A key is in the container when an entry compares equal to it. *)
Definition has_key (l : list (addr * (Key * T))) (k : Key) : Prop :=
  ∃ e, e ∈ l ∧ key_equal e.2.1 k = true.

(** [s'] differs from [s] on the live objects of [s] at most inside [F]. *)
Definition frame (F : list addr) (s s' : memory) : Prop :=
  ∀ y, y ∉ F → y ∈ dom (objs s) → objs s' !! y = objs s !! y.

(** What one operation on the container at [this] leaves behind: the
    container holds the entries [al'], and objects outside of its old
    footprint are as they were. *)
Definition step_post (s : memory) (this : addr) (m : hashmap) (h t : addr)
    (l : list (addr * (Key * T))) (s' : memory) (al' : list (Key * T)) : Prop :=
  ∃ m' l',
    maps s' = <[this := m']> (maps s) ∧
    inv s' m' h t l' ∧
    l'.*2 = al' ∧
    frame (footprint h t l) s s' ∧
    (∀ y, y ∈ footprint h t l' → y ∈ footprint h t l ∨ objs s !! y = None) ∧
    (bucket_capacity m' = bucket_capacity m ∨ bucket_capacity m' = 2 * bucket_capacity m) ∧
    (length l' ≤ S (length l))%nat.

(** Memory [s] is memory [s0] with the objects at [F] added: no object of
    [s0] is at an address of [F], and off [F] the two agree. *)
Definition outside (F : list addr) (s0 s : memory) : Prop :=
  (∀ y, y ∈ F → objs s0 !! y = None) ∧
  (∀ y, y ∉ F → objs s !! y = objs s0 !! y).

(** [c] is the least capacity [16 * 2^j] under which [n] entries respect
    the load factor: [n <= 0.75 * c], and half of [c] would not do. *)
Definition least_capacity (c n : Z) : Prop :=
  (∃ j : nat, c = 16 * 2 ^ Z.of_nat j) ∧
  4 * n ≤ 3 * c ∧
  (c = 16 ∨ 3 * c < 8 * n).

(** ** Laws of the monad and of the primitives *)

Lemma bind_Ok {A B} (c : M A) (k : A → M B) s a s' :
  c s = Ok a s' → bind c k s = k a s'.
Proof. unfold bind. by intros ->. Qed.

Lemma get_map_Ok s a m : maps s !! a = Some m → get_map (Some a) s = Ok m s.
Proof. unfold get_map. by intros ->. Qed.

Lemma get_link_Ok s x o : objs s !! x = Some o → get_link (Some x) s = Ok (link_of o) s.
Proof. unfold get_link, link_at. by intros ->. Qed.

Lemma get_node_Ok s x n : node_at s x = Some n → get_node (Some x) s = Ok n s.
Proof. unfold get_node. by intros ->. Qed.

Lemma node_at_Some s x n : node_at s x = Some n ↔ objs s !! x = Some (ONode n).
Proof.
  unfold node_at. destruct (objs s !! x) as [[?|?]|]; split; intros; simplify_eq; done.
Qed.

Lemma data_at_Some s x d :
  data_at s x = Some d ↔ ∃ n, objs s !! x = Some (ONode n) ∧ data n = d.
Proof.
  unfold data_at. rewrite fmap_Some. setoid_rewrite node_at_Some. naive_solver.
Qed.

Lemma bnext_at_Some s x q :
  bnext_at s x = Some q ↔ ∃ n, objs s !! x = Some (ONode n) ∧ next_in_bucket n = q.
Proof.
  unfold bnext_at. rewrite fmap_Some. setoid_rewrite node_at_Some. naive_solver.
Qed.

Lemma next_at_Some s x q :
  next_at s x = Some q ↔ ∃ o, objs s !! x = Some o ∧ order_next (link_of o) = q.
Proof. unfold next_at. rewrite fmap_Some. naive_solver. Qed.

Lemma prev_at_Some s x q :
  prev_at s x = Some q ↔ ∃ o, objs s !! x = Some o ∧ order_prev (link_of o) = q.
Proof. unfold prev_at. rewrite fmap_Some. naive_solver. Qed.

(** Walks along pairwise different live objects are shorter than the fuel. *)
Lemma live_length (s : memory) (xs : list addr) :
  NoDup xs → (∀ x, x ∈ xs → is_Some (objs s !! x)) →
  (length xs < fuel_of s)%nat.
Proof.
  intros Hnd Hlive. unfold fuel_of.
  assert (length xs ≤ size (objs s))%nat; [|lia].
  rewrite <- (size_dom (D := gset positive)).
  rewrite <- (size_list_to_set (C := gset positive) xs) by done.
  apply subseteq_size. intros x Hx. apply elem_of_list_to_set in Hx.
  apply elem_of_dom. auto.
Qed.

(** ** Lookup *)

(** [Equal] is an equivalence and [Hash] respects it, as every hash
    container requires of its parameters. *)
Hypothesis key_equal_refl : ∀ a, key_equal a a = true.
Hypothesis key_equal_sym : ∀ a b, key_equal a b = true → key_equal b a = true.
Hypothesis key_equal_trans :
  ∀ a b c, key_equal a b = true → key_equal b c = true → key_equal a c = true.
Hypothesis hasher_proper : ∀ a b, key_equal a b = true → hasher a = hasher b.

Lemma first_match_Some k c e :
  first_match k c = Some e → e ∈ c ∧ key_equal e.2.1 k = true.
Proof.
  induction c as [|e' c IH]; simpl; [done|].
  destruct (key_equal e'.2.1 k) eqn:E.
  - intros [= ->]. split; [left | done].
  - intros H. destruct (IH H). split; [by right | done].
Qed.

Lemma first_match_None k c e :
  first_match k c = None → e ∈ c → key_equal e.2.1 k = false.
Proof.
  induction c as [|e' c IH]; simpl; [by intros _ ?%elem_of_nil|].
  destruct (key_equal e'.2.1 k) eqn:E; [done|].
  intros H [->|?]%elem_of_cons; auto.
Qed.

Lemma capacity_pos s m h t l : inv s m h t l → 16 ≤ bucket_capacity m.
Proof.
  intros [_ _ _ _ _ [j ->] _ _ _ _ _ _ _].
  assert (0 < 2 ^ Z.of_nat j) by (apply Z.pow_pos_nonneg; lia). lia.
Qed.

Lemma bucket_of_lt capacity k : 0 < capacity → (bucket_of capacity k < Z.to_nat capacity)%nat.
Proof.
  intros. unfold bucket_of.
  pose proof (Z.mod_pos_bound (hasher k) capacity ltac:(done)). lia.
Qed.

Lemma bucket_lookup s m h t l k :
  inv s m h t l → ∃ p, buckets m !! bucket_of (bucket_capacity m) k = Some p.
Proof.
  intros I. apply lookup_lt_is_Some. rewrite (inv_len _ _ _ _ _ I).
  apply bucket_of_lt. pose proof (capacity_pos _ _ _ _ _ I). lia.
Qed.

Lemma get_bucket_index_pos s this m k :
  maps s !! this = Some m → 0 < bucket_capacity m →
  get_bucket_index this k s = Ok (hasher k mod bucket_capacity m) s.
Proof.
  intros Hm Hpos. unfold get_bucket_index.
  rewrite (bind_Ok _ _ _ _ _ (get_map_Ok _ _ _ Hm)).
  unfold hash_index. destruct (Z.eqb_spec (bucket_capacity m) 0); [lia | done].
Qed.

Lemma get_bucket_index_Ok s this m h t l k :
  maps s !! this = Some m → inv s m h t l →
  get_bucket_index this k s = Ok (hasher k mod bucket_capacity m) s.
Proof.
  intros Hm I. apply get_bucket_index_pos; [done|].
  pose proof (capacity_pos _ _ _ _ _ I). lia.
Qed.

Lemma find_loop_spec s this m k :
  maps s !! this = Some m →
  ∀ c p fuel, chain s p c → (length c < fuel)%nat →
  find_loop fuel this k p s =
    Ok (match first_match k c with
        | Some e => mkIter (Some e.1) (Some this)
        | None => mkIter (order_tail m) (Some this)
        end) s.
Proof.
  intros Hm. induction c as [|e c IH]; intros p fuel Hc Hf.
  - simpl in Hc. subst p. destruct fuel; [simpl in Hf; lia|]. simpl.
    unfold end_. by rewrite (bind_Ok _ _ _ _ _ (get_map_Ok _ _ _ Hm)).
  - destruct Hc as (-> & Hd & nb & Hnb & Hc).
    destruct fuel; [simpl in Hf; lia|]. simpl in Hf. simpl.
    apply data_at_Some in Hd as (n & Hn & Hd).
    apply bnext_at_Some in Hnb as (n' & Hn' & Hnb). simplify_eq.
    apply node_at_Some in Hn.
    rewrite (bind_Ok _ _ _ _ _ (get_node_Ok _ _ _ Hn)). rewrite Hd.
    destruct (key_equal e.2.1 k); [done|].
    apply IH; [done | lia].
Qed.

Lemma chain_live s p c : chain s p c → ∀ x, x ∈ c.*1 → is_Some (objs s !! x).
Proof.
  revert p. induction c as [|e c IH]; intros p Hc x Hx; [by apply elem_of_nil in Hx|].
  destruct Hc as (-> & Hd & nb & Hnb & Hc).
  rewrite fmap_cons in Hx. apply elem_of_cons in Hx as [->|Hx]; [|by eapply IH].
  apply data_at_Some in Hd as (n & -> & _). eauto.
Qed.

(** [find] on a key that is in the container returns the iterator to its
    entry, and leaves the memory as it is. *)
Lemma find_present s this m h t l k e :
  maps s !! this = Some m → inv s m h t l →
  e ∈ l → key_equal e.2.1 k = true →
  find this k s = Ok (mkIter (Some e.1) (Some this)) s.
Proof.
  intros Hm I He Hk. unfold find.
  rewrite (bind_Ok _ _ _ _ _ (get_bucket_index_Ok _ _ _ _ _ _ k Hm I)).
  rewrite (bind_Ok _ _ _ _ _ (get_map_Ok _ _ _ Hm)).
  destruct (bucket_lookup _ _ _ _ _ k I) as [p Hp].
  unfold bucket_get at 1, bind at 1. unfold bucket_of in Hp. rewrite Hp.
  unfold get_fuel, bind at 1.
  destruct (inv_chains _ _ _ _ _ I _ _ Hp) as (c & Hc & Hnd & Hmem).
  rewrite (find_loop_spec s this m k Hm c p); [|done|].
  - destruct (first_match k c) as [e'|] eqn:E.
    + apply first_match_Some in E as [Hin Hk'].
      apply Hmem in Hin as [Hin _].
      assert (e' = e) as ->; [|done].
      apply (inv_keys _ _ _ _ _ I); [done..|].
      eapply key_equal_trans; [done|]. by apply key_equal_sym.
    + assert (e ∈ c) as Hin.
      { apply Hmem. split; [done|]. unfold bucket_of.
        by rewrite (hasher_proper _ _ Hk). }
      rewrite (first_match_None _ _ _ E Hin) in Hk. done.
  - rewrite <- (length_fmap fst). apply live_length; [done|].
    by apply (chain_live _ _ _ Hc).
Qed.

(** [find] on a key that is not in the container returns [end()]. *)
Lemma find_absent s this m h t l k :
  maps s !! this = Some m → inv s m h t l →
  ¬ has_key l k →
  find this k s = Ok (mkIter (Some t) (Some this)) s.
Proof.
  intros Hm I Hk. unfold find.
  rewrite (bind_Ok _ _ _ _ _ (get_bucket_index_Ok _ _ _ _ _ _ k Hm I)).
  rewrite (bind_Ok _ _ _ _ _ (get_map_Ok _ _ _ Hm)).
  destruct (bucket_lookup _ _ _ _ _ k I) as [p Hp].
  unfold bucket_get at 1, bind at 1. unfold bucket_of in Hp. rewrite Hp.
  unfold get_fuel, bind at 1.
  destruct (inv_chains _ _ _ _ _ I _ _ Hp) as (c & Hc & Hnd & Hmem).
  rewrite (find_loop_spec s this m k Hm c p); [|done|].
  - destruct (first_match k c) as [e'|] eqn:E.
    + apply first_match_Some in E as [Hin Hk'].
      apply Hmem in Hin as [Hin _]. destruct Hk. by exists e'.
    + by rewrite (inv_tail _ _ _ _ _ I).
  - rewrite <- (length_fmap fst). apply live_length; [done|].
    by apply (chain_live _ _ _ Hc).
Qed.

(** ** Effect of a write on the views *)

Lemma link_of_with_link o lk : link_of (with_link o lk) = lk.
Proof. by destruct o. Qed.

Lemma next_at_set_obj s x o y :
  next_at (set_obj x o s) y =
    if decide (x = y) then Some (order_next (link_of o)) else next_at s y.
Proof. unfold next_at, set_obj. simpl. rewrite lookup_insert. by case_decide. Qed.

Lemma prev_at_set_obj s x o y :
  prev_at (set_obj x o s) y =
    if decide (x = y) then Some (order_prev (link_of o)) else prev_at s y.
Proof. unfold prev_at, set_obj. simpl. rewrite lookup_insert. by case_decide. Qed.

Lemma data_at_set_obj_ne s x o y : x ≠ y → data_at (set_obj x o s) y = data_at s y.
Proof. intros. unfold data_at, node_at, set_obj. simpl. by rewrite lookup_insert_ne. Qed.

Lemma bnext_at_set_obj_ne s x o y : x ≠ y → bnext_at (set_obj x o s) y = bnext_at s y.
Proof. intros. unfold bnext_at, node_at, set_obj. simpl. by rewrite lookup_insert_ne. Qed.

Lemma data_at_set_obj_node s x n : data_at (set_obj x (ONode n) s) x = Some (data n).
Proof. unfold data_at, node_at, set_obj. simpl. by rewrite lookup_insert_eq. Qed.

Lemma bnext_at_set_obj_node s x n :
  bnext_at (set_obj x (ONode n) s) x = Some (next_in_bucket n).
Proof. unfold bnext_at, node_at, set_obj. simpl. by rewrite lookup_insert_eq. Qed.

(** A write to the order links leaves data and chain links alone. *)
Lemma data_at_set_link s x o lk y :
  objs s !! x = Some o → data_at (set_obj x (with_link o lk) s) y = data_at s y.
Proof.
  intros Ho. destruct (decide (x = y)) as [<-|]; [|by apply data_at_set_obj_ne].
  unfold data_at, node_at, set_obj. simpl. rewrite lookup_insert_eq, Ho. by destruct o.
Qed.

Lemma bnext_at_set_link s x o lk y :
  objs s !! x = Some o → bnext_at (set_obj x (with_link o lk) s) y = bnext_at s y.
Proof.
  intros Ho. destruct (decide (x = y)) as [<-|]; [|by apply bnext_at_set_obj_ne].
  unfold bnext_at, node_at, set_obj. simpl. rewrite lookup_insert_eq, Ho. by destruct o.
Qed.

(** A write to the chain link leaves the order links and the data alone. *)
Lemma next_at_set_bnext s x n q y :
  node_at s x = Some n →
  next_at (set_obj x (ONode (mkNode (base n) (data n) q)) s) y = next_at s y.
Proof.
  intros Hn%node_at_Some. rewrite next_at_set_obj. case_decide; [subst|done].
  unfold next_at. by rewrite Hn.
Qed.

Lemma prev_at_set_bnext s x n q y :
  node_at s x = Some n →
  prev_at (set_obj x (ONode (mkNode (base n) (data n) q)) s) y = prev_at s y.
Proof.
  intros Hn%node_at_Some. rewrite prev_at_set_obj. case_decide; [subst|done].
  unfold prev_at. by rewrite Hn.
Qed.

Lemma data_at_set_bnext s x n q y :
  node_at s x = Some n →
  data_at (set_obj x (ONode (mkNode (base n) (data n) q)) s) y = data_at s y.
Proof.
  intros Hn. destruct (decide (x = y)) as [<-|]; [|by apply data_at_set_obj_ne].
  rewrite data_at_set_obj_node. unfold data_at. by rewrite Hn.
Qed.

(** ** Structure of order lists and chains *)

Lemma dseg_frame s s' p xs q :
  (∀ z, z ∈ p :: xs → next_at s' z = next_at s z) →
  (∀ z, z ∈ xs ++ [q] → prev_at s' z = prev_at s z) →
  dseg s p xs q → dseg s' p xs q.
Proof.
  revert p. induction xs as [|x xs IH]; intros p Hn Hp; simpl.
  - intros [H1 H2]. rewrite Hn, Hp by set_solver. done.
  - intros (H1 & H2 & H3). rewrite Hn, Hp by set_solver. split_and!; [done..|].
    apply IH; [| |done]; intros; [apply Hn|apply Hp]; set_solver.
Qed.

Lemma dseg_app s p xs y ys q :
  dseg s p (xs ++ y :: ys) q ↔ dseg s p xs y ∧ dseg s y ys q.
Proof.
  revert p. induction xs as [|x xs IH]; intros p; simpl; [tauto|].
  rewrite IH. tauto.
Qed.

(** The last object of a segment, the one linked to its end. *)
Fixpoint last_of (p : addr) (xs : list addr) : addr :=
  match xs with
  | [] => p
  | x :: xs' => last_of x xs'
  end.

Lemma last_of_cons p x xs : last_of p (x :: xs) = last_of x xs.
Proof. done. Qed.

Lemma last_of_elem p xs : last_of p xs ∈ p :: xs.
Proof.
  revert p. induction xs as [|x xs IH]; intros p; [left|].
  rewrite last_of_cons. right. apply IH.
Qed.

Lemma last_of_snoc p xs x : last_of p (xs ++ [x]) = x.
Proof. revert p. induction xs as [|y xs IH]; intros p; simpl; [done|apply IH]. Qed.

Lemma dseg_last s p xs q :
  dseg s p xs q →
  next_at s (last_of p xs) = Some (Some q) ∧ prev_at s q = Some (Some (last_of p xs)).
Proof.
  revert p. induction xs as [|x xs IH]; intros p; simpl; [done|].
  intros (_ & _ & H). by apply IH.
Qed.

(** Pointing the last object of a segment to a new end. *)
Lemma dseg_retarget s s' p xs q r :
  NoDup (p :: xs) →
  dseg s p xs q →
  (∀ z, z ∈ p :: xs → z ≠ last_of p xs → next_at s' z = next_at s z) →
  (∀ z, z ∈ xs → prev_at s' z = prev_at s z) →
  next_at s' (last_of p xs) = Some (Some r) →
  prev_at s' r = Some (Some (last_of p xs)) →
  dseg s' p xs r.
Proof.
  revert p. induction xs as [|x xs IH]; intros p Hnd Hs Hn Hp Hl Hr; simpl.
  - done.
  - destruct Hs as (H1 & H2 & H3). simpl in Hn, Hl, Hr.
    apply NoDup_cons in Hnd as [Hp1 Hnd].
    split_and!.
    + rewrite Hn; [done|left|]. intros ->. apply Hp1, last_of_elem.
    + rewrite Hp; [done|left].
    + apply IH; try done.
      * intros z Hz Hne. apply Hn; [by right|done].
      * intros z Hz. apply Hp. by right.
Qed.

Lemma dseg_fwd s p xs q :
  dseg s p xs q → ∃ c, next_at s p = Some (Some c) ∧ fwd s c xs q.
Proof.
  revert p. induction xs as [|x xs IH]; intros p; simpl.
  - intros [H _]. eauto.
  - intros (H1 & _ & H3). exists x. split; [done|]. split; [done|].
    destruct (IH _ H3) as (c & ? & ?). eauto.
Qed.

Lemma fwd_frame s s' cur xs q :
  (∀ z, z ∈ xs → next_at s' z = next_at s z) →
  fwd s cur xs q → fwd s' cur xs q.
Proof.
  revert cur. induction xs as [|x xs IH]; intros cur Hn; simpl; [done|].
  intros (-> & nxt & H1 & H2). split; [done|]. exists nxt.
  rewrite Hn by left. split; [done|]. apply IH; [|done]. intros. apply Hn. by right.
Qed.

Lemma dseg_live s p xs q :
  dseg s p xs q → ∀ z, z ∈ p :: xs ++ [q] → is_Some (objs s !! z).
Proof.
  revert p. induction xs as [|x xs IH]; intros p; simpl.
  - intros [H1 H2] z Hz.
    apply next_at_Some in H1 as (o1 & H1 & _). apply prev_at_Some in H2 as (o2 & H2 & _).
    set_solver.
  - intros (H1 & _ & H3) z Hz.
    apply elem_of_cons in Hz as [->|Hz]; [|by apply (IH _ H3)].
    apply next_at_Some in H1 as (o1 & H1 & _). eauto.
Qed.

Lemma chain_frame s s' p c :
  (∀ z, z ∈ c.*1 → data_at s' z = data_at s z ∧ bnext_at s' z = bnext_at s z) →
  chain s p c → chain s' p c.
Proof.
  revert p. induction c as [|e c IH]; intros p Hf; simpl; [done|].
  intros (-> & Hd & nb & Hnb & Hc).
  destruct (Hf e.1) as [-> ->]; [rewrite fmap_cons; left|].
  split_and!; [done..|]. exists nb. split; [done|].
  apply IH; [|done]. intros z Hz. apply Hf. rewrite fmap_cons. by right.
Qed.

(** ** [rehash] *)

Lemma chain_blind_refl s : chain_blind s s.
Proof. done. Qed.

Lemma chain_blind_trans s1 s2 s3 :
  chain_blind s1 s2 → chain_blind s2 s3 → chain_blind s1 s3.
Proof. intros H1 H2 y. by rewrite H2, H1. Qed.

Lemma link_of_strip o : link_of (strip o) = link_of o.
Proof. by destruct o. Qed.

Lemma chain_blind_next s s' y : chain_blind s s' → next_at s' y = next_at s y.
Proof.
  intros H. specialize (H y). unfold next_at.
  destruct (objs s' !! y) as [o'|], (objs s !! y) as [o|]; simplify_eq/=; [|done].
  by rewrite <- (link_of_strip o'), <- (link_of_strip o), H.
Qed.

Lemma chain_blind_prev s s' y : chain_blind s s' → prev_at s' y = prev_at s y.
Proof.
  intros H. specialize (H y). unfold prev_at.
  destruct (objs s' !! y) as [o'|], (objs s !! y) as [o|]; simplify_eq/=; [|done].
  by rewrite <- (link_of_strip o'), <- (link_of_strip o), H.
Qed.

Lemma chain_blind_data s s' y : chain_blind s s' → data_at s' y = data_at s y.
Proof.
  intros H. specialize (H y). unfold data_at, node_at.
  destruct (objs s' !! y) as [[?|?]|], (objs s !! y) as [[?|?]|]; simplify_eq/=;
    congruence.
Qed.

Lemma chain_blind_dom s s' : chain_blind s s' → dom (objs s') = dom (objs s).
Proof.
  intros H. apply set_eq. intros y. rewrite !elem_of_dom. specialize (H y).
  destruct (objs s' !! y), (objs s !! y); simplify_eq/=; split; intros [? ?]; by eauto.
Qed.

Lemma chain_blind_set_bnext s x n q :
  node_at s x = Some n →
  chain_blind s (set_obj x (ONode (mkNode (base n) (data n) q)) s).
Proof.
  intros Hn%node_at_Some y. unfold set_obj. simpl. rewrite lookup_insert.
  case_decide; [subst|done]. by rewrite Hn.
Qed.

Lemma chains_ok_frame s s' b capacity l :
  (∀ e, e ∈ l → data_at s' e.1 = data_at s e.1 ∧ bnext_at s' e.1 = bnext_at s e.1) →
  chains_ok s b capacity l → chains_ok s' b capacity l.
Proof.
  intros Hf Hc i p Hp. destruct (Hc i p Hp) as (c & Hch & Hnd & Hmem).
  exists c. split_and!; [|done..].
  eapply chain_frame; [|done]. intros z (e & -> & He)%list_elem_of_fmap.
  apply Hf. by apply Hmem.
Qed.

Lemma rehash_loop_spec capacity t :
  0 < capacity →
  ∀ l2 l1 s b cur fuel,
    fwd s cur (l2.*1) t →
    NoDup (t :: (l1 ++ l2).*1) →
    (∀ e, e ∈ l2 → data_at s e.1 = Some e.2) →
    chains_ok s b capacity l1 →
    length b = Z.to_nat capacity →
    (length l2 < fuel)%nat →
    ∃ s' b',
      rehash_loop fuel (Some t) capacity b (Some cur) s = Ok b' s' ∧
      maps s' = maps s ∧
      chain_blind s s' ∧
      (∀ y, y ∉ l2.*1 → objs s' !! y = objs s !! y) ∧
      chains_ok s' b' capacity (l1 ++ l2) ∧
      length b' = Z.to_nat capacity.
Proof.
  intros Hcap. induction l2 as [|e l2 IH]; intros l1 s b cur fuel Hfwd Hnd Hdata Hch Hlen Hfuel.
  - simpl in Hfwd. subst cur. destruct fuel; [simpl in Hfuel; lia|]. simpl.
    rewrite bool_decide_eq_true_2 by done.
    exists s, b. rewrite app_nil_r. split_and!; done.
  - destruct Hfwd as (-> & nxt & Hnxt & Hfwd).
    destruct fuel; [simpl in Hfuel; lia|]. simpl in Hfuel. simpl.
    assert (e.1 ≠ t) as Hne.
    { apply NoDup_cons in Hnd as [Hnd _]. intros Heq. apply Hnd.
      rewrite <- Heq, fmap_app, fmap_cons. set_solver. }
    rewrite bool_decide_eq_false_2 by congruence.
    assert (data_at s e.1 = Some e.2) as Hd by (apply Hdata; left).
    apply data_at_Some in Hd as (n & Hn & Hd). apply node_at_Some in Hn.
    rewrite (bind_Ok _ _ _ _ _ (get_node_Ok _ _ _ Hn)).
    unfold hash_index. destruct (Z.eqb_spec capacity 0) as [|_]; [lia|].
    unfold bind at 1, ret at 1. rewrite Hd.
    assert (bucket_of capacity e.2.1 < length b)%nat as Hlt.
    { rewrite Hlen. by apply bucket_of_lt. }
    destruct (lookup_lt_is_Some_2 _ _ Hlt) as [p Hp].
    unfold bucket_get at 1, bind at 1. fold (bucket_of capacity e.2.1). rewrite Hp.
    unfold set_next_in_bucket at 1, bind at 1. rewrite Hn.
    unfold bucket_set at 1, bind at 1. fold (bucket_of capacity e.2.1). rewrite Hp.
    set (s1 := set_obj e.1 (ONode (mkNode (base n) (data n) p)) s).
    assert (chain_blind s s1) as Hb by (by apply chain_blind_set_bnext).
    assert (node_at s1 e.1 = Some (mkNode (base n) (data n) p)) as Hn1.
    { apply node_at_Some. unfold s1, set_obj. simpl. by rewrite lookup_insert_eq. }
    rewrite (bind_Ok _ _ _ _ _ (get_node_Ok _ _ _ Hn1)). simpl.
    assert (order_next (base n) = Some nxt) as ->.
    { apply next_at_Some in Hnxt as (o & Ho & Hon). apply node_at_Some in Hn.
      rewrite Hn in Ho. by simplify_eq. }
    assert (NoDup (e.1 :: l1.*1 ++ l2.*1)) as Hnd'.
    { apply NoDup_cons in Hnd as [_ Hnd]. rewrite fmap_app, fmap_cons in Hnd.
      by rewrite <- Permutation_middle in Hnd. }
    apply NoDup_cons in Hnd' as [Hx Hnd'].
    destruct (IH (l1 ++ [e]) s1 (<[bucket_of capacity e.2.1 := Some e.1]> b) nxt fuel)
      as (s' & b' & Hrun & Hmaps & Hblind & Hout & Hch' & Hlen').
    + eapply (fwd_frame s); [|done]. intros z _. by apply chain_blind_next.
    + rewrite <- app_assoc. done.
    + intros e' He'. rewrite (chain_blind_data s) by done. apply Hdata. by right.
    + intros i q Hq.
      assert (∀ q' c, chain s q' c → (∀ z, z ∈ c → z ∈ l1) → chain s1 q' c) as Hfr.
      { intros q' c Hc Hsub. eapply chain_frame; [|done].
        intros z (e' & -> & He')%list_elem_of_fmap.
        assert (e.1 ≠ e'.1).
        { intros Heq. apply Hx. rewrite Heq. apply elem_of_app. left.
          apply list_elem_of_fmap_2. by apply Hsub. }
        unfold s1. by rewrite data_at_set_obj_ne, bnext_at_set_obj_ne. }
      destruct (decide (i = bucket_of capacity e.2.1)) as [->|Hi].
      * rewrite list_lookup_insert_eq in Hq by done. simplify_eq.
        destruct (Hch _ _ Hp) as (c & Hc & Hcnd & Hmem).
        exists (e :: c). split_and!.
        -- simpl. split_and!; [done| |].
           ++ unfold s1. rewrite data_at_set_obj_node. simpl. by rewrite Hd.
           ++ exists p. split; [unfold s1; by rewrite bnext_at_set_obj_node|].
              apply Hfr; [done|]. intros z Hz. by apply Hmem.
        -- rewrite fmap_cons. apply NoDup_cons. split; [|done].
           intros (e' & Heq & He')%list_elem_of_fmap. apply Hx. rewrite Heq.
           apply elem_of_app. left. apply list_elem_of_fmap_2. by apply Hmem.
        -- intros e'. rewrite elem_of_cons, elem_of_app, list_elem_of_singleton, Hmem.
           naive_solver.
      * rewrite list_lookup_insert_ne in Hq by done.
        destruct (Hch _ _ Hq) as (c & Hc & Hcnd & Hmem).
        exists c. split_and!; [|done|].
        -- apply Hfr; [done|]. intros z Hz. by apply Hmem.
        -- intros e'. rewrite elem_of_app, list_elem_of_singleton, Hmem. naive_solver.
    + by rewrite length_insert.
    + lia.
    + exists s', b'. rewrite <- app_assoc in Hch'. split_and!; try done.
      * by eapply chain_blind_trans.
      * intros y Hy. apply not_elem_of_cons in Hy as [Hy1 Hy2].
        rewrite (Hout y Hy2). unfold s1, set_obj. simpl. by rewrite lookup_insert_ne.
Qed.

Lemma size_t_small z : 0 ≤ z < 2 ^ 64 → size_t z = z.
Proof. intros. unfold size_t. by apply Z.mod_small. Qed.

Lemma inv_live s m h t l :
  inv s m h t l → ∀ z, z ∈ footprint h t l → is_Some (objs s !! z).
Proof.
  intros I z Hz. apply (dseg_live _ _ _ _ (inv_order _ _ _ _ _ I)).
  unfold footprint in Hz. set_solver.
Qed.

Lemma inv_fuel s m h t l : inv s m h t l → (length l < fuel_of s)%nat.
Proof.
  intros I. rewrite <- (length_fmap fst). apply live_length.
  - pose proof (inv_nodup _ _ _ _ _ I) as Hnd.
    by apply NoDup_cons in Hnd as [_ [_ Hnd]%NoDup_cons].
  - intros x Hx. apply (inv_live _ _ _ _ _ I). unfold footprint. set_solver.
Qed.

Lemma views_of_objs s s' y :
  objs s' !! y = objs s !! y →
  next_at s' y = next_at s y ∧ prev_at s' y = prev_at s y ∧
  data_at s' y = data_at s y ∧ bnext_at s' y = bnext_at s y.
Proof. intros H. unfold next_at, prev_at, data_at, bnext_at, node_at. by rewrite H. Qed.

(** The invariant reads the memory at the objects of the container only. *)
Lemma inv_frame s s' m h t l :
  inv s m h t l →
  (∀ y, y ∈ footprint h t l → objs s' !! y = objs s !! y) →
  inv s' m h t l.
Proof.
  intros [Ih It Ind Iord Idata Ipow Icap Ilen Ich Ikeys Isize Iload Ismall] Hf.
  assert (∀ e, e ∈ l → e.1 ∈ footprint h t l) as Hin.
  { intros e He. unfold footprint. do 2 right. by apply list_elem_of_fmap_2. }
  constructor; try done.
  - eapply dseg_frame; [| |done]; intros z Hz.
    + apply views_of_objs, Hf. unfold footprint.
      apply elem_of_cons in Hz as [->|Hz]; [left|by do 2 right].
    + apply views_of_objs, Hf. unfold footprint.
      apply elem_of_app in Hz as [Hz| ->%list_elem_of_singleton]; [by do 2 right|right; left].
  - intros e He. rewrite <- (Idata e He). apply views_of_objs, Hf. by apply Hin.
  - intros i p Hp. destruct (Ich i p Hp) as (c & Hc & Hnd & Hmem).
    exists c. split_and!; [|done..]. eapply chain_frame; [|done].
    intros z (e & -> & He)%list_elem_of_fmap.
    destruct (views_of_objs s s' e.1) as (_ & _ & ? & ?); [|done].
    apply Hf, Hin. by apply Hmem.
Qed.

(** [rehash] doubles the capacity and rebuilds every chain; apart from the
    container record only [next_in_bucket] fields change. *)
Lemma rehash_spec s this m h t l :
  maps s !! this = Some m → inv s m h t l → bucket_capacity m * 2 < 2 ^ 55 →
  ∃ s' b,
    let m' := mkMap b (order_head m) (order_tail m) (bucket_capacity m * 2) (num_elements m) in
    rehash this s = Ok tt s' ∧
    maps s' = <[this := m']> (maps s) ∧
    chain_blind s s' ∧
    (∀ y, y ∉ l.*1 → objs s' !! y = objs s !! y) ∧
    inv s' m' h t l.
Proof.
  intros Hm I0 Hcap. pose proof (capacity_pos _ _ _ _ _ I0) as Hpos.
  unfold rehash. rewrite (bind_Ok _ _ _ _ _ (get_map_Ok _ _ _ Hm)).
  rewrite size_t_small by lia.
  unfold new_array at 1, bind at 1.
  set (s0 := mkMem (objs s) (maps s) (arrays s + 1)).
  assert (inv s0 m h t l) as I by (by apply (inv_frame s)).
  assert (maps s0 !! this = Some m) as Hm0 by done.
  change (chain_blind s) with (chain_blind s0). change (maps s) with (maps s0).
  change (objs s) with (objs s0). clearbody s0. clear s Hm I0.
  rename s0 into s, Hm0 into Hm.
  destruct (dseg_fwd _ _ _ _ (inv_order _ _ _ _ _ I)) as (c & Hc & Hfwd).
  apply next_at_Some in Hc as (o & Ho & Hc).
  rewrite (inv_head _ _ _ _ _ I), (bind_Ok _ _ _ _ _ (get_link_Ok _ _ _ Ho)), Hc.
  unfold get_fuel at 1, bind at 1. rewrite (inv_tail _ _ _ _ _ I).
  destruct (rehash_loop_spec (bucket_capacity m * 2) t ltac:(lia) l [] s
              (replicate (Z.to_nat (bucket_capacity m * 2)) None) c (fuel_of s))
    as (s' & b & Hrun & Hmaps & Hblind & Hout & Hch & Hlen).
  - done.
  - pose proof (inv_nodup _ _ _ _ _ I) as Hnd. by apply NoDup_cons in Hnd as [_ Hnd].
  - apply (inv_data _ _ _ _ _ I).
  - intros i p [-> _]%lookup_replicate. exists []. split_and!; [done|constructor|].
    intros e. split; [by intros ?%elem_of_nil | by intros [?%elem_of_nil _]].
  - by rewrite length_replicate.
  - by eapply inv_fuel.
  - rewrite (bind_Ok _ _ _ _ _ Hrun).
    unfold delete_array at 1, bind at 1.
    unfold get_map at 1, bind at 1. simpl. rewrite Hmaps, Hm.
    unfold put_map, set_map. simpl.
    rewrite ?(inv_head _ _ _ _ _ I), ?(inv_tail _ _ _ _ _ I).
    match goal with |- ∃ _ _, Ok _ ?x = _ ∧ _ => set (s2 := x) end.
    assert (chain_blind s s2) as Hb2 by exact Hblind.
    exists s2, b. split; [reflexivity|]. split; [done|]. split; [done|].
    split; [exact Hout|].
    destruct I as [Ih It Ind Iord Idata [j Ipow] Icap Ilen Ich Ikeys Isize Iload Ismall].
    constructor; simpl; try done.
    + eapply dseg_frame; [| |done]; intros z _.
      * by apply chain_blind_next.
      * by apply chain_blind_prev.
    + intros e He. rewrite <- (Idata e He). by apply chain_blind_data.
    + exists (S j). rewrite Ipow, Nat2Z.inj_succ, Z.pow_succ_r by lia. lia.
    + intros i p Hp. destruct (Hch i p Hp) as (c' & H1 & H2 & H3).
      exists c'. split_and!; [|done..]. eapply (chain_frame s'); [|done]. done.
    + lia.
Qed.

(** ** [insert] *)

Lemma end_Ok s this m h t l :
  maps s !! this = Some m → inv s m h t l →
  end_ this s = Ok (mkIter (Some t) (Some this)) s.
Proof.
  intros Hm I. unfold end_. rewrite (bind_Ok _ _ _ _ _ (get_map_Ok _ _ _ Hm)).
  by rewrite (inv_tail _ _ _ _ _ I).
Qed.

Lemma inv_entry_ne_tail s m h t l e : inv s m h t l → e ∈ l → e.1 ≠ t.
Proof.
  intros I He Heq. pose proof (inv_nodup _ _ _ _ _ I) as Hnd.
  apply NoDup_cons in Hnd as [_ [Hnd _]%NoDup_cons]. apply Hnd.
  rewrite <- Heq. by apply list_elem_of_fmap_2.
Qed.

(** Inserting a key that is already there: the iterator to the entry that
    is there, [false], and the same memory. *)
Lemma insert_present s this m h t l k v e :
  maps s !! this = Some m → inv s m h t l →
  e ∈ l → key_equal e.2.1 k = true →
  insert this (k, v) s = Ok (mkIter (Some e.1) (Some this), false) s.
Proof.
  intros Hm I He Hk. unfold insert. simpl.
  rewrite (bind_Ok _ _ _ _ _ (find_present _ _ _ _ _ _ _ _ Hm I He Hk)).
  rewrite (bind_Ok _ _ _ _ _ (end_Ok _ _ _ _ _ _ Hm I)).
  unfold iterator_eq. simpl.
  rewrite bool_decide_eq_false_2; [done|].
  intros [=]. by eapply inv_entry_ne_tail.
Qed.

Lemma exceeds_load_spec n c : exceeds_load n c = true ↔ 3 * c < 4 * n.
Proof. unfold exceeds_load. apply Z.ltb_lt. Qed.

(** The growth step of [insert], whether it is taken or not. *)
Lemma insert_grow s this m h t l :
  maps s !! this = Some m → inv s m h t l →
  Z.of_nat (length l) < 2 ^ 53 →
  ∃ s1 m1,
    (if exceeds_load (size_t (num_elements m + 1)) (bucket_capacity m)
     then rehash this else ret tt) s = Ok tt s1 ∧
    maps s1 = <[this := m1]> (maps s) ∧
    inv s1 m1 h t l ∧
    chain_blind s s1 ∧
    (∀ y, y ∉ l.*1 → objs s1 !! y = objs s !! y) ∧
    bucket_capacity m1 =
      (if exceeds_load (num_elements m + 1) (bucket_capacity m)
       then bucket_capacity m * 2 else bucket_capacity m) ∧
    4 * (num_elements m + 1) ≤ 3 * bucket_capacity m1.
Proof.
  intros Hm I Hlen.
  pose proof (capacity_pos _ _ _ _ _ I) as Hpos.
  pose proof (inv_size _ _ _ _ _ I) as Hsz.
  pose proof (inv_load _ _ _ _ _ I) as Hload.
  rewrite size_t_small by lia.
  destruct (exceeds_load (num_elements m + 1) (bucket_capacity m)) eqn:E.
  - apply exceeds_load_spec in E.
    destruct (rehash_spec s this m h t l Hm I ltac:(lia)) as (s1 & b & Hrun & Hmaps & Hb & Hout & I1).
    eexists s1, _. split_and!; [done|done|done|done|done|done|simpl; lia].
  - assert (¬ 3 * bucket_capacity m < 4 * (num_elements m + 1)) as E'.
    { intros E'%exceeds_load_spec. congruence. }
    exists s, m. split_and!; [done| |done|done|done|done|lia].
    by rewrite insert_id.
Qed.

(** Inserting a key that is not there: a fresh entry, appended to the order
    list and put at the head of its chain. *)
Lemma insert_new s this m h t l k v :
  maps s !! this = Some m → inv s m h t l →
  ¬ has_key l k →
  Z.of_nat (length l) < 2 ^ 53 →
  ∃ s' m' x,
    insert this (k, v) s = Ok (mkIter (Some x) (Some this), true) s' ∧
    objs s !! x = None ∧
    maps s' = <[this := m']> (maps s) ∧
    inv s' m' h t (l ++ [(x, (k, v))]) ∧
    (∀ y, y ∉ footprint h t l → y ≠ x → objs s' !! y = objs s !! y) ∧
    bucket_capacity m' =
      (if exceeds_load (num_elements m + 1) (bucket_capacity m)
       then bucket_capacity m * 2 else bucket_capacity m).
Proof.
  intros Hm I Hk Hlen. unfold insert. simpl.
  rewrite (bind_Ok _ _ _ _ _ (find_absent _ _ _ _ _ _ _ Hm I Hk)).
  rewrite (bind_Ok _ _ _ _ _ (end_Ok _ _ _ _ _ _ Hm I)).
  unfold iterator_eq. simpl. rewrite !bool_decide_eq_true_2 by done. simpl.
  rewrite (bind_Ok _ _ _ _ _ (get_map_Ok _ _ _ Hm)).
  destruct (insert_grow s this m h t l Hm I Hlen)
    as (s1 & m1 & Hrun & Hmaps1 & I1 & Hb1 & Hout1 & Hcap1 & Hload1).
  rewrite (bind_Ok _ _ _ _ _ Hrun).
  pose proof (inv_size _ _ _ _ _ I) as Hsz.
  pose proof (inv_size _ _ _ _ _ I1) as Hsz1.
  pose proof (capacity_pos _ _ _ _ _ I1) as Hpos1.
  assert (maps s1 !! this = Some m1) as Hm1 by (by rewrite Hmaps1, lookup_insert_eq).
  unfold alloc at 1, bind at 1.
  set (x := fresh (dom (objs s1))).
  assert (objs s1 !! x = None) as Hx.
  { apply not_elem_of_dom. apply is_fresh. }
  assert (x ∉ footprint h t l) as Hxf.
  { intros Hin. apply (inv_live _ _ _ _ _ I1) in Hin as [? Hin]. congruence. }
  erewrite bind_Ok; [|apply get_bucket_index_pos; [exact Hm1|lia]].
  erewrite bind_Ok; [|apply get_map_Ok; exact Hm1].
  destruct (bucket_lookup _ _ _ _ _ k I1) as [p Hp].
  unfold bucket_get at 1, bind at 1. fold (bucket_of (bucket_capacity m1) k). rewrite Hp.
  unfold set_next_in_bucket at 1, bind at 1, node_at at 1. simpl.
  rewrite lookup_insert_eq.
  unfold get_map at 1, bind at 1. simpl. rewrite Hm1.
  unfold bucket_set at 1, bind at 1. fold (bucket_of (bucket_capacity m1) k). rewrite Hp.
  unfold put_map at 1, bind at 1.
  unfold get_map at 1, bind at 1. simpl. rewrite lookup_insert_eq. simpl.
  rewrite (inv_tail _ _ _ _ _ I1).
  destruct (dseg_last _ _ _ _ (inv_order _ _ _ _ _ I1)) as [Hnl Hpt].
  set (lst := last_of h l.*1) in *.
  apply prev_at_Some in Hpt as (ot & Hot & Hpt).
  apply next_at_Some in Hnl as (ol & Hol & Hnl).
  assert (lst ∈ h :: l.*1) as Hlst by apply last_of_elem.
  pose proof (inv_nodup _ _ _ _ _ I1) as Hnd.
  assert (x ≠ t) as Hxt by (intros ->; apply Hxf; unfold footprint; set_solver).
  assert (x ≠ lst) as Hxl by (intros Heq; apply Hxf; rewrite Heq; unfold footprint; set_solver).
  assert (lst ≠ t) as Hlt.
  { intros Heq. rewrite Heq in Hlst. apply NoDup_cons in Hnd as [Hh [Ht _]%NoDup_cons].
    set_solver. }
  unfold get_link at 1, bind at 1, link_at. simpl.
  rewrite !lookup_insert_ne by done. rewrite Hot. simpl. rewrite Hpt.
  unfold set_order_prev at 1, bind at 1. simpl. rewrite lookup_insert_eq. simpl.
  unfold set_order_next at 1, bind at 1. simpl. rewrite lookup_insert_eq. simpl.
  unfold get_link at 1, bind at 1, link_at. simpl.
  rewrite !lookup_insert_ne by done. rewrite Hot. simpl. rewrite Hpt.
  unfold set_order_next at 1, bind at 1. simpl.
  rewrite !lookup_insert_ne by done. rewrite Hol.
  unfold set_order_prev at 1, bind at 1. simpl.
  rewrite !lookup_insert_ne by done. rewrite Hot.
  unfold get_map at 1, bind at 1. simpl. rewrite lookup_insert_eq.
  unfold put_map at 1, bind at 1. simpl. unfold ret.
  match goal with |- ∃ _ _ _, Ok _ ?st = _ ∧ _ => set (s9 := st) end.
  assert (∀ y, next_at s9 y =
            if decide (y = x) then Some (Some t)
            else if decide (y = lst) then Some (Some x) else next_at s1 y) as Hvn.
  { intros y. unfold s9, next_at, set_obj, set_map. simpl. rewrite !lookup_insert.
    repeat case_decide; simplify_eq; rewrite ?Hot, ?Hol; simpl;
      rewrite ?link_of_with_link; done. }
  assert (∀ y, prev_at s9 y =
            if decide (y = x) then Some (Some lst)
            else if decide (y = t) then Some (Some x) else prev_at s1 y) as Hvp.
  { intros y. unfold s9, prev_at, set_obj, set_map. simpl. rewrite !lookup_insert.
    repeat case_decide; simplify_eq; rewrite ?Hot, ?Hol; simpl;
      rewrite ?link_of_with_link; done. }
  assert (∀ y, data_at s9 y = if decide (y = x) then Some (k, v) else data_at s1 y) as Hvd.
  { intros y. unfold s9, data_at, node_at, set_obj, set_map. simpl. rewrite !lookup_insert.
    repeat case_decide; simplify_eq; rewrite ?Hot, ?Hol; simpl; try done.
    - by destruct ot.
    - by destruct ol. }
  assert (∀ y, bnext_at s9 y = if decide (y = x) then Some p else bnext_at s1 y) as Hvb.
  { intros y. unfold s9, bnext_at, node_at, set_obj, set_map. simpl. rewrite !lookup_insert.
    repeat case_decide; simplify_eq; rewrite ?Hot, ?Hol; simpl; try done.
    - by destruct ot.
    - by destruct ol. }
  assert (∀ y, y ∉ footprint h t l → y ≠ x → objs s9 !! y = objs s1 !! y) as Hvf.
  { intros y Hy Hyx. unfold s9, set_obj, set_map. simpl.
    rewrite !lookup_insert_ne; [done|congruence..| |].
    - intros <-. apply Hy. unfold footprint. set_solver.
    - intros <-. apply Hy. unfold footprint. set_solver. }
  assert (objs s !! x = None) as Hxs.
  { specialize (Hb1 x). rewrite Hx in Hb1. by destruct (objs s !! x). }
  assert (∀ e, e ∈ l → e.1 ≠ x) as Hlx.
  { intros e He <-. apply Hxf. unfold footprint. do 2 right. by apply list_elem_of_fmap_2. }
  eexists s9, _, x. split; [reflexivity|]. split; [done|]. split.
  { unfold s9, set_map, set_obj. simpl. by rewrite Hmaps1, !insert_insert_eq. }
  split; [|split; [|done]].
  - destruct I1 as [Ih It _ Iord Idata Ipow Icap Ilen Ich Ikeys Isize Iload Ismall].
    constructor; simpl; try done.
    + rewrite fmap_app. simpl. change (NoDup ((h :: t :: l.*1) ++ [x])).
      rewrite Permutation_app_comm. simpl. apply NoDup_cons. split; [|done]. exact Hxf.
    + rewrite fmap_app. simpl. apply dseg_app. split.
      * apply (dseg_retarget s1 s9 h (l.*1) t x); try done.
        -- apply NoDup_cons in Hnd as [Hh [_ Hl]%NoDup_cons].
           apply NoDup_cons. split; [|done]. intros Hin. apply Hh. by right.
        -- intros z Hz Hne. rewrite Hvn. rewrite decide_False, decide_False; [done..|].
           intros ->. apply Hxf. unfold footprint. set_solver.
        -- intros z Hz. rewrite Hvp. rewrite decide_False, decide_False; [done| |].
           ++ intros ->. apply NoDup_cons in Hnd as [_ [Ht _]%NoDup_cons]. done.
           ++ intros ->. apply Hxf. unfold footprint. set_solver.
        -- rewrite Hvn. rewrite decide_False by done. by rewrite decide_True.
        -- rewrite Hvp. by rewrite decide_True.
      * simpl. rewrite Hvn, Hvp. rewrite decide_True by done.
        rewrite decide_False by done. by rewrite decide_True.
    + intros e [He| ->%list_elem_of_singleton]%elem_of_app; rewrite Hvd.
      * rewrite decide_False by (by apply Hlx). by apply Idata.
      * simpl. by rewrite decide_True.
    + by rewrite length_insert.
    + intros i q Hq.
      assert (∀ q' c, chain s1 q' c → (∀ z, z ∈ c → z ∈ l) → chain s9 q' c) as Hfr.
      { intros q' c Hc Hsub. eapply chain_frame; [|done].
        intros z (e' & -> & He')%list_elem_of_fmap. rewrite Hvd, Hvb.
        rewrite !decide_False; [done|apply Hlx; by apply Hsub..]. }
      destruct (decide (i = bucket_of (bucket_capacity m1) k)) as [->|Hi].
      * rewrite list_lookup_insert_eq in Hq by (by eapply lookup_lt_Some). simplify_eq.
        destruct (Ich _ _ Hp) as (c & Hc & Hcnd & Hmem).
        exists ((x, (k, v)) :: c). split_and!.
        -- simpl. split_and!; [done| |].
           ++ rewrite Hvd. by rewrite decide_True.
           ++ exists p. rewrite Hvb. rewrite decide_True by done. split; [done|].
              apply Hfr; [done|]. intros z Hz. by apply Hmem.
        -- rewrite fmap_cons. apply NoDup_cons. split; [|done]. simpl.
           intros (e' & Heq & He')%list_elem_of_fmap.
           apply (Hlx e'); [by apply Hmem | done].
        -- intros e'. rewrite elem_of_cons, elem_of_app, list_elem_of_singleton, Hmem.
           naive_solver.
      * rewrite list_lookup_insert_ne in Hq by done.
        destruct (Ich _ _ Hq) as (c & Hc & Hcnd & Hmem).
        exists c. split_and!; [|done|].
        -- apply Hfr; [done|]. intros z Hz. by apply Hmem.
        -- intros e'. rewrite elem_of_app, list_elem_of_singleton, Hmem. naive_solver.
    + intros e1 e2 [H1| ->%list_elem_of_singleton]%elem_of_app
        [H2| ->%list_elem_of_singleton]%elem_of_app Heq; simpl in *.
      * by apply Ikeys.
      * destruct Hk. by exists e1.
      * destruct Hk. exists e2. split; [done|]. by apply key_equal_sym.
      * done.
    + rewrite length_app. simpl. rewrite size_t_small by lia. lia.
    + rewrite size_t_small by lia. lia.
    + rewrite size_t_small by lia. lia.
  - intros y Hy Hyx. rewrite Hvf; [|done..].
    apply Hout1. intros Hin. apply Hy. unfold footprint. set_solver.
Qed.

Lemma insert_absent s this m h t l k v :
  maps s !! this = Some m → inv s m h t l →
  ¬ has_key l k →
  Z.of_nat (length l) < 2 ^ 53 →
  ∃ s' m' x,
    insert this (k, v) s = Ok (mkIter (Some x) (Some this), true) s' ∧
    objs s !! x = None ∧
    maps s' = <[this := m']> (maps s) ∧
    inv s' m' h t (l ++ [(x, (k, v))]) ∧
    frame (footprint h t l) s s' ∧
    bucket_capacity m' =
      (if exceeds_load (num_elements m + 1) (bucket_capacity m)
       then bucket_capacity m * 2 else bucket_capacity m).
Proof.
  intros Hm I Hk Hlen.
  destruct (insert_new s this m h t l k v Hm I Hk Hlen)
    as (s' & m' & x & Hrun & Hx & Hmaps & I' & Hfr & Hcap).
  exists s', m', x. split_and!; try done.
  intros y Hy Hyd. apply Hfr; [done|].
  intros ->. apply elem_of_dom in Hyd as [? Hyd]. congruence.
Qed.

(** ** Construction *)

(** The common part of the constructors and of assignment: fresh buckets
    and fresh sentinels for a container whose capacity is already set. *)
Lemma init_spec s this m0 :
  maps s !! this = Some m0 →
  num_elements m0 = 0 →
  (∃ j : nat, bucket_capacity m0 = 16 * 2 ^ Z.of_nat j) →
  bucket_capacity m0 < 2 ^ 55 →
  ∃ s' m h t,
    (new_buckets_of_capacity this ;;; init_empty this) s = Ok tt s' ∧
    maps s' = <[this := m]> (maps s) ∧
    inv s' m h t [] ∧
    objs s !! h = None ∧ objs s !! t = None ∧
    (∀ y, y ≠ h → y ≠ t → objs s' !! y = objs s !! y) ∧
    bucket_capacity m = bucket_capacity m0.
Proof.
  intros Hm Hn Hpow Hcap.
  unfold new_buckets_of_capacity, init_empty.
  unfold bind, get_map, put_map, alloc, set_order_next, set_order_prev. simpl.
  rewrite Hm. simpl. rewrite !lookup_insert_eq. simpl.
  set (h := fresh (dom (objs s))).
  set (t := fresh (dom (<[h := OLink (mkLinkNode None None)]> (objs s)))).
  assert (objs s !! h = None) as Hh by apply not_elem_of_dom, is_fresh.
  assert (<[h := OLink (mkLinkNode None None)]> (objs s) !! t = None) as Ht
    by apply not_elem_of_dom, is_fresh.
  assert (h ≠ t) as Hne by (intros Heq; rewrite <- Heq, lookup_insert_eq in Ht; done).
  rewrite lookup_insert_ne in Ht by done.
  rewrite (lookup_insert_ne _ t h) by done. rewrite lookup_insert_eq. simpl.
  rewrite (lookup_insert_ne _ h t) by done. rewrite lookup_insert_eq. simpl.
  eexists _, _, h, t. split; [reflexivity|]. simpl. split.
  { unfold set_map. simpl. by rewrite !insert_insert_eq. }
  split; [|split_and!; try done].
  - constructor; simpl; try done.
    + apply NoDup_cons. split; [set_solver|]. apply NoDup_cons. split; [set_solver|].
      constructor.
    + unfold next_at, prev_at, set_obj. simpl.
      rewrite lookup_insert_eq, lookup_insert_ne, lookup_insert_eq by done. done.
    + by intros e ?%elem_of_nil.
    + by rewrite length_replicate.
    + intros i p [-> _]%lookup_replicate. exists []. split_and!; [done|constructor|].
      intros e. split; [by intros ?%elem_of_nil | by intros [?%elem_of_nil _]].
    + by intros e1 e2 ?%elem_of_nil.
    + destruct Hpow as [j Hj]. assert (0 < 2 ^ Z.of_nat j) by (apply Z.pow_pos_nonneg; lia).
      lia.
    + lia.
  - intros y Hyh Hyt. unfold set_obj. simpl. by rewrite !lookup_insert_ne.
Qed.

Lemma ctor_spec s this :
  ∃ s' m h t,
    ctor this s = Ok tt s' ∧
    maps s' = <[this := m]> (maps s) ∧
    inv s' m h t [] ∧
    objs s !! h = None ∧ objs s !! t = None ∧
    (∀ y, y ≠ h → y ≠ t → objs s' !! y = objs s !! y) ∧
    bucket_capacity m = INIT_CAPACITY.
Proof.
  unfold ctor. unfold put_map at 1, bind at 1.
  destruct (init_spec (set_map this (mkMap [] None None INIT_CAPACITY 0) s) this
              (mkMap [] None None INIT_CAPACITY 0))
    as (s' & m & h & t & Hrun & Hmaps & I & Hh & Ht & Hfr & Hcap).
  - unfold set_map. simpl. by rewrite lookup_insert_eq.
  - done.
  - by exists 0%nat.
  - done.
  - exists s', m, h, t. split_and!; try done.
    unfold set_map in Hmaps. simpl in Hmaps. by rewrite insert_insert_eq in Hmaps.
Qed.

(** ** Iteration *)

Lemma get_link_views s x a b :
  prev_at s x = Some a → next_at s x = Some b →
  get_link (Some x) s = Ok (mkLinkNode a b) s.
Proof.
  intros (o & Ho & Ha)%prev_at_Some (o' & Ho' & Hb)%next_at_Some. simplify_eq.
  rewrite (get_link_Ok _ _ _ Ho). by destruct (link_of o).
Qed.

Lemma get_link_next s x b :
  next_at s x = Some b →
  ∃ lk, get_link (Some x) s = Ok lk s ∧ order_next lk = b.
Proof.
  intros (o & Ho & Hb)%next_at_Some. exists (link_of o).
  by rewrite (get_link_Ok _ _ _ Ho).
Qed.

Lemma get_link_prev s x a :
  prev_at s x = Some a →
  ∃ lk, get_link (Some x) s = Ok lk s ∧ order_prev lk = a.
Proof.
  intros (o & Ho & Hb)%prev_at_Some. exists (link_of o).
  by rewrite (get_link_Ok _ _ _ Ho).
Qed.

Lemma begin_Ok s this m h t l :
  maps s !! this = Some m → inv s m h t l →
  begin_ this s = Ok (mkIter (Some (hd t (l.*1))) (Some this)) s.
Proof.
  intros Hm I. unfold begin_. rewrite (bind_Ok _ _ _ _ _ (get_map_Ok _ _ _ Hm)).
  rewrite (inv_head _ _ _ _ _ I).
  assert (next_at s h = Some (Some (hd t (l.*1)))) as Hn.
  { pose proof (inv_order _ _ _ _ _ I) as Hd. destruct (l.*1); simpl in *; tauto. }
  destruct (get_link_next _ _ _ Hn) as (lk & Hlk & <-).
  by rewrite (bind_Ok _ _ _ _ _ Hlk).
Qed.

Lemma data_ref_Ok s x d : data_at s x = Some d → data_ref (Some x) s = Ok x s.
Proof.
  intros (n & Hn & _)%data_at_Some. apply node_at_Some in Hn.
  unfold data_ref. by rewrite (bind_Ok _ _ _ _ _ (get_node_Ok _ _ _ Hn)).
Qed.

Lemma read_data_Ok s x d : data_at s x = Some d → read_data x s = Ok d s.
Proof.
  intros (n & Hn & <-)%data_at_Some. apply node_at_Some in Hn.
  unfold read_data. by rewrite (bind_Ok _ _ _ _ _ (get_node_Ok _ _ _ Hn)).
Qed.

(** [*it] on an entry of the container is a reference to that entry. *)
Lemma operator_star_Ok s this m h t l e :
  maps s !! this = Some m → inv s m h t l → e ∈ l →
  operator_star (mkIter (Some e.1) (Some this)) s = Ok e.1 s.
Proof.
  intros Hm I He. unfold operator_star. simpl.
  rewrite (bind_Ok _ _ _ _ _ (get_map_Ok _ _ _ Hm)).
  rewrite (inv_head _ _ _ _ _ I), (inv_tail _ _ _ _ _ I).
  pose proof (inv_nodup _ _ _ _ _ I) as Hnd.
  apply NoDup_cons in Hnd as [Hh [Ht _]%NoDup_cons].
  apply (list_elem_of_fmap_2 fst) in He as He'.
  rewrite !bool_decide_eq_false_2 by (intros [=]; set_solver). simpl.
  eapply data_ref_Ok, (inv_data _ _ _ _ _ I), He.
Qed.

Lemma operator_inc_Ok s this m x nxt :
  maps s !! this = Some m → order_tail m ≠ Some x →
  next_at s x = Some nxt →
  operator_inc (mkIter (Some x) (Some this)) s = Ok (mkIter nxt (Some this)) s.
Proof.
  intros Hm Ht Hn. unfold operator_inc. simpl.
  rewrite (bind_Ok _ _ _ _ _ (get_map_Ok _ _ _ Hm)).
  rewrite bool_decide_eq_false_2 by done.
  destruct (get_link_next _ _ _ Hn) as (lk & Hlk & <-).
  by rewrite (bind_Ok _ _ _ _ _ Hlk).
Qed.

Lemma inv_fwd s m h t l :
  inv s m h t l → fwd s (hd t (l.*1)) (l.*1) t.
Proof.
  intros I. destruct (dseg_fwd _ _ _ _ (inv_order _ _ _ _ _ I)) as (c & Hc & Hf).
  destruct (l.*1); simpl in *; [done|]. destruct Hf as [-> ?]. eauto.
Qed.

Lemma traverse_loop_spec s this m h t l :
  maps s !! this = Some m → inv s m h t l →
  ∀ l2 cur fuel,
    (∀ e, e ∈ l2 → e ∈ l) →
    fwd s cur (l2.*1) t →
    (length l2 < fuel)%nat →
    traverse_loop fuel this (mkIter (Some cur) (Some this)) s = Ok (l2.*2) s.
Proof.
  intros Hm I. induction l2 as [|e l2 IH]; intros cur fuel Hsub Hfwd Hfuel.
  - simpl in Hfwd. subst cur. destruct fuel; [simpl in Hfuel; lia|]. simpl.
    rewrite (bind_Ok _ _ _ _ _ (end_Ok _ _ _ _ _ _ Hm I)).
    unfold iterator_eq. simpl. by rewrite !bool_decide_eq_true_2.
  - destruct Hfwd as (-> & nxt & Hnxt & Hfwd).
    destruct fuel; [simpl in Hfuel; lia|]. simpl in Hfuel. simpl.
    assert (e ∈ l) as He by (apply Hsub; left).
    rewrite (bind_Ok _ _ _ _ _ (end_Ok _ _ _ _ _ _ Hm I)).
    unfold iterator_eq. simpl.
    rewrite (bool_decide_eq_false_2 (Some e.1 = Some t))
      by (intros [=]; by eapply inv_entry_ne_tail).
    simpl.
    rewrite (bind_Ok _ _ _ _ _ (operator_star_Ok _ _ _ _ _ _ _ Hm I He)).
    rewrite (bind_Ok _ _ _ _ _ (read_data_Ok _ _ _ (inv_data _ _ _ _ _ I e He))).
    rewrite (bind_Ok _ _ _ _ _ (operator_inc_Ok s this m e.1 (Some nxt) Hm
               ltac:(rewrite (inv_tail _ _ _ _ _ I); intros [=];
                     by eapply inv_entry_ne_tail) Hnxt)).
    rewrite (bind_Ok _ _ _ _ _ (IH nxt fuel ltac:(intros; apply Hsub; by right) Hfwd
               ltac:(lia))).
    done.
Qed.

(** Iterating from [begin()] to [end()] visits the entries in list order. *)
Lemma traverse_spec s this m h t l :
  maps s !! this = Some m → inv s m h t l →
  traverse this s = Ok (l.*2) s.
Proof.
  intros Hm I. unfold traverse.
  rewrite (bind_Ok _ _ _ _ _ (begin_Ok _ _ _ _ _ _ Hm I)).
  unfold get_fuel at 1, bind at 1.
  eapply traverse_loop_spec; [done|done|done| |].
  - by eapply inv_fwd.
  - by eapply inv_fuel.
Qed.

(** ** Writes, described by the views *)

Lemma set_order_next_spec s x q :
  is_Some (objs s !! x) →
  ∃ s', set_order_next (Some x) q s = Ok tt s' ∧
    maps s' = maps s ∧
    (∀ y, next_at s' y = if decide (y = x) then Some q else next_at s y) ∧
    (∀ y, prev_at s' y = prev_at s y) ∧
    (∀ y, data_at s' y = data_at s y) ∧
    (∀ y, bnext_at s' y = bnext_at s y) ∧
    (∀ y, y ≠ x → objs s' !! y = objs s !! y).
Proof.
  intros [o Ho]. unfold set_order_next. rewrite Ho.
  eexists. split; [done|]. split_and!; try done.
  - intros y. rewrite next_at_set_obj, link_of_with_link. simpl.
    repeat case_decide; congruence.
  - intros y. rewrite prev_at_set_obj, link_of_with_link. simpl.
    case_decide; [subst|done]. unfold prev_at. by rewrite Ho.
  - intros y. by apply data_at_set_link.
  - intros y. by apply bnext_at_set_link.
  - intros y Hy. unfold set_obj. simpl. by rewrite lookup_insert_ne.
Qed.

Lemma set_order_prev_spec s x q :
  is_Some (objs s !! x) →
  ∃ s', set_order_prev (Some x) q s = Ok tt s' ∧
    maps s' = maps s ∧
    (∀ y, next_at s' y = next_at s y) ∧
    (∀ y, prev_at s' y = if decide (y = x) then Some q else prev_at s y) ∧
    (∀ y, data_at s' y = data_at s y) ∧
    (∀ y, bnext_at s' y = bnext_at s y) ∧
    (∀ y, y ≠ x → objs s' !! y = objs s !! y).
Proof.
  intros [o Ho]. unfold set_order_prev. rewrite Ho.
  eexists. split; [done|]. split_and!; try done.
  - intros y. rewrite next_at_set_obj, link_of_with_link. simpl.
    case_decide; [subst|done]. unfold next_at. by rewrite Ho.
  - intros y. rewrite prev_at_set_obj, link_of_with_link. simpl.
    repeat case_decide; congruence.
  - intros y. by apply data_at_set_link.
  - intros y. by apply bnext_at_set_link.
  - intros y Hy. unfold set_obj. simpl. by rewrite lookup_insert_ne.
Qed.

Lemma set_next_in_bucket_spec s x q :
  is_Some (data_at s x) →
  ∃ s', set_next_in_bucket (Some x) q s = Ok tt s' ∧
    maps s' = maps s ∧
    (∀ y, next_at s' y = next_at s y) ∧
    (∀ y, prev_at s' y = prev_at s y) ∧
    (∀ y, data_at s' y = data_at s y) ∧
    (∀ y, bnext_at s' y = if decide (y = x) then Some q else bnext_at s y) ∧
    (∀ y, y ≠ x → objs s' !! y = objs s !! y).
Proof.
  intros [d (n & Hn & _)%data_at_Some]. apply node_at_Some in Hn.
  unfold set_next_in_bucket. rewrite Hn.
  eexists. split; [done|]. split_and!; try done.
  - intros y. by apply next_at_set_bnext.
  - intros y. by apply prev_at_set_bnext.
  - intros y. by apply data_at_set_bnext.
  - intros y. case_decide.
    + subst. by rewrite bnext_at_set_obj_node.
    + by rewrite bnext_at_set_obj_ne.
  - intros y Hy. unfold set_obj. simpl. by rewrite lookup_insert_ne.
Qed.

Lemma free_spec s x :
  is_Some (objs s !! x) →
  ∃ s', free (Some x) s = Ok tt s' ∧
    maps s' = maps s ∧
    objs s' !! x = None ∧
    (∀ y, y ≠ x → objs s' !! y = objs s !! y).
Proof.
  intros [o Ho]. unfold free. rewrite Ho.
  eexists. split; [done|]. simpl. split_and!; [done| |].
  - by rewrite lookup_delete_eq.
  - intros y Hy. by rewrite lookup_delete_ne.
Qed.

(** ** [erase] *)

Lemma chain_pred_elem prev c1 :
  (c1 = [] ∧ chain_pred prev c1 = prev) ∨
  (∃ a, a ∈ c1 ∧ chain_pred prev c1 = Some a.1).
Proof.
  revert prev. induction c1 as [|a c1 IH]; intros prev; simpl; [by left|].
  right. destruct (IH (Some a.1)) as [[-> ->]|(a' & Ha' & ->)].
  - exists a. split; [left|done].
  - exists a'. split; [by right|done].
Qed.

Lemma erase_scan_spec s x e c2 :
  e.1 = x →
  ∀ c1 p prev fuel,
    chain s p (c1 ++ e :: c2) → x ∉ c1.*1 → (length c1 < fuel)%nat →
    erase_scan fuel (Some x) prev p s = Ok (chain_pred prev c1) s.
Proof.
  intros Hx. induction c1 as [|a c1 IH]; intros p prev fuel Hc Hnin Hf.
  - destruct fuel; [simpl in Hf; lia|]. simpl in *. destruct Hc as (-> & _).
    rewrite Hx. by rewrite bool_decide_eq_true_2.
  - destruct fuel; [simpl in Hf; lia|]. simpl in Hf, Hc. simpl.
    destruct Hc as (-> & Hd & nb & Hnb & Hc).
    rewrite fmap_cons in Hnin. apply not_elem_of_cons in Hnin as [Hne Hnin].
    rewrite bool_decide_eq_false_2 by congruence.
    apply bnext_at_Some in Hnb as (n & Hn & Hnb). apply node_at_Some in Hn.
    rewrite (bind_Ok _ _ _ _ _ (get_node_Ok _ _ _ Hn)). rewrite Hnb.
    apply IH; [done|done|lia].
Qed.

(** Taking [e] off a chain: the entry before it, or else the bucket head,
    takes over its successor. *)
Lemma chain_unlink s s' e c2 nb :
  bnext_at s e.1 = Some nb →
  ∀ c1 p prev,
    chain s p (c1 ++ e :: c2) →
    NoDup ((c1 ++ e :: c2).*1) →
    (∀ z, z ∈ (c1 ++ c2).*1 → Some z ≠ prev) →
    (∀ z, z ∈ (c1 ++ c2).*1 → data_at s' z = data_at s z) →
    (∀ z, z ∈ (c1 ++ c2).*1 → Some z ≠ chain_pred prev c1 → bnext_at s' z = bnext_at s z) →
    (∀ y, c1 ≠ [] → chain_pred prev c1 = Some y → bnext_at s' y = Some nb) →
    chain s' (match c1 with [] => nb | _ => p end) (c1 ++ c2).
Proof.
  intros Hnb. induction c1 as [|a c1 IH]; intros p prev Hc Hnd Hprev Hdat Hbn Hlast.
  - simpl in *. destruct Hc as (-> & _ & nb' & Hnb' & Hc). simplify_eq.
    eapply chain_frame; [|done]. intros z Hz. split; [by apply Hdat|].
    apply Hbn; [done|]. by apply Hprev.
  - simpl in Hc. destruct Hc as (-> & Hd & nba & Hnba & Hc).
    rewrite <- app_comm_cons, fmap_cons in Hnd. apply NoDup_cons in Hnd as [Ha Hnd].
    assert (∀ z, z ∈ (c1 ++ c2).*1 → z ≠ a.1) as Hza.
    { intros z Hz ->. apply Ha. rewrite fmap_app in *. rewrite fmap_cons.
      apply elem_of_app in Hz as [Hz|Hz]; apply elem_of_app; [by left|right; by right]. }
    assert (∀ z, z ∈ (c1 ++ c2).*1 → z ∈ ((a :: c1) ++ c2).*1) as Hin.
    { intros z Hz. rewrite <- app_comm_cons, fmap_cons. by right. }
    assert (a.1 ∈ ((a :: c1) ++ c2).*1) as Hain.
    { rewrite <- app_comm_cons, fmap_cons. left. }
    simpl. split; [done|]. split.
    { by rewrite Hdat. }
    destruct c1 as [|a' c1].
    + exists nb. split.
      * apply Hlast; done.
      * simpl in Hc. destruct Hc as (-> & _ & nb' & Hnb' & Hc). simplify_eq.
        eapply chain_frame; [|done]. intros z Hz. split.
        -- apply Hdat. by apply Hin.
        -- apply Hbn; [by apply Hin|]. simpl. intros [=]. by eapply Hza.
    + exists nba. split.
      * rewrite Hbn; [done|done|].
        destruct (chain_pred_elem (Some a.1) (a' :: c1)) as [[? _]|(b & Hb & Heq)]; [done|].
        simpl in Heq. simpl. rewrite Heq. intros [=]. apply (Hza b.1); [|done].
        rewrite fmap_app. apply elem_of_app. left. by apply list_elem_of_fmap_2.
      * apply (IH nba (Some a.1)); try done.
        -- intros z Hz [=]. by eapply Hza.
        -- intros z Hz. apply Hdat. by apply Hin.
        -- intros z Hz Hne. apply Hbn; [by apply Hin|done].
        -- intros y _ Hy. by apply Hlast.
Qed.

Lemma dseg_first s p xs q :
  dseg s p xs q →
  next_at s p = Some (Some (hd q xs)) ∧ prev_at s (hd q xs) = Some (Some p).
Proof. destruct xs; simpl; tauto. Qed.

Lemma elem_of_middle_ne {A} (l1 l2 : list A) (e e' : A) :
  e ∉ (l1 ++ l2) → (e' ∈ (l1 ++ l2) ↔ e' ∈ (l1 ++ e :: l2) ∧ e' ≠ e).
Proof. rewrite !elem_of_app, elem_of_cons. naive_solver. Qed.

Lemma NoDup_fst_middle (l1 l2 : list (addr * (Key * T))) e :
  NoDup ((l1 ++ e :: l2).*1) →
  NoDup ((l1 ++ l2).*1) ∧ (e.1 ∉ ((l1 ++ l2).*1)) ∧ (e ∉ (l1 ++ l2)).
Proof.
  rewrite !fmap_app, fmap_cons. rewrite <- Permutation_middle.
  intros [Hx Hnd]%NoDup_cons. split_and!; [done..|].
  intros He. apply Hx. rewrite <- fmap_app. by apply list_elem_of_fmap_2.
Qed.

(** The chain part of [erase] (lines 412-413). *)
Lemma erase_unchain s this m h t l1 e l2 c1 c2 p nb :
  maps s !! this = Some m → inv s m h t (l1 ++ e :: l2) →
  buckets m !! bucket_of (bucket_capacity m) e.2.1 = Some p →
  chain s p (c1 ++ e :: c2) → NoDup ((c1 ++ e :: c2).*1) →
  (∀ e', e' ∈ c1 ++ e :: c2 ↔
         e' ∈ l1 ++ e :: l2 ∧
         bucket_of (bucket_capacity m) e'.2.1 = bucket_of (bucket_capacity m) e.2.1) →
  bnext_at s e.1 = Some nb →
  ∃ s1 m1,
    (match chain_pred None c1 with
     | Some _ => set_next_in_bucket (chain_pred None c1) nb
     | None =>
         let* m0 := get_map (Some this) in
         let* buckets' := bucket_set (buckets m0) (hasher e.2.1 mod bucket_capacity m) nb in
         put_map this (mkMap buckets' (order_head m0) (order_tail m0) (bucket_capacity m0)
                             (num_elements m0))
     end) s = Ok tt s1 ∧
    maps s1 = <[this := m1]> (maps s) ∧
    order_head m1 = order_head m ∧ order_tail m1 = order_tail m ∧
    bucket_capacity m1 = bucket_capacity m ∧ num_elements m1 = num_elements m ∧
    length (buckets m1) = length (buckets m) ∧
    (∀ y, next_at s1 y = next_at s y) ∧
    (∀ y, prev_at s1 y = prev_at s y) ∧
    (∀ y, data_at s1 y = data_at s y) ∧
    (∀ y, y ∉ (l1 ++ l2).*1 → objs s1 !! y = objs s !! y) ∧
    (∀ y, is_Some (objs s1 !! y) ↔ is_Some (objs s !! y)) ∧
    chains_ok s1 (buckets m1) (bucket_capacity m) (l1 ++ l2).
Proof.
  intros Hm I Hp Hc Hcnd Hmem Hnb.
  pose proof (inv_nodup _ _ _ _ _ I) as Hnd.
  apply NoDup_cons in Hnd as [_ [_ Hnd]%NoDup_cons].
  destruct (NoDup_fst_middle _ _ _ Hnd) as (Hnd' & Hx & He).
  destruct (NoDup_fst_middle _ _ _ Hcnd) as (Hcnd' & Hcx & Hce).
  assert (∀ e', e' ∈ c1 ++ c2 → e' ∈ l1 ++ l2) as Hsub.
  { intros e' He'. apply (elem_of_middle_ne _ _ e). { done. }
    apply (elem_of_middle_ne _ _ e) in He' as [He' ?]; [|done].
    split; [|done]. by apply Hmem. }
  assert (∀ i q c, i ≠ bucket_of (bucket_capacity m) e.2.1 → chain s q c →
            (∀ e', e' ∈ c ↔ e' ∈ l1 ++ e :: l2 ∧ bucket_of (bucket_capacity m) e'.2.1 = i) →
            (∀ e', e' ∈ c ↔ e' ∈ l1 ++ l2 ∧ bucket_of (bucket_capacity m) e'.2.1 = i) ∧
            (∀ z, z ∈ c.*1 → z ∉ (c1 ++ e :: c2).*1)) as Hother.
  { intros i q c Hi Hch Hm'. split.
    - intros e'. rewrite Hm', (elem_of_middle_ne l1 l2 e e') by done. naive_solver.
    - intros z (e1 & -> & He1)%list_elem_of_fmap (e2 & Heq & He2)%list_elem_of_fmap.
      apply Hm' in He1 as [He1 Hb1]. apply Hmem in He2 as [He2 Hb2].
      assert (e1 = e2) as ->; [|congruence].
      destruct e1 as [a1 d1], e2 as [a2 d2]. simpl in Heq. subst a2. f_equal.
      pose proof (inv_data _ _ _ _ _ I _ He1) as Hd1.
      pose proof (inv_data _ _ _ _ _ I _ He2) as Hd2. simpl in *. congruence. }
  destruct (chain_pred_elem None c1) as [[-> Hpr]|(a & Ha & Hpr)].
  - simpl. rewrite (bind_Ok _ _ _ _ _ (get_map_Ok _ _ _ Hm)).
    unfold bucket_set at 1, bind at 1. fold (bucket_of (bucket_capacity m) e.2.1).
    rewrite Hp. unfold put_map.
    eexists _, _. split; [reflexivity|]. simpl. split_and!; try done.
    + simpl. by rewrite length_insert.
    + simpl. intros i q Hq.
      destruct (decide (i = bucket_of (bucket_capacity m) e.2.1)) as [->|Hi].
      * rewrite list_lookup_insert_eq in Hq by (by eapply lookup_lt_Some).
        injection Hq as <-.
        exists c2. split_and!; [|done|].
        -- eapply (chain_frame s); [done|].
           apply (chain_unlink s s e c2 nb Hnb [] p None Hc Hcnd);
             [by intros z _ [=] | done | done | by intros y Hy].
        -- intros e'. rewrite (elem_of_middle_ne [] c2 e e') by done.
           rewrite (elem_of_middle_ne l1 l2 e e') by done. simpl. rewrite (Hmem e').
           naive_solver.
      * rewrite list_lookup_insert_ne in Hq by done.
        destruct (inv_chains _ _ _ _ _ I _ _ Hq) as (c & Hch & Hcn & Hcm).
        exists c. split_and!; [|done|].
        -- by eapply (chain_frame s).
        -- by apply (Hother i q c).
  - assert (a ∈ c1 ++ c2) as Hac by (apply elem_of_app; by left).
    assert (is_Some (data_at s a.1)) as Hda.
    { rewrite (inv_data _ _ _ _ _ I a); [done|].
      apply (elem_of_middle_ne l1 l2 e). { done. } by apply Hsub. }
    rewrite Hpr.
    destruct (set_next_in_bucket_spec s a.1 nb Hda)
      as (s1 & Hrun & Hmaps & Hvn & Hvp & Hvd & Hvb & Hvo).
    exists s1, m. split; [done|]. split_and!; try done.
    + by rewrite Hmaps, insert_id.
    + intros y Hy. apply Hvo. intros ->. apply Hy. by apply list_elem_of_fmap_2, Hsub.
    + intros y. destruct (decide (y = a.1)) as [->|Hy]; [|by rewrite Hvo].
      split; intros _.
      * destruct Hda as [? (n & Hn & _)%data_at_Some]. eauto.
      * destruct (set_next_in_bucket_spec s a.1 nb Hda) as (s1' & Hrun' & _).
        assert (is_Some (data_at s1 a.1)) as [? (n & Hn & _)%data_at_Some]
          by (by rewrite Hvd). eauto.
    + intros i q Hq.
      destruct (decide (i = bucket_of (bucket_capacity m) e.2.1)) as [->|Hi].
      * simplify_eq. exists (c1 ++ c2). split_and!; [|done|].
        -- assert (c1 ≠ []) as Hne by (intros ->; by apply elem_of_nil in Ha).
           pose proof (chain_unlink s s1 e c2 nb Hnb c1 p None Hc Hcnd) as Hul.
           destruct c1 as [|a0 c1]; [done|]. apply Hul.
           ++ done.
           ++ intros z _. apply Hvd.
           ++ intros z _ Hz. rewrite Hvb. rewrite decide_False; [done|].
              intros ->. apply Hz. by rewrite Hpr.
           ++ intros y _ Hy. rewrite Hpr in Hy. simplify_eq. rewrite Hvb.
              by rewrite decide_True.
        -- intros e'. rewrite (elem_of_middle_ne c1 c2 e e') by done.
           rewrite (elem_of_middle_ne l1 l2 e e') by done. rewrite (Hmem e').
           naive_solver.
      * destruct (inv_chains _ _ _ _ _ I _ _ Hq) as (c & Hch & Hcn & Hcm).
        destruct (Hother i q c Hi Hch Hcm) as [Hm2 Hdisj].
        exists c. split_and!; [|done..].
        eapply (chain_frame s); [|done]. intros z Hz. split; [by apply Hvd|].
        rewrite Hvb. rewrite decide_False; [done|]. intros ->.
        apply (Hdisj _ Hz). apply list_elem_of_fmap_2.
        apply elem_of_app. by left.
Qed.

Lemma inv_split_order s m h t l1 e l2 :
  inv s m h t (l1 ++ e :: l2) →
  let a := last_of h (l1.*1) in
  let b := hd t (l2.*1) in
  dseg s h (l1.*1) e.1 ∧ dseg s e.1 (l2.*1) t ∧
  next_at s a = Some (Some e.1) ∧ prev_at s e.1 = Some (Some a) ∧
  next_at s e.1 = Some (Some b) ∧ prev_at s b = Some (Some e.1) ∧
  a ∈ h :: l1.*1 ∧ b ∈ l2.*1 ++ [t] ∧
  NoDup (h :: l1.*1) ∧ NoDup (l2.*1 ++ [t]) ∧
  (∀ z, z ∈ h :: l1.*1 → z ∉ l2.*1 ++ [t]) ∧
  (e.1 ∉ h :: l1.*1) ∧ (e.1 ∉ l2.*1 ++ [t]).
Proof.
  intros I a b. pose proof (inv_order _ _ _ _ _ I) as Hd.
  rewrite fmap_app, fmap_cons in Hd. apply dseg_app in Hd as [Hd1 Hd2].
  destruct (dseg_last _ _ _ _ Hd1) as [? ?]. destruct (dseg_first _ _ _ _ Hd2) as [? ?].
  pose proof (inv_nodup _ _ _ _ _ I) as Hnd.
  rewrite fmap_app, fmap_cons in Hnd.
  assert ((h :: l1.*1) ++ e.1 :: (l2.*1 ++ [t]) ≡ₚ h :: t :: l1.*1 ++ e.1 :: l2.*1) as Hperm.
  { simpl. constructor. rewrite (Permutation_app_comm (l2.*1) [t]). simpl.
    symmetry. etrans; [apply Permutation_middle|].
    apply Permutation_app_head. apply perm_swap. }
  rewrite <- Hperm in Hnd. apply NoDup_app in Hnd as (Hn1 & Hn2 & Hn3).
  apply NoDup_cons in Hn3 as [Hn3 Hn4].
  split_and!; try done.
  - apply last_of_elem.
  - unfold b. destruct (l2.*1); simpl; [left|left].
  - intros z Hz Hin. apply (Hn2 _ Hz). by right.
  - intros Hin. apply (Hn2 _ Hin). left.
Qed.

(** Erasing an entry of the container. *)
Lemma erase_spec s this m h t l1 e l2 :
  maps s !! this = Some m → inv s m h t (l1 ++ e :: l2) →
  ∃ s' m',
    erase this (mkIter (Some e.1) (Some this)) s = Ok tt s' ∧
    maps s' = <[this := m']> (maps s) ∧
    inv s' m' h t (l1 ++ l2) ∧
    objs s' !! e.1 = None ∧
    frame (footprint h t (l1 ++ e :: l2)) s s' ∧
    (∀ y, is_Some (objs s' !! y) → is_Some (objs s !! y)) ∧
    num_elements m' = num_elements m - 1 ∧
    bucket_capacity m' = bucket_capacity m.
Proof.
  intros Hm I.
  assert (e ∈ l1 ++ e :: l2) as He by (apply elem_of_app; right; left).
  pose proof (inv_nodup _ _ _ _ _ I) as Hnd.
  pose proof (capacity_pos _ _ _ _ _ I) as Hpos.
  apply NoDup_cons in Hnd as [Hh [Ht Hnd]%NoDup_cons].
  apply (list_elem_of_fmap_2 fst) in He as Hex.
  assert (e.1 ≠ t) as Hxt by (intros Heq; by rewrite Heq in Hex).
  assert (e.1 ≠ h) as Hxh by (intros Heq; rewrite Heq in Hex; apply Hh; by right).
  unfold erase. simpl.
  rewrite !bool_decide_eq_true_2 by done. simpl.
  rewrite (bind_Ok _ _ _ _ _ (get_map_Ok _ _ _ Hm)).
  rewrite (inv_head _ _ _ _ _ I), (inv_tail _ _ _ _ _ I).
  rewrite !bool_decide_eq_false_2 by congruence. simpl.
  pose proof (inv_data _ _ _ _ _ I e He) as Hd.
  apply data_at_Some in Hd as (n & Hn & Hd). apply node_at_Some in Hn.
  rewrite (bind_Ok _ _ _ _ _ (get_node_Ok _ _ _ Hn)). rewrite Hd.
  rewrite (bind_Ok _ _ _ _ _ (get_bucket_index_Ok _ _ _ _ _ _ e.2.1 Hm I)).
  rewrite (bind_Ok _ _ _ _ _ (get_map_Ok _ _ _ Hm)).
  destruct (bucket_lookup _ _ _ _ _ e.2.1 I) as [p Hp].
  unfold bucket_get at 1, bind at 1. fold (bucket_of (bucket_capacity m) e.2.1). rewrite Hp.
  unfold get_fuel at 1, bind at 1.
  destruct (inv_chains _ _ _ _ _ I _ _ Hp) as (c & Hc & Hcnd & Hmem).
  assert (e ∈ c) as Hec by (by apply Hmem).
  apply list_elem_of_split in Hec as (c1 & c2 & ->).
  destruct (NoDup_fst_middle _ _ _ Hcnd) as (Hcnd' & Hcx & Hce).
  assert (e.1 ∉ c1.*1) as Hc1.
  { intros Hin. apply Hcx. rewrite fmap_app. apply elem_of_app. by left. }
  rewrite (bind_Ok _ _ _ _ _ (erase_scan_spec s e.1 e c2 eq_refl c1 p None (fuel_of s) Hc Hc1
             ltac:(eapply Nat.le_lt_trans; [|apply (live_length s _ Hcnd (chain_live _ _ _ Hc))];
                   rewrite length_fmap, !length_app; simpl; lia))).
  rewrite (bind_Ok _ _ _ _ _ (get_node_Ok _ _ _ Hn)).
  assert (bnext_at s e.1 = Some (next_in_bucket n)) as Hnb.
  { apply bnext_at_Some. exists n. split; [by apply node_at_Some|done]. }
  destruct (erase_unchain s this m h t l1 e l2 c1 c2 p (next_in_bucket n) Hm I Hp Hc Hcnd Hmem Hnb)
    as (s1 & m1 & Hrun1 & Hmaps1 & Hh1 & Ht1 & Hcap1 & Hnum1 & Hlen1 & Hn1 & Hp1 & Hd1
        & Ho1 & Hlive1 & Hch1).
  rewrite (bind_Ok _ _ _ _ _ Hrun1).
  destruct (inv_split_order _ _ _ _ _ _ _ I)
    as (Hseg1 & Hseg2 & Hna & Hpx & Hnx & Hpb & Ha & Hb & Hnda & Hndb & Hdisj & Hxa & Hxb).
  set (a := last_of h l1.*1) in *. set (b := hd t l2.*1) in *.
  assert (a ≠ e.1) as Hae by (intros Heq; apply Hxa; by rewrite <- Heq).
  assert (b ≠ e.1) as Hbe by (intros Heq; apply Hxb; by rewrite <- Heq).
  assert (a ≠ b) as Hab by (intros Heq; apply (Hdisj _ Ha); by rewrite Heq).
  assert (get_link (Some e.1) s1 = Ok (mkLinkNode (Some a) (Some b)) s1) as Hlk1.
  { apply get_link_views; by rewrite ?Hn1, ?Hp1. }
  rewrite (bind_Ok _ _ _ _ _ Hlk1). simpl.
  destruct (set_order_next_spec s1 a (Some b)) as (s2 & Hrun2 & Hmaps2 & Hn2 & Hp2 & Hd2 & Hb2 & Ho2).
  { apply Hlive1. apply next_at_Some in Hna as (? & ? & _). eauto. }
  rewrite (bind_Ok _ _ _ _ _ Hrun2).
  assert (get_link (Some e.1) s2 = Ok (mkLinkNode (Some a) (Some b)) s2) as Hlk2.
  { apply get_link_views; rewrite ?Hn2, ?Hp2, ?Hn1, ?Hp1; [done|].
    by rewrite decide_False. }
  rewrite (bind_Ok _ _ _ _ _ Hlk2). simpl.
  destruct (set_order_prev_spec s2 b (Some a)) as (s3 & Hrun3 & Hmaps3 & Hn3 & Hp3 & Hd3 & Hb3 & Ho3).
  { rewrite Ho2 by done. apply Hlive1. apply prev_at_Some in Hpb as (? & ? & _). eauto. }
  rewrite (bind_Ok _ _ _ _ _ Hrun3).
  destruct (free_spec s3 e.1) as (s4 & Hrun4 & Hmaps4 & Hx4 & Ho4).
  { rewrite Ho3, Ho2 by done. apply Hlive1. apply node_at_Some in Hn. eauto. }
  rewrite (bind_Ok _ _ _ _ _ Hrun4).
  assert (maps s4 !! this = Some m1) as Hm4.
  { by rewrite Hmaps4, Hmaps3, Hmaps2, Hmaps1, lookup_insert_eq. }
  rewrite (bind_Ok _ _ _ _ _ (get_map_Ok _ _ _ Hm4)).
  unfold put_map.
  match goal with |- ∃ _ _, Ok _ ?st = _ ∧ _ => set (sf := st) end.
  assert (∀ y, objs sf !! y = objs s4 !! y) as Hsf by done.
  assert (∀ y, y ≠ e.1 → next_at sf y =
            if decide (y = a) then Some (Some b) else next_at s y) as Hfn.
  { intros y Hy. destruct (views_of_objs s3 sf y) as (-> & _); [by rewrite Hsf, Ho4|].
    by rewrite Hn3, Hn2, Hn1. }
  assert (∀ y, y ≠ e.1 → prev_at sf y =
            if decide (y = b) then Some (Some a) else prev_at s y) as Hfp.
  { intros y Hy. destruct (views_of_objs s3 sf y) as (_ & -> & _); [by rewrite Hsf, Ho4|].
    by rewrite Hp3, Hp2, Hp1. }
  assert (∀ y, y ≠ e.1 → data_at sf y = data_at s y) as Hfd.
  { intros y Hy. destruct (views_of_objs s3 sf y) as (_ & _ & -> & _); [by rewrite Hsf, Ho4|].
    by rewrite Hd3, Hd2, Hd1. }
  assert (∀ y, y ≠ e.1 → bnext_at sf y = bnext_at s1 y) as Hfb.
  { intros y Hy. destruct (views_of_objs s3 sf y) as (_ & _ & _ & ->); [by rewrite Hsf, Ho4|].
    by rewrite Hb3, Hb2. }
  destruct (NoDup_fst_middle _ _ _ Hnd) as (Hnd' & Hx' & He').
  assert (∀ e', e' ∈ l1 ++ l2 → e'.1 ≠ e.1) as Hne.
  { intros e' Hin Heq. apply Hx'. rewrite <- Heq. by apply list_elem_of_fmap_2. }
  assert (∀ e', e' ∈ l1 ++ l2 → e' ∈ l1 ++ e :: l2) as Hsub.
  { intros e' Hin. by apply (elem_of_middle_ne l1 l2 e e') in Hin as [? _]. }
  pose proof (inv_size _ _ _ _ _ I) as Hsz. rewrite length_app in Hsz. simpl in Hsz.
  pose proof (inv_load _ _ _ _ _ I) as Hload.
  pose proof (inv_cap _ _ _ _ _ I) as Hcapb.
  pose proof (inv_small _ _ _ _ _ I) as Hsmall.
  exists sf, (mkMap (buckets m1) (order_head m1) (order_tail m1) (bucket_capacity m1)
                (size_t (num_elements m1 - 1))).
  split; [done|]. split.
  { unfold sf, set_map. simpl. by rewrite Hmaps4, Hmaps3, Hmaps2, Hmaps1, insert_insert_eq. }
  split; [|split_and!].
  - constructor; simpl.
    + by rewrite Hh1, (inv_head _ _ _ _ _ I).
    + by rewrite Ht1, (inv_tail _ _ _ _ _ I).
    + apply NoDup_cons. split.
      { intros [->|Hin]%elem_of_cons; [apply Hh; left|].
        apply Hh. right. rewrite fmap_app in *. rewrite fmap_cons.
        apply elem_of_app in Hin as [?|?]; apply elem_of_app; [by left|right; by right]. }
      apply NoDup_cons. split; [|done].
      intros Hin. apply Ht. rewrite fmap_app in *. rewrite fmap_cons.
      apply elem_of_app in Hin as [?|?]; apply elem_of_app; [by left|right; by right].
    + rewrite fmap_app.
      assert (dseg sf h (l1.*1) b) as Hs1.
      { apply (dseg_retarget s sf h (l1.*1) e.1 b); try done.
        - intros z Hz Hza. rewrite Hfn.
          + by rewrite decide_False.
          + intros ->. by apply Hxa.
        - intros z Hz. rewrite Hfp.
          + rewrite decide_False; [done|]. intros ->. apply (Hdisj b); [by right|done].
          + intros ->. apply Hxa. by right.
        - fold a. rewrite Hfn by done. by rewrite decide_True.
        - fold a. rewrite Hfp by done. by rewrite decide_True. }
      destruct l2 as [|e2 l2'].
      * rewrite fmap_nil, app_nil_r. exact Hs1.
      * rewrite fmap_cons in *. apply dseg_app. split; [exact Hs1|].
        destruct Hseg2 as (_ & _ & Hseg2).
        rewrite <- app_comm_cons in Hndb. apply NoDup_cons in Hndb as [Hb0 Hndb].
        eapply dseg_frame; [| |done].
        -- intros z Hz. rewrite Hfn.
           ++ rewrite decide_False; [done|]. intros ->. apply (Hdisj _ Ha).
              apply (proj2 (elem_of_app (e2.1 :: l2'.*1) [t] _)). by left.
           ++ intros ->. apply Hxb.
              apply (proj2 (elem_of_app (e2.1 :: l2'.*1) [t] _)). by left.
        -- intros z Hz. rewrite Hfp.
           ++ rewrite decide_False; [done|]. by intros ->.
           ++ intros ->. apply Hxb. by right.
    + intros e' Hin. rewrite Hfd by (by apply Hne). apply (inv_data _ _ _ _ _ I). by apply Hsub.
    + rewrite Hcap1. apply (inv_pow _ _ _ _ _ I).
    + by rewrite Hcap1.
    + rewrite Hlen1, Hcap1. apply (inv_len _ _ _ _ _ I).
    + rewrite Hcap1. eapply chains_ok_frame; [|done].
      intros e' Hin. rewrite Hfb by (by apply Hne).
      destruct (views_of_objs s3 sf e'.1) as (_ & _ & -> & _).
      { rewrite Hsf, Ho4; [done|]. by apply Hne. }
      by rewrite Hd3, Hd2.
    + intros e1 e2 H1 H2. apply (inv_keys _ _ _ _ _ I); by apply Hsub.
    + rewrite length_app, Hnum1, size_t_small by lia. lia.
    + rewrite Hnum1, Hcap1, size_t_small by lia. lia.
    + rewrite Hnum1, size_t_small by lia. lia.
  - by rewrite Hsf.
  - intros y Hy Hlive. rewrite Hsf, Ho4, Ho3, Ho2, Ho1; try done.
    + intros Hin. apply Hy. unfold footprint. do 2 right.
      rewrite fmap_app in *. rewrite fmap_cons.
      apply elem_of_app in Hin as [?|?]; apply elem_of_app; [by left|right; by right].
    + intros Heq. apply Hy. unfold footprint. rewrite Heq.
      rewrite fmap_app, fmap_cons. apply elem_of_cons in Ha as [->|Ha]; [left|].
      do 2 right. apply elem_of_app. by left.
    + intros Heq. apply Hy. unfold footprint. rewrite Heq, fmap_app, fmap_cons.
      apply elem_of_app in Hb as [Hb|Hb%list_elem_of_singleton]; [|rewrite Hb; right; left].
      do 2 right. apply elem_of_app. right. by right.
    + intros ->. apply Hy. unfold footprint. by do 2 right.
  - intros y. rewrite Hsf. destruct (decide (y = e.1)) as [->|Hy1].
    { rewrite Hx4. by intros [? ?]. }
    rewrite Ho4 by done. intros Hlive.
    destruct (decide (y = b)) as [->|Hy2].
    { apply prev_at_Some in Hpb as (? & ? & _). eauto. }
    rewrite Ho3 in Hlive by done.
    destruct (decide (y = a)) as [->|Hy3].
    { apply next_at_Some in Hna as (? & ? & _). eauto. }
    rewrite Ho2 in Hlive by done. by apply Hlive1.
  - simpl. rewrite Hnum1, size_t_small by lia. done.
  - done.
Qed.

(** ** Framing: the invariant reads the footprint only *)


(** ** [clear] *)

Lemma clear_loop_spec t :
  ∀ l2 s cur fuel,
    fwd s cur l2 t → NoDup (t :: l2) → (length l2 < fuel)%nat →
    ∃ s',
      clear_loop fuel (Some t) (Some cur) s = Ok tt s' ∧
      maps s' = maps s ∧
      (∀ y, y ∈ l2 → objs s' !! y = None) ∧
      (∀ y, y ∉ l2 → objs s' !! y = objs s !! y).
Proof.
  induction l2 as [|x l2 IH]; intros s cur fuel Hfwd Hnd Hfuel.
  - simpl in Hfwd. subst cur. destruct fuel; [simpl in Hfuel; lia|]. simpl.
    rewrite bool_decide_eq_true_2 by done. exists s. split_and!; try done.
    by intros y ?%elem_of_nil.
  - destruct Hfwd as (-> & nxt & Hnxt & Hfwd).
    destruct fuel; [simpl in Hfuel; lia|]. simpl in Hfuel. simpl.
    apply NoDup_cons in Hnd as [Ht Hnd]. apply NoDup_cons in Hnd as [Hx Hnd].
    rewrite bool_decide_eq_false_2 by (intros [=]; subst; apply Ht; left).
    destruct (get_link_next _ _ _ Hnxt) as (lk & Hlk & Hlkn).
    rewrite (bind_Ok _ _ _ _ _ Hlk). rewrite Hlkn.
    destruct (free_spec s x) as (s1 & Hrun1 & Hmaps1 & Hx1 & Ho1).
    { apply next_at_Some in Hnxt as (? & ? & _). eauto. }
    rewrite (bind_Ok _ _ _ _ _ Hrun1).
    destruct (IH s1 nxt fuel) as (s' & Hrun & Hmaps & Hnone & Hsame).
    + eapply (fwd_frame s); [|done]. intros z Hz. apply views_of_objs, Ho1.
      intros ->. done.
    + apply NoDup_cons. split; [|done]. intros Hin. apply Ht. by right.
    + lia.
    + exists s'. split_and!; [done|congruence| |].
      * intros y [->|Hy]%elem_of_cons; [|by apply Hnone].
        by rewrite Hsame.
      * intros y [Hy1 Hy2]%not_elem_of_cons. rewrite Hsame by done. by apply Ho1.
Qed.

Lemma clear_spec s this m h t l :
  maps s !! this = Some m → inv s m h t l →
  ∃ s' m',
    clear this s = Ok tt s' ∧
    maps s' = <[this := m']> (maps s) ∧
    inv s' m' h t [] ∧
    (∀ e, e ∈ l → objs s' !! e.1 = None) ∧
    frame (footprint h t l) s s' ∧
    (∀ y, is_Some (objs s' !! y) → is_Some (objs s !! y)) ∧
    bucket_capacity m' = bucket_capacity m.
Proof.
  intros Hm I. pose proof (inv_nodup _ _ _ _ _ I) as Hnd.
  apply NoDup_cons in Hnd as [Hh Hnd].
  unfold clear. rewrite (bind_Ok _ _ _ _ _ (get_map_Ok _ _ _ Hm)).
  rewrite (inv_head _ _ _ _ _ I), (inv_tail _ _ _ _ _ I).
  destruct (dseg_fwd _ _ _ _ (inv_order _ _ _ _ _ I)) as (c & Hc & Hfwd).
  destruct (get_link_next _ _ _ Hc) as (lk & Hlk & Hlkn).
  rewrite (bind_Ok _ _ _ _ _ Hlk), Hlkn.
  unfold get_fuel at 1, bind at 1.
  destruct (clear_loop_spec t (l.*1) s c (fuel_of s) Hfwd Hnd)
    as (s1 & Hrun1 & Hmaps1 & Hnone1 & Hsame1).
  { rewrite length_fmap. by eapply inv_fuel. }
  rewrite (bind_Ok _ _ _ _ _ Hrun1).
  assert (maps s1 !! this = Some m) as Hm1 by (by rewrite Hmaps1).
  rewrite (bind_Ok _ _ _ _ _ (get_map_Ok _ _ _ Hm1)).
  rewrite (inv_head _ _ _ _ _ I), (inv_tail _ _ _ _ _ I).
  assert (h ∉ l.*1) as Hhl by (intros ?; apply Hh; by right).
  assert (t ∉ l.*1) as Htl by (by apply NoDup_cons in Hnd as [? _]).
  assert (h ≠ t) as Hht by (intros ->; apply Hh; left).
  destruct (set_order_next_spec s1 h (Some t)) as (s2 & Hrun2 & Hmaps2 & Hn2 & Hp2 & _ & _ & Ho2).
  { rewrite Hsame1 by done. apply (inv_live _ _ _ _ _ I). left. }
  rewrite (bind_Ok _ _ _ _ _ Hrun2).
  destruct (set_order_prev_spec s2 t (Some h)) as (s3 & Hrun3 & Hmaps3 & Hn3 & Hp3 & _ & _ & Ho3).
  { rewrite Ho2, Hsame1 by done. apply (inv_live _ _ _ _ _ I). right. left. }
  rewrite (bind_Ok _ _ _ _ _ Hrun3).
  assert (maps s3 !! this = Some m) as Hm3 by (by rewrite Hmaps3, Hmaps2).
  rewrite (bind_Ok _ _ _ _ _ (get_map_Ok _ _ _ Hm3)).
  unfold put_map at 1, bind at 1.
  unfold get_map at 1, bind at 1. simpl. rewrite lookup_insert_eq. simpl.
  unfold put_map.
  match goal with |- ∃ _ _, Ok _ ?st = _ ∧ _ => set (sf := st) end.
  assert (∀ y, objs sf !! y = objs s3 !! y) as Hsf by done.
  eexists sf, _. split; [reflexivity|]. split.
  { unfold sf, set_map. simpl. by rewrite insert_insert_eq, Hmaps3, Hmaps2, Hmaps1. }
  split; [|split_and!].
  - destruct I as [Ih It _ Iord Idata [j Ipow] Icap Ilen Ich Ikeys Isize Iload Ismall].
    constructor; simpl; try done.
    + apply NoDup_cons. split; [by intros ?%list_elem_of_singleton|].
      apply NoDup_cons. split; [by intros ?%elem_of_nil|constructor].
    + split.
      * destruct (views_of_objs s3 sf h) as (-> & _); [done|].
        rewrite Hn3, Hn2. by rewrite decide_True.
      * destruct (views_of_objs s3 sf t) as (_ & -> & _); [done|].
        rewrite Hp3. by rewrite decide_True.
    + by intros e ?%elem_of_nil.
    + by exists j.
    + by rewrite length_replicate.
    + intros i p [-> _]%lookup_replicate. exists []. split_and!; [done|constructor|].
      intros e. split; [by intros ?%elem_of_nil | by intros [?%elem_of_nil _]].
    + by intros e1 e2 ?%elem_of_nil.
    + assert (0 < 2 ^ Z.of_nat j) by (apply Z.pow_pos_nonneg; lia). lia.
  - intros e He. rewrite Hsf, Ho3, Ho2.
    + apply Hnone1. by apply list_elem_of_fmap_2.
    + intros Heq. apply Hhl. rewrite <- Heq. by apply list_elem_of_fmap_2.
    + intros Heq. apply Htl. rewrite <- Heq. by apply list_elem_of_fmap_2.
  - intros y Hy _. unfold footprint in Hy.
    rewrite Hsf, Ho3, Ho2, Hsame1; [done|..].
    + intros ?. apply Hy. by do 2 right.
    + intros ->. apply Hy. left.
    + intros ->. apply Hy. right. left.
  - intros y. rewrite Hsf. intros Hlive.
    destruct (decide (y = t)) as [->|Hyt]; [apply (inv_live _ _ _ _ _ I); right; left|].
    destruct (decide (y = h)) as [->|Hyh]; [apply (inv_live _ _ _ _ _ I); left|].
    rewrite Ho3, Ho2 in Hlive by done.
    destruct (decide (y ∈ l.*1)) as [Hin|Hnin].
    + rewrite Hnone1 in Hlive by done. by destruct Hlive.
    + by rewrite Hsame1 in Hlive.
  - done.
Qed.

(** [clear(); delete[] buckets], as assignment and the destructor begin. *)
Lemma clear_delete_spec s this m h t l :
  maps s !! this = Some m → inv s m h t l →
  ∃ s' m',
    (clear this ;;; delete_array) s = Ok tt s' ∧
    maps s' = <[this := m']> (maps s) ∧
    inv s' m' h t [] ∧
    (∀ e, e ∈ l → objs s' !! e.1 = None) ∧
    frame (footprint h t l) s s' ∧
    (∀ y, is_Some (objs s' !! y) → is_Some (objs s !! y)) ∧
    bucket_capacity m' = bucket_capacity m.
Proof.
  intros Hm I.
  destruct (clear_spec s this m h t l Hm I)
    as (s1 & m1 & Hrun1 & Hmaps1 & I1 & Hgone1 & Hfr1 & Hmono1 & Hcap1).
  rewrite (bind_Ok _ _ _ _ _ Hrun1). unfold delete_array.
  eexists _, m1. split; [reflexivity|]. simpl.
  split_and!; try done.
  by apply (inv_frame s1).
Qed.

(** ** Copying *)

Lemma bind_Ok_seq {A B C} (c1 : M A) (c2 : M B) (k : B → M C) s b s' :
  bind c1 (λ _, c2) s = Ok b s' →
  bind c1 (λ _, bind c2 k) s = k b s'.
Proof.
  unfold bind. destruct (c1 s) as [a s1| | |]; try done. by intros ->.
Qed.

Lemma frame_other s s' h t l ho to lo mo :
  inv s mo ho to lo →
  (∀ y, y ∈ footprint ho to lo → y ∉ footprint h t l) →
  frame (footprint h t l) s s' →
  inv s' mo ho to lo.
Proof.
  intros Io Hdisj Hfr. apply (inv_frame s); [done|].
  intros y Hy. apply Hfr; [by apply Hdisj|].
  apply elem_of_dom. by apply (inv_live _ _ _ _ _ Io).
Qed.

Lemma copy_loop_spec this other mo ho to lo h t :
  this ≠ other →
  ∀ l2 l1 s m l cur fuel,
    lo = l1 ++ l2 →
    maps s !! other = Some mo → inv s mo ho to lo →
    maps s !! this = Some m → inv s m h t l →
    (∀ y, y ∈ footprint ho to lo → y ∉ footprint h t l) →
    fwd s cur (l2.*1) to →
    (∀ e, e ∈ l2 → ¬ has_key l e.2.1) →
    Z.of_nat (length l + length l2) ≤ 2 ^ 53 →
    (length l2 < fuel)%nat →
    ∃ s' m' l',
      copy_loop fuel this other (mkIter (Some cur) (Some other)) s = Ok tt s' ∧
      maps s' = <[this := m']> (maps s) ∧
      inv s' m' h t (l ++ l') ∧ l'.*2 = l2.*2 ∧
      inv s' mo ho to lo ∧
      (∀ y, y ∈ footprint ho to lo → y ∉ footprint h t (l ++ l')) ∧
      frame (footprint h t l) s s' ∧
      (∀ e, e ∈ l' → objs s !! e.1 = None) ∧
      (∀ y, y ∉ footprint h t (l ++ l') → objs s' !! y = objs s !! y) ∧
      (bucket_capacity m = bucket_capacity mo → (length l ≤ length l1)%nat →
       bucket_capacity m' = bucket_capacity mo).
Proof.
  intros Hne. induction l2 as [|e l2 IH];
    intros l1 s m l cur fuel Hlo Hmo Io Hm I Hdisj Hfwd Hkeys Hlen Hfuel.
  - simpl in Hfwd. subst cur. destruct fuel; [simpl in Hfuel; lia|]. simpl.
    unfold cend. rewrite (bind_Ok _ _ _ _ _ (end_Ok _ _ _ _ _ _ Hmo Io)).
    unfold iterator_eq. simpl. rewrite !bool_decide_eq_true_2 by done. simpl.
    exists s, m, []. rewrite app_nil_r. split_and!; try done.
    + by rewrite insert_id.
    + by intros e ?%elem_of_nil.
  - destruct Hfwd as (-> & nxt & Hnxt & Hfwd).
    destruct fuel; [simpl in Hfuel; lia|]. simpl in Hfuel. simpl.
    assert (e ∈ lo) as He by (subst lo; apply elem_of_app; right; left).
    unfold cend. rewrite (bind_Ok _ _ _ _ _ (end_Ok _ _ _ _ _ _ Hmo Io)).
    unfold iterator_eq. simpl.
    rewrite (bool_decide_eq_false_2 (Some e.1 = Some to))
      by (intros [=]; by apply (inv_entry_ne_tail _ _ _ _ _ _ Io He)).
    simpl.
    rewrite (bind_Ok _ _ _ _ _ (operator_star_Ok _ _ _ _ _ _ _ Hmo Io He)).
    rewrite (bind_Ok _ _ _ _ _ (read_data_Ok _ _ _ (inv_data _ _ _ _ _ Io e He))).
    destruct e as [x [k v]]. simpl in *.
    destruct (insert_new s this m h t l k v Hm I)
      as (s1 & m1 & y & Hrun1 & Hy & Hmaps1 & I1 & Hst1 & Hcap1).
    { apply (Hkeys (x, (k, v))). left. }
    { rewrite Nat2Z.inj_add, Nat2Z.inj_succ in Hlen. lia. }
    assert (frame (footprint h t l) s s1) as Hfr1.
    { intros z Hz Hzd. apply Hst1; [done|].
      intros ->. apply elem_of_dom in Hzd as [? ?]. congruence. }
    rewrite (bind_Ok _ _ _ _ _ Hrun1).
    assert (maps s1 !! other = Some mo) as Hmo1 by (by rewrite Hmaps1, lookup_insert_ne).
    assert (maps s1 !! this = Some m1) as Hm1 by (by rewrite Hmaps1, lookup_insert_eq).
    assert (inv s1 mo ho to lo) as Io1 by (by eapply frame_other).
    assert (∀ z, z ∈ footprint ho to lo → objs s1 !! z = objs s !! z) as Hsame.
    { intros z Hz. apply Hfr1; [by apply Hdisj|].
      apply elem_of_dom. by apply (inv_live _ _ _ _ _ Io). }
    assert (x ∈ footprint ho to lo) as Hxo.
    { unfold footprint. do 2 right. by apply (list_elem_of_fmap_2 fst) in He. }
    rewrite (bind_Ok _ _ _ _ _ (operator_inc_Ok s1 other mo x (Some nxt) Hmo1
               ltac:(rewrite (inv_tail _ _ _ _ _ Io); intros [=]; subst;
                     by apply (inv_entry_ne_tail _ _ _ _ _ _ Io He))
               ltac:(by destruct (views_of_objs s s1 x (Hsame x Hxo)) as (-> & _)))).
    pose proof (inv_nodup _ _ _ _ _ Io) as Hndo.
    apply NoDup_cons in Hndo as [_ [_ Hndo]%NoDup_cons].
    rewrite Hlo in Hndo. destruct (NoDup_fst_middle _ _ _ Hndo) as (_ & _ & Hnotin).
    destruct (IH (l1 ++ [(x, (k, v))]) s1 m1 (l ++ [(y, (k, v))]) nxt fuel)
      as (s' & m' & l' & Hrun & Hmaps & I' & Hl' & Io' & Hdisj' & Hfr' & Hfresh' & Htot' & Hcap').
    + by rewrite <- app_assoc.
    + done.
    + done.
    + done.
    + done.
    + intros z Hz Hin. unfold footprint in Hin. rewrite fmap_app in Hin. simpl in Hin.
      change (z ∈ (h :: t :: l.*1) ++ [y]) in Hin.
      apply elem_of_app in Hin as [Hin|Hin%list_elem_of_singleton].
      * by apply (Hdisj z).
      * subst z. destruct (inv_live _ _ _ _ _ Io y Hz) as [? Hlive]. congruence.
    + eapply (fwd_frame s); [|done]. intros z Hz.
      apply views_of_objs, Hsame. unfold footprint. do 2 right.
      rewrite Hlo, fmap_app, fmap_cons. apply elem_of_app. right. by right.
    + intros e' He' (e0 & [Hin|Hin%list_elem_of_singleton]%elem_of_app & Heq).
      * apply (Hkeys e'); [by right|]. by exists e0.
      * subst e0. simpl in Heq.
        assert ((x, (k, v)) = e') as <-.
        { apply (inv_keys _ _ _ _ _ Io); [done| |done].
          rewrite Hlo. apply elem_of_app. right. by right. }
        apply Hnotin. apply elem_of_app. by right.
    + rewrite length_app. simpl. rewrite !Nat2Z.inj_add in *.
      rewrite Nat2Z.inj_succ in Hlen. lia.
    + lia.
    + exists s', m', ((y, (k, v)) :: l'). rewrite <- app_assoc in *. simpl in *.
      split_and!; try done.
      * by rewrite Hmaps, Hmaps1, insert_insert_eq.
      * f_equal. exact Hl'.
      * intros z Hz Hzd. rewrite Hfr'.
        -- by apply Hfr1.
        -- unfold footprint in *. rewrite fmap_app. simpl.
           change (z ∉ (h :: t :: l.*1) ++ [y]). intros [Hin|Hin%list_elem_of_singleton]%elem_of_app.
           ++ by apply Hz.
           ++ subst. apply elem_of_dom in Hzd as [? ?]. congruence.
        -- apply elem_of_dom. rewrite Hfr1 by done. by apply elem_of_dom.
      * intros e' [->|Hin]%elem_of_cons; [done|].
        specialize (Hfresh' _ Hin).
        destruct (objs s !! e'.1) eqn:E; [|done].
        rewrite <- Hfr1 in E.
        -- congruence.
        -- intros Hin'. pose proof (inv_nodup _ _ _ _ _ I') as Hnd'.
           unfold footprint in Hin'.
           change (NoDup ((h :: t :: []) ++ (l ++ (y, (k, v)) :: l').*1)) in Hnd'.
           rewrite fmap_app, fmap_cons in Hnd'.
           assert (e'.1 ∈ l'.*1) as Hin2 by (by apply list_elem_of_fmap_2).
           apply NoDup_app in Hnd' as (_ & Hd1 & Hd2).
           apply elem_of_cons in Hin' as [Heq|Hin'].
           { apply (Hd1 h); [left|]. rewrite <- Heq. apply elem_of_app. right. by right. }
           apply elem_of_cons in Hin' as [Heq|Hin'].
           { apply (Hd1 t); [right; left|]. rewrite <- Heq. apply elem_of_app. right. by right. }
           apply NoDup_app in Hd2 as (_ & Hd2 & _). apply (Hd2 _ Hin'). by right.
        -- apply elem_of_dom. eauto.
      * intros z Hz. rewrite Htot' by done. apply Hst1.
        -- intros Hin. apply Hz. unfold footprint in *. rewrite fmap_app.
           rewrite !elem_of_cons, elem_of_app. rewrite !elem_of_cons in Hin. tauto.
        -- intros ->. apply Hz. unfold footprint. rewrite fmap_app, fmap_cons.
           do 2 right. apply elem_of_app. right. left.
      * intros Hceq Hll. apply Hcap'; [|rewrite !length_app; simpl; lia].
        rewrite Hcap1, Hceq.
        pose proof (inv_size _ _ _ _ _ I) as Hsz. pose proof (inv_size _ _ _ _ _ Io) as Hszo.
        pose proof (inv_load _ _ _ _ _ Io) as Hloado.
        rewrite Hlo, length_app in Hszo. simpl in Hszo.
        destruct (exceeds_load (num_elements m + 1) (bucket_capacity mo)) eqn:E; [|done].
        apply exceeds_load_spec in E. lia.
Qed.

(** The copy loop run on a freshly initialised target. *)
Lemma copy_into_empty s this other m h t mo ho to lo :
  this ≠ other →
  maps s !! other = Some mo → inv s mo ho to lo →
  maps s !! this = Some m → inv s m h t [] →
  (∀ y, y ∈ footprint ho to lo → y ≠ h ∧ y ≠ t) →
  ∃ s' m' l',
    (let* it := cbegin other in
     let* fuel := get_fuel in
     copy_loop fuel this other it) s = Ok tt s' ∧
    maps s' = <[this := m']> (maps s) ∧
    inv s' m' h t l' ∧ l'.*2 = lo.*2 ∧
    inv s' mo ho to lo ∧
    (∀ y, y ∈ footprint ho to lo → y ∉ footprint h t l') ∧
    (∀ y, y ≠ h → y ≠ t → y ∈ dom (objs s) → objs s' !! y = objs s !! y).
Proof.
  intros Hne Hmo Io Hm I Hdisj.
  unfold cbegin. rewrite (bind_Ok _ _ _ _ _ (begin_Ok _ _ _ _ _ _ Hmo Io)).
  unfold get_fuel at 1, bind at 1.
  destruct (copy_loop_spec this other mo ho to lo h t Hne lo [] s m [] (hd to lo.*1) (fuel_of s))
    as (s' & m' & l' & Hrun & Hmaps & I' & Hl' & Io' & Hdisj' & Hfr' & _); try done.
  - intros y Hy. unfold footprint. simpl. destruct (Hdisj y Hy) as [? ?].
    intros [->|[->|?%elem_of_nil]%elem_of_cons]%elem_of_cons; done.
  - by eapply inv_fwd.
  - intros e _ (e' & ?%elem_of_nil & _). done.
  - simpl. rewrite <- (inv_size _ _ _ _ _ Io). apply (inv_small _ _ _ _ _ Io).
  - by eapply inv_fuel.
  - exists s', m', l'. split_and!; try done.
    intros y Hyh Hyt Hyd. apply Hfr'; [|done]. unfold footprint. simpl.
    intros [->|[->|?%elem_of_nil]%elem_of_cons]%elem_of_cons; done.
Qed.

(** The copy constructor builds, in fresh storage, a container with the
    entries of the source in the order of the source. *)
Lemma copy_ctor_spec s this other mo ho to lo :
  this ≠ other →
  maps s !! other = Some mo → inv s mo ho to lo →
  ∃ s' m' h t l',
    copy_ctor this other s = Ok tt s' ∧
    maps s' = <[this := m']> (maps s) ∧
    inv s' m' h t l' ∧ l'.*2 = lo.*2 ∧
    inv s' mo ho to lo ∧
    (∀ y, y ∈ footprint ho to lo → y ∉ footprint h t l') ∧
    (∀ y, y ∈ dom (objs s) → objs s' !! y = objs s !! y).
Proof.
  intros Hne Hmo Io. unfold copy_ctor.
  rewrite (bind_Ok _ _ _ _ _ (get_map_Ok _ _ _ Hmo)).
  unfold put_map at 1, bind at 1.
  set (m0 := mkMap [] None None (bucket_capacity mo) 0).
  destruct (init_spec (set_map this m0 s) this m0)
    as (s1 & m1 & h & t & Hrun1 & Hmaps1 & I1 & Hh & Ht & Hsame1 & Hcap1).
  { unfold set_map. simpl. by rewrite lookup_insert_eq. }
  { done. }
  { apply (inv_pow _ _ _ _ _ Io). }
  { apply (inv_cap _ _ _ _ _ Io). }
  rewrite (bind_Ok_seq _ _ _ _ _ _ Hrun1).
  simpl in Hmaps1, Hh, Ht. rewrite insert_insert_eq in Hmaps1.
  assert (∀ y, y ∈ dom (objs s) → y ≠ h ∧ y ≠ t) as Hlive.
  { intros y [o Hy]%elem_of_dom. split; intros ->; congruence. }
  assert (∀ y, y ∈ footprint ho to lo → y ∈ dom (objs s)) as Hfpo.
  { intros y Hy. apply elem_of_dom. by apply (inv_live _ _ _ _ _ Io). }
  destruct (copy_into_empty s1 this other m1 h t mo ho to lo Hne)
    as (s' & m' & l' & Hrun & Hmaps & I' & Hl' & Io' & Hdisj' & Hfr'); try done.
  - by rewrite Hmaps1, lookup_insert_ne.
  - apply (inv_frame s); [done|]. intros y Hy.
    destruct (Hlive y (Hfpo y Hy)). by rewrite Hsame1.
  - by rewrite Hmaps1, lookup_insert_eq.
  - intros y Hy. apply Hlive. by apply Hfpo.
  - rewrite Hrun. exists s', m', h, t, l'. split_and!; try done.
    + by rewrite Hmaps, Hmaps1, insert_insert_eq.
    + intros y Hy. destruct (Hlive y Hy). rewrite Hfr'; try done.
      * by rewrite Hsame1.
      * apply elem_of_dom. rewrite Hsame1 by done. by apply elem_of_dom.
Qed.

(** Assignment from another container.  Self-assignment is the first line
    of the function and needs no lemma. *)
Lemma assign_spec s this other m h t l mo ho to lo :
  this ≠ other →
  maps s !! this = Some m → inv s m h t l →
  maps s !! other = Some mo → inv s mo ho to lo →
  (∀ y, y ∈ footprint ho to lo → y ∉ footprint h t l) →
  ∃ s' m' h' t' l',
    assign this other s = Ok tt s' ∧
    maps s' = <[this := m']> (maps s) ∧
    inv s' m' h' t' l' ∧ l'.*2 = lo.*2 ∧
    inv s' mo ho to lo ∧
    (∀ y, y ∈ footprint ho to lo → y ∉ footprint h' t' l') ∧
    frame (footprint h t l) s s'.
Proof.
  intros Hne Hm I Hmo Io Hdisj. unfold assign.
  rewrite bool_decide_eq_false_2 by done.
  destruct (clear_delete_spec s this m h t l Hm I)
    as (s1 & m1 & Hrun1 & Hmaps1 & I1 & Hgone1 & Hfr1 & Hmono1 & Hcap1).
  rewrite (bind_Ok_seq _ _ _ _ _ _ Hrun1).
  assert (maps s1 !! this = Some m1) as Hm1 by (by rewrite Hmaps1, lookup_insert_eq).
  rewrite (bind_Ok _ _ _ _ _ (get_map_Ok _ _ _ Hm1)).
  rewrite (inv_head _ _ _ _ _ I1), (inv_tail _ _ _ _ _ I1).
  pose proof (inv_nodup _ _ _ _ _ I1) as Hnd1.
  assert (h ≠ t) as Hht by (apply NoDup_cons in Hnd1 as [Hh _]; intros ->; apply Hh; left).
  destruct (free_spec s1 h) as (s2 & Hrun2 & Hmaps2 & Hh2 & Ho2).
  { apply (inv_live _ _ _ _ _ I1). left. }
  rewrite (bind_Ok _ _ _ _ _ Hrun2).
  destruct (free_spec s2 t) as (s3 & Hrun3 & Hmaps3 & Ht3 & Ho3).
  { rewrite Ho2 by done. apply (inv_live _ _ _ _ _ I1). right. left. }
  rewrite (bind_Ok _ _ _ _ _ Hrun3).
  assert (maps s3 = <[this := m1]> (maps s)) as Hmaps3' by congruence.
  assert (maps s3 !! other = Some mo) as Hmo3 by (by rewrite Hmaps3', lookup_insert_ne).
  assert (maps s3 !! this = Some m1) as Hm3 by (by rewrite Hmaps3', lookup_insert_eq).
  rewrite (bind_Ok _ _ _ _ _ (get_map_Ok _ _ _ Hmo3)).
  rewrite (bind_Ok _ _ _ _ _ (get_map_Ok _ _ _ Hm3)).
  unfold put_map at 1, bind at 1.
  unfold get_map at 1, bind at 1. simpl. rewrite lookup_insert_eq. simpl.
  unfold put_map at 1, bind at 1. unfold set_map. simpl. rewrite insert_insert_eq.
  set (m0 := mkMap (buckets m1) (order_head m1) (order_tail m1) (bucket_capacity mo) 0).
  set (s5 := mkMem (objs s3) (<[this := m0]> (maps s3)) (arrays s3)).
  destruct (init_spec s5 this m0)
    as (s6 & m6 & h' & t' & Hrun6 & Hmaps6 & I6 & Hh' & Ht' & Hsame6 & Hcap6).
  { unfold s5. simpl. by rewrite lookup_insert_eq. }
  { done. }
  { apply (inv_pow _ _ _ _ _ Io). }
  { apply (inv_cap _ _ _ _ _ Io). }
  rewrite (bind_Ok_seq _ _ _ _ _ _ Hrun6).
  unfold s5 in Hmaps6, Hh', Ht', Hsame6. simpl in Hmaps6, Hh', Ht', Hsame6.
  rewrite insert_insert_eq, Hmaps3', insert_insert_eq in Hmaps6.
  assert (∀ y, y ∈ footprint ho to lo → y ∈ dom (objs s)) as Hfpo.
  { intros y Hy. apply elem_of_dom. by apply (inv_live _ _ _ _ _ Io). }
  assert (∀ y, y ∉ footprint h t l → y ∈ dom (objs s) →
            objs s3 !! y = objs s !! y) as Hs3.
  { intros y Hy Hyd. rewrite Ho3, Ho2.
    - by apply Hfr1.
    - intros ->. apply Hy. left.
    - intros ->. apply Hy. right. left. }
  assert (∀ y, y ∉ footprint h t l → y ∈ dom (objs s) →
            y ≠ h' ∧ y ≠ t' ∧ objs s6 !! y = objs s !! y) as Hs6.
  { intros y Hy Hyd. pose proof (Hs3 y Hy Hyd) as Heq.
    apply elem_of_dom in Hyd as [o Hyo]. rewrite Hyo in Heq.
    assert (y ≠ h') by (intros ->; congruence).
    assert (y ≠ t') by (intros ->; congruence).
    split_and!; [done..|]. by rewrite Hsame6, Heq. }
  destruct (copy_into_empty s6 this other m6 h' t' mo ho to lo Hne)
    as (s' & m' & l' & Hrun & Hmaps & I' & Hl' & Io' & Hdisj' & Hfr'); try done.
  - by rewrite Hmaps6, lookup_insert_ne.
  - apply (inv_frame s); [done|]. intros y Hy.
    by destruct (Hs6 y (Hdisj y Hy) (Hfpo y Hy)) as (_ & _ & ->).
  - by rewrite Hmaps6, lookup_insert_eq.
  - intros y Hy. by destruct (Hs6 y (Hdisj y Hy) (Hfpo y Hy)) as (? & ? & _).
  - rewrite Hrun. exists s', m', h', t', l'. split_and!; try done.
    + by rewrite Hmaps, Hmaps6, insert_insert_eq.
    + intros y Hy Hyd. destruct (Hs6 y Hy Hyd) as (? & ? & Heq).
      rewrite Hfr'; try done. apply elem_of_dom. rewrite Heq. by apply elem_of_dom.
Qed.

(** ** Element access *)

Lemma has_key_dec l k : {e | e ∈ l ∧ key_equal e.2.1 k = true} + {¬ has_key l k}.
Proof.
  destruct (first_match k l) as [e|] eqn:E.
  - left. exists e. by apply first_match_Some.
  - right. intros (e & He & Hk). by rewrite (first_match_None _ _ _ E He) in Hk.
Qed.

Lemma at_present s this m h t l k e :
  maps s !! this = Some m → inv s m h t l →
  e ∈ l → key_equal e.2.1 k = true →
  at_ this k s = Ok e.1 s.
Proof.
  intros Hm I He Hk. unfold at_.
  rewrite (bind_Ok _ _ _ _ _ (find_present _ _ _ _ _ _ _ _ Hm I He Hk)).
  rewrite (bind_Ok _ _ _ _ _ (end_Ok _ _ _ _ _ _ Hm I)).
  unfold iterator_eq. simpl.
  rewrite bool_decide_eq_false_2 by (intros [=]; by apply (inv_entry_ne_tail _ _ _ _ _ _ I He)).
  simpl. unfold operator_arrow. simpl.
  eapply data_ref_Ok, (inv_data _ _ _ _ _ I), He.
Qed.

Lemma at_absent s this m h t l k :
  maps s !! this = Some m → inv s m h t l →
  ¬ has_key l k →
  at_ this k s = Throw index_out_of_bound s.
Proof.
  intros Hm I Hk. unfold at_.
  rewrite (bind_Ok _ _ _ _ _ (find_absent _ _ _ _ _ _ _ Hm I Hk)).
  rewrite (bind_Ok _ _ _ _ _ (end_Ok _ _ _ _ _ _ Hm I)).
  unfold iterator_eq. simpl. by rewrite !bool_decide_eq_true_2.
Qed.

Lemma index_present s this m h t l k e :
  maps s !! this = Some m → inv s m h t l →
  e ∈ l → key_equal e.2.1 k = true →
  index this k s = Ok e.1 s.
Proof.
  intros Hm I He Hk. unfold index.
  rewrite (bind_Ok _ _ _ _ _ (find_present _ _ _ _ _ _ _ _ Hm I He Hk)).
  rewrite (bind_Ok _ _ _ _ _ (end_Ok _ _ _ _ _ _ Hm I)).
  unfold iterator_eq. simpl.
  rewrite bool_decide_eq_false_2 by (intros [=]; by apply (inv_entry_ne_tail _ _ _ _ _ _ I He)).
  simpl. unfold operator_arrow. simpl.
  eapply data_ref_Ok, (inv_data _ _ _ _ _ I), He.
Qed.

Lemma index_absent s this m h t l k :
  maps s !! this = Some m → inv s m h t l →
  ¬ has_key l k →
  Z.of_nat (length l) < 2 ^ 53 →
  ∃ s' m' x,
    index this k s = Ok x s' ∧
    objs s !! x = None ∧
    maps s' = <[this := m']> (maps s) ∧
    inv s' m' h t (l ++ [(x, (k, T_default))]) ∧
    frame (footprint h t l) s s' ∧
    bucket_capacity m' =
      (if exceeds_load (num_elements m + 1) (bucket_capacity m)
       then bucket_capacity m * 2 else bucket_capacity m).
Proof.
  intros Hm I Hk Hlen. unfold index.
  rewrite (bind_Ok _ _ _ _ _ (find_absent _ _ _ _ _ _ _ Hm I Hk)).
  rewrite (bind_Ok _ _ _ _ _ (end_Ok _ _ _ _ _ _ Hm I)).
  unfold iterator_eq. simpl. rewrite !bool_decide_eq_true_2 by done. simpl.
  destruct (insert_absent s this m h t l k T_default Hm I Hk Hlen)
    as (s' & m' & x & Hrun & Hx & Hmaps & I' & Hfr & Hcap).
  rewrite (bind_Ok _ _ _ _ _ Hrun). simpl.
  exists s', m', x. split_and!; try done.
  unfold operator_arrow. simpl. eapply data_ref_Ok.
  apply (inv_data _ _ _ _ _ I' (x, (k, T_default))). apply elem_of_app. right. left.
Qed.

(** Writing a value through a reference to an entry changes the value of
    that entry and nothing else. *)
Lemma write_second_spec s m h t l1 x k v0 l2 v :
  inv s m h t (l1 ++ (x, (k, v0)) :: l2) →
  ∃ s',
    write_second x v s = Ok tt s' ∧
    maps s' = maps s ∧
    inv s' m h t (l1 ++ (x, (k, v)) :: l2) ∧
    (∀ y, y ≠ x → objs s' !! y = objs s !! y).
Proof.
  intros I.
  assert ((x, (k, v0)) ∈ l1 ++ (x, (k, v0)) :: l2) as He by (apply elem_of_app; right; left).
  pose proof (inv_data _ _ _ _ _ I _ He) as Hd. simpl in Hd.
  apply data_at_Some in Hd as (n & Hn & Hd).
  unfold write_second. apply node_at_Some in Hn.
  rewrite (bind_Ok _ _ _ _ _ (get_node_Ok _ _ _ Hn)). rewrite Hd. simpl.
  set (s' := set_obj x (ONode (mkNode (base n) (k, v) (next_in_bucket n))) s).
  apply node_at_Some in Hn.
  assert (∀ y, next_at s' y = next_at s y) as Hvn.
  { intros y. unfold s'. rewrite next_at_set_obj. case_decide; [subst|done].
    unfold next_at. by rewrite Hn. }
  assert (∀ y, prev_at s' y = prev_at s y) as Hvp.
  { intros y. unfold s'. rewrite prev_at_set_obj. case_decide; [subst|done].
    unfold prev_at. by rewrite Hn. }
  assert (∀ y, bnext_at s' y = bnext_at s y) as Hvb.
  { intros y. destruct (decide (x = y)) as [<-|Hy].
    - unfold s'. rewrite bnext_at_set_obj_node. simpl. unfold bnext_at, node_at. by rewrite Hn.
    - unfold s'. by rewrite bnext_at_set_obj_ne. }
  assert (∀ y, y ≠ x → data_at s' y = data_at s y) as Hvd.
  { intros y Hy. unfold s'. by rewrite data_at_set_obj_ne. }
  assert (data_at s' x = Some (k, v)) as Hvx.
  { unfold s'. by rewrite data_at_set_obj_node. }
  pose proof (inv_nodup _ _ _ _ _ I) as Hnd.
  apply NoDup_cons in Hnd as [Hh [Ht Hnd]%NoDup_cons].
  destruct (NoDup_fst_middle _ _ _ Hnd) as (Hnd' & Hx & Hnotin). simpl in Hx.
  set (upd := λ e : addr * (Key * T), if decide (e.1 = x) then (x, (k, v)) else e).
  assert (∀ e, e ∈ l1 ++ l2 → e.1 ≠ x) as Hne.
  { intros e Hin Heq. apply Hx. rewrite <- Heq. by apply list_elem_of_fmap_2. }
  assert (∀ e, e ∈ l1 ++ (x, (k, v0)) :: l2 → upd e ∈ l1 ++ (x, (k, v)) :: l2) as Hupd.
  { intros e Hin. unfold upd. case_decide as Hex.
    - apply elem_of_app. right. left.
    - rewrite elem_of_app, elem_of_cons in *. destruct Hin as [?|[->|?]]; [by left| done |by right; right]. }
  assert (∀ e, e ∈ l1 ++ (x, (k, v)) :: l2 →
            ∃ e0, e0 ∈ l1 ++ (x, (k, v0)) :: l2 ∧ e = upd e0) as Hupd'.
  { intros e Hin. rewrite elem_of_app, elem_of_cons in Hin.
    destruct Hin as [Hin|[->|Hin]].
    - exists e. split; [apply elem_of_app; by left|]. unfold upd.
      rewrite decide_False; [done|]. apply Hne. apply elem_of_app. by left.
    - exists (x, (k, v0)). split; [done|]. unfold upd. simpl. by rewrite decide_True.
    - exists e. split; [apply elem_of_app; right; by right|]. unfold upd.
      rewrite decide_False; [done|]. apply Hne. apply elem_of_app. by right. }
  assert (∀ e, (upd e).1 = e.1) as Hupd1.
  { intros e. unfold upd. by case_decide. }
  assert (∀ e, e ∈ l1 ++ (x, (k, v0)) :: l2 → (upd e).2.1 = e.2.1) as Hupd2.
  { intros e Hin. unfold upd. case_decide as Hex; [|done]. simpl.
    rewrite elem_of_app, elem_of_cons in Hin. destruct Hin as [Hin|[->|Hin]]; [|done|].
    - destruct (Hne e); [apply elem_of_app; by left|done].
    - destruct (Hne e); [apply elem_of_app; by right|done]. }
  assert (∀ e, e ∈ l1 ++ (x, (k, v0)) :: l2 → data_at s' (upd e).1 = Some (upd e).2) as Hupdd.
  { intros e Hin. unfold upd. case_decide as Hex; simpl; [done|].
    rewrite Hvd by done. by apply (inv_data _ _ _ _ _ I). }
  assert ((l1 ++ (x, (k, v)) :: l2).*1 = (l1 ++ (x, (k, v0)) :: l2).*1) as Hfst.
  { by rewrite !fmap_app, !fmap_cons. }
  exists s'. split; [done|]. split; [done|]. split.
  - destruct I as [Ih It Ind Iord Idata Ipow Icap Ilen Ich Ikeys Isize Iload Ismall].
    constructor; try done.
    + by rewrite Hfst.
    + rewrite Hfst. apply (dseg_frame s s'); [by intros z _|by intros z _|done].
    + intros e (e0 & Hin & ->)%Hupd'. by apply Hupdd.
    + intros i p Hp. destruct (Ich i p Hp) as (c & Hc & Hcnd & Hmem).
      exists (upd <$> c). split_and!.
      * clear Hcnd. assert (∀ e, e ∈ c → e ∈ l1 ++ (x, (k, v0)) :: l2) as Hsub
          by (intros e He'; by apply Hmem).
        clear Hmem Hp. revert p Hc Hsub. induction c as [|e c IH]; intros p Hc Hsub; [done|].
        destruct Hc as (-> & Hde & nb & Hnb & Hc). rewrite fmap_cons. simpl.
        split_and!.
        -- by rewrite Hupd1.
        -- apply Hupdd, Hsub. left.
        -- exists nb. rewrite Hupd1, Hvb. split; [done|]. apply IH; [done|].
           intros e' He'. apply Hsub. by right.
      * rewrite <- list_fmap_compose.
        rewrite (list_fmap_ext (fst ∘ upd) fst c); [done|].
        intros j e _. simpl. apply Hupd1.
      * intros e. split.
        -- intros (e0 & -> & Hin)%list_elem_of_fmap. apply Hmem in Hin as [Hin Hb].
           split; [by apply Hupd|]. by rewrite Hupd2.
        -- intros [(e0 & Hin & ->)%Hupd' Hb]. apply list_elem_of_fmap_2.
           apply Hmem. split; [done|]. by rewrite <- Hupd2.
    + intros e1 e2 (a1 & H1 & ->)%Hupd' (a2 & H2 & ->)%Hupd'.
      rewrite !Hupd2 by done. intros Heq. by rewrite (Ikeys a1 a2 H1 H2 Heq).
    + rewrite Isize, !length_app. done.
  - intros y Hy. unfold s', set_obj. simpl. by rewrite lookup_insert_ne.
Qed.

(** ** The operations against the reference model *)

Lemma al_insert_absent kv al :
  (∀ e, e ∈ al → key_equal e.1 kv.1 = false) → al_insert kv al = al ++ [kv].
Proof.
  induction al as [|e al IH]; intros H; simpl; [done|].
  rewrite (H e) by left. f_equal. apply IH. intros e' He'. apply H. by right.
Qed.

Lemma al_insert_present kv al e :
  e ∈ al → key_equal e.1 kv.1 = true → al_insert kv al = al.
Proof.
  induction al as [|e' al IH]; intros He Hk; simpl; [by apply elem_of_nil in He|].
  destruct (key_equal e'.1 kv.1) eqn:E; [done|]. f_equal. apply IH; [|done].
  apply elem_of_cons in He as [->|He]; [congruence|done].
Qed.

Lemma al_erase_absent k al :
  (∀ e, e ∈ al → key_equal e.1 k = false) → al_erase k al = al.
Proof.
  induction al as [|e al IH]; intros H; simpl; [done|].
  rewrite (H e) by left. f_equal. apply IH. intros e' He'. apply H. by right.
Qed.

Lemma al_erase_present k al1 e al2 :
  (∀ e', e' ∈ al1 → key_equal e'.1 k = false) → key_equal e.1 k = true →
  al_erase k (al1 ++ e :: al2) = al1 ++ al2.
Proof.
  induction al1 as [|e' al1 IH]; intros H Hk; simpl; [by rewrite Hk|].
  rewrite (H e') by left. f_equal. apply IH; [|done]. intros e'' He''. apply H. by right.
Qed.

Lemma al_assign_absent k v al :
  (∀ e, e ∈ al → key_equal e.1 k = false) → al_assign k v al = al ++ [(k, v)].
Proof.
  induction al as [|e al IH]; intros H; simpl; [done|].
  rewrite (H e) by left. f_equal. apply IH. intros e' He'. apply H. by right.
Qed.

Lemma al_assign_present k v al1 e al2 :
  (∀ e', e' ∈ al1 → key_equal e'.1 k = false) → key_equal e.1 k = true →
  al_assign k v (al1 ++ e :: al2) = al1 ++ (e.1, v) :: al2.
Proof.
  induction al1 as [|e' al1 IH]; intros H Hk; simpl; [by rewrite Hk|].
  rewrite (H e') by left. f_equal. apply IH; [|done]. intros e'' He''. apply H. by right.
Qed.

Lemma absent_model l k :
  ¬ has_key l k → ∀ e, e ∈ l.*2 → key_equal e.1 k = false.
Proof.
  intros Hk e (e0 & -> & He0)%list_elem_of_fmap.
  destruct (key_equal e0.2.1 k) eqn:E; [|done]. destruct Hk. by exists e0.
Qed.

(** In a container the entry of a key is the only one that matches it. *)
Lemma inv_unique s m h t l1 e l2 k :
  inv s m h t (l1 ++ e :: l2) → key_equal e.2.1 k = true →
  ∀ e', e' ∈ l1 ++ l2 → key_equal e'.2.1 k = false.
Proof.
  intros I Hk e' He'. destruct (key_equal e'.2.1 k) eqn:E; [|done].
  pose proof (inv_nodup _ _ _ _ _ I) as Hnd.
  apply NoDup_cons in Hnd as [_ [_ Hnd]%NoDup_cons].
  destruct (NoDup_fst_middle _ _ _ Hnd) as (_ & _ & Hnotin).
  assert (e' = e) as ->; [|done].
  apply (inv_keys _ _ _ _ _ I).
  - by apply (elem_of_middle_ne l1 l2 e e') in He' as [? _].
  - apply elem_of_app. right. left.
  - eapply key_equal_trans; [done|]. by apply key_equal_sym.
Qed.

Lemma footprint_app h t l l' y :
  y ∈ footprint h t (l ++ l') ↔ y ∈ footprint h t l ∨ y ∈ l'.*1.
Proof.
  unfold footprint. rewrite fmap_app.
  change (h :: t :: l.*1 ++ l'.*1) with ((h :: t :: l.*1) ++ l'.*1).
  by rewrite elem_of_app.
Qed.

Lemma insert_step s this m h t l kv :
  maps s !! this = Some m → inv s m h t l →
  Z.of_nat (length l) < 2 ^ 53 →
  ∃ r s', insert this kv s = Ok r s' ∧
    step_post s this m h t l s' (al_insert kv l.*2).
Proof.
  intros Hm I Hlen. destruct kv as [k v].
  destruct (has_key_dec l k) as [(e & He & Hk)|Hk].
  - eexists _, s. split; [by eapply insert_present|].
    exists m, l. split_and!; try done.
    + by rewrite insert_id.
    + symmetry. apply (al_insert_present _ _ e.2); [by apply list_elem_of_fmap_2|done].
    + by left.
    + by left.
    + lia.
  - destruct (insert_absent s this m h t l k v Hm I Hk Hlen)
      as (s' & m' & x & Hrun & Hx & Hmaps & I' & Hfr & Hcap).
    eexists _, s'. split; [done|]. exists m', (l ++ [(x, (k, v))]).
    split_and!; try done.
    + rewrite fmap_app. simpl. symmetry. apply al_insert_absent.
      simpl. by apply absent_model.
    + intros y [Hy|Hy]%footprint_app; [by left|]. right.
      simpl in Hy. apply list_elem_of_singleton in Hy. by subst.
    + rewrite Hcap. destruct (exceeds_load _ _); [right; lia|by left].
    + rewrite length_app. simpl. lia.
Qed.

Lemma erase_key_step s this m h t l k :
  maps s !! this = Some m → inv s m h t l →
  ∃ s', erase_key this k s = Ok tt s' ∧
    step_post s this m h t l s' (al_erase k l.*2).
Proof.
  intros Hm I. unfold erase_key.
  destruct (has_key_dec l k) as [(e & He & Hk)|Hk].
  - rewrite (bind_Ok _ _ _ _ _ (find_present _ _ _ _ _ _ _ _ Hm I He Hk)).
    rewrite (bind_Ok _ _ _ _ _ (end_Ok _ _ _ _ _ _ Hm I)).
    unfold iterator_eq. simpl.
    rewrite bool_decide_eq_false_2 by (intros [=]; by apply (inv_entry_ne_tail _ _ _ _ _ _ I He)).
    simpl. apply list_elem_of_split in He as (l1 & l2 & ->).
    destruct (erase_spec s this m h t l1 e l2 Hm I)
      as (s' & m' & Hrun & Hmaps & I' & Hgone & Hfr & Hmono & Hnum & Hcap).
    exists s'. split; [done|]. exists m', (l1 ++ l2). split_and!; try done.
    + rewrite !fmap_app, fmap_cons. symmetry. apply al_erase_present; [|done].
      intros e' (e0 & -> & He0)%list_elem_of_fmap.
      apply (inv_unique _ _ _ _ _ _ _ k I Hk). apply elem_of_app. by left.
    + intros y Hy. left. unfold footprint in *. rewrite fmap_app in *. rewrite fmap_cons.
      rewrite !elem_of_cons, elem_of_app in Hy. rewrite !elem_of_cons, elem_of_app, elem_of_cons.
      tauto.
    + by left.
    + rewrite !length_app. simpl. lia.
  - rewrite (bind_Ok _ _ _ _ _ (find_absent _ _ _ _ _ _ _ Hm I Hk)).
    rewrite (bind_Ok _ _ _ _ _ (end_Ok _ _ _ _ _ _ Hm I)).
    unfold iterator_eq. simpl. rewrite !bool_decide_eq_true_2 by done. simpl.
    exists s. split; [done|]. exists m, l. split_and!; try done.
    + by rewrite insert_id.
    + symmetry. apply al_erase_absent. by apply absent_model.
    + by left.
    + by left.
    + lia.
Qed.

Lemma clear_step s this m h t l :
  maps s !! this = Some m → inv s m h t l →
  ∃ s', clear this s = Ok tt s' ∧ step_post s this m h t l s' [].
Proof.
  intros Hm I.
  destruct (clear_spec s this m h t l Hm I)
    as (s' & m' & Hrun & Hmaps & I' & Hgone & Hfr & Hmono & Hcap).
  exists s'. split; [done|]. exists m', []. split_and!; try done.
  - intros y Hy. left. unfold footprint in *. simpl in Hy.
    rewrite !elem_of_cons in *. destruct Hy as [?|[?|?%elem_of_nil]]; tauto.
  - by left.
  - simpl. lia.
Qed.

Lemma assign_at_step s this m h t l k v :
  maps s !! this = Some m → inv s m h t l →
  Z.of_nat (length l) < 2 ^ 53 →
  ∃ s', assign_at this k v s = Ok tt s' ∧
    step_post s this m h t l s' (al_assign k v l.*2).
Proof.
  intros Hm I Hlen. unfold assign_at.
  destruct (has_key_dec l k) as [(e & He & Hk)|Hk].
  - rewrite (bind_Ok _ _ _ _ _ (index_present _ _ _ _ _ _ _ _ Hm I He Hk)).
    apply list_elem_of_split in He as (l1 & l2 & ->).
    destruct e as [x [k0 v0]]. simpl in *.
    destruct (write_second_spec s m h t l1 x k0 v0 l2 v I) as (s' & Hrun & Hmaps & I' & Hsame).
    exists s'. split; [done|]. exists m, (l1 ++ (x, (k0, v)) :: l2). split_and!; try done.
    + by rewrite Hmaps, insert_id.
    + rewrite !fmap_app, !fmap_cons. symmetry.
      apply (al_assign_present k v (l1.*2) (k0, v0) (l2.*2)); [|done].
      intros e' (e0 & -> & He0)%list_elem_of_fmap.
      apply (inv_unique _ _ _ _ _ _ _ k I Hk). apply elem_of_app. by left.
    + intros y Hy _. apply Hsame. intros ->. apply Hy. unfold footprint.
      do 2 right. rewrite fmap_app, fmap_cons. apply elem_of_app. right. left.
    + intros y Hy. left. unfold footprint in *. by rewrite !fmap_app, !fmap_cons in *.
    + by left.
    + rewrite !length_app. simpl. lia.
  - destruct (index_absent s this m h t l k Hm I Hk Hlen)
      as (s1 & m1 & x & Hrun1 & Hx & Hmaps1 & I1 & Hfr1 & Hcap1).
    rewrite (bind_Ok _ _ _ _ _ Hrun1).
    destruct (write_second_spec s1 m1 h t l x k T_default [] v I1)
      as (s' & Hrun & Hmaps & I' & Hsame).
    exists s'. split; [done|]. exists m1, (l ++ [(x, (k, v))]). split_and!; try done.
    + by rewrite Hmaps.
    + rewrite fmap_app. simpl. symmetry. apply al_assign_absent. by apply absent_model.
    + intros y Hy Hyd. rewrite Hsame; [by apply Hfr1|].
      intros ->. apply elem_of_dom in Hyd as [? ?]. congruence.
    + intros y [Hy|Hy]%footprint_app; [by left|]. right.
      simpl in Hy. apply list_elem_of_singleton in Hy. by subst.
    + rewrite Hcap1. destruct (exceeds_load _ _); [right; lia|by left].
    + rewrite length_app. simpl. lia.
Qed.

Lemma run_op_step s this m h t l o :
  maps s !! this = Some m → inv s m h t l →
  Z.of_nat (length l) < 2 ^ 53 →
  ∃ s', run_op this o s = Ok tt s' ∧
    step_post s this m h t l s' (al_step o l.*2).
Proof.
  intros Hm I Hlen. destruct o as [kv|k| |k v]; simpl.
  - destruct (insert_step s this m h t l kv Hm I Hlen) as (r & s' & Hrun & Hpost).
    exists s'. by rewrite (bind_Ok _ _ _ _ _ Hrun).
  - by apply erase_key_step.
  - by apply clear_step.
  - by apply assign_at_step.
Qed.

Lemma frame_trans F F1 s s1 s' :
  frame F s s1 → frame F1 s1 s' →
  (∀ y, y ∈ F1 → y ∈ F ∨ objs s !! y = None) →
  frame F s s'.
Proof.
  intros Hfr1 Hfr Hnew y Hy Hyd. rewrite Hfr.
  - by apply Hfr1.
  - intros Hin. destruct (Hnew y Hin) as [?|Hnone]; [done|].
    apply elem_of_dom in Hyd as [? ?]. congruence.
  - apply elem_of_dom. rewrite Hfr1 by done. by apply elem_of_dom.
Qed.

Lemma fresh_trans (F F1 F2 : list addr) s s1 :
  frame F s s1 →
  (∀ y, y ∈ F1 → y ∈ F ∨ objs s !! y = None) →
  (∀ y, y ∈ F2 → y ∈ F1 ∨ objs s1 !! y = None) →
  ∀ y, y ∈ F2 → y ∈ F ∨ objs s !! y = None.
Proof.
  intros Hfr1 Hnew1 Hnew y Hy. destruct (Hnew y Hy) as [Hin|Hnone]; [by apply Hnew1|].
  destruct (decide (y ∈ F)) as [?|Hnin]; [by left|]. right.
  destruct (objs s !! y) eqn:E; [|done].
  rewrite <- Hfr1 in E; [congruence|done|]. apply elem_of_dom. eauto.
Qed.

(** Any sequence of operations on a well-formed container runs to the end
    and leaves the container holding what the reference model computes. *)
Lemma run_ops_spec this h t :
  ∀ os s m l,
    maps s !! this = Some m → inv s m h t l →
    Z.of_nat (length l + length os) < 2 ^ 53 →
    ∃ s' m' l',
      run_ops this os s = Ok tt s' ∧
      maps s' = <[this := m']> (maps s) ∧
      inv s' m' h t l' ∧
      l'.*2 = fold_left (λ al o, al_step o al) os (l.*2) ∧
      frame (footprint h t l) s s' ∧
      (∀ y, y ∈ footprint h t l' → y ∈ footprint h t l ∨ objs s !! y = None).
Proof.
  induction os as [|o os IH]; intros s m l Hm I Hlen.
  - exists s, m, l. simpl. split_and!; try done.
    + by rewrite insert_id.
    + intros y Hy. by left.
  - simpl. rewrite Nat2Z.inj_add in Hlen. simpl length in Hlen.
    destruct (run_op_step s this m h t l o Hm I ltac:(lia)) as (s1 & Hrun1 & Hpost1).
    rewrite (bind_Ok _ _ _ _ _ Hrun1).
    pose proof Hpost1 as (m1 & l1 & Hmaps1 & I1 & Hal1 & Hfr1 & Hnew1 & Hcap1 & Hlen1).
    destruct (IH s1 m1 l1) as (s' & m' & l' & Hrun & Hmaps & I' & Hal & Hfr & Hnew).
    { by rewrite Hmaps1, lookup_insert_eq. }
    { done. }
    { rewrite Nat2Z.inj_add. lia. }
    exists s', m', l'. split_and!; try done.
    + by rewrite Hmaps, Hmaps1, insert_insert_eq.
    + rewrite Hal. congruence.
    + by eapply frame_trans.
    + by eapply fresh_trans.
Qed.

Lemma distinct_keys_absent l kv kvs :
  (∀ kv', kv' ∈ kv :: kvs → ¬ has_key l kv'.1) →
  distinct_keys (kv :: kvs) →
  ∀ x kv', kv' ∈ kvs → ¬ has_key (l ++ [(x, kv)]) kv'.1.
Proof.
  intros Habs [Hd _] x kv' Hin (e & [He| ->%list_elem_of_singleton]%elem_of_app & Hk).
  - apply (Habs kv'); [by right|]. by exists e.
  - simpl in Hk. rewrite (Hd kv' Hin) in Hk. done.
Qed.

(** Inserting pairwise different new keys appends them in order. *)
Lemma insert_all_spec this h t :
  ∀ kvs s m l,
    maps s !! this = Some m → inv s m h t l →
    (∀ kv, kv ∈ kvs → ¬ has_key l kv.1) →
    distinct_keys kvs →
    Z.of_nat (length l + length kvs) ≤ 2 ^ 53 →
    ∃ s' m' l',
      insert_all this kvs s = Ok tt s' ∧
      maps s' = <[this := m']> (maps s) ∧
      inv s' m' h t (l ++ l') ∧ l'.*2 = kvs.
Proof.
  induction kvs as [|[k v] kvs IH]; intros s m l Hm I Habs Hd Hlen.
  - exists s, m, []. simpl. rewrite app_nil_r. split_and!; try done. by rewrite insert_id.
  - simpl. rewrite Nat2Z.inj_add in Hlen. simpl length in Hlen.
    destruct (insert_absent s this m h t l k v Hm I) as (s1 & m1 & x & Hrun1 & Hx & Hmaps1 & I1 & _).
    { apply (Habs (k, v)). left. }
    { lia. }
    rewrite (bind_Ok _ _ _ _ _ Hrun1).
    destruct (IH s1 m1 (l ++ [(x, (k, v))])) as (s' & m' & l' & Hrun & Hmaps & I' & Hl').
    + by rewrite Hmaps1, lookup_insert_eq.
    + done.
    + by eapply distinct_keys_absent.
    + by destruct Hd.
    + rewrite length_app, !Nat2Z.inj_add. simpl. lia.
    + exists s', m', ((x, (k, v)) :: l'). rewrite <- app_assoc in I'. simpl in *.
      split_and!; try done.
      * by rewrite Hmaps, Hmaps1, insert_insert_eq.
      * by f_equal.
Qed.

(** ** Computations that never throw *)

Lemma nothrow_ret {A} (a : A) : nothrow (ret a).
Proof. by intros s e s'. Qed.

Lemma nothrow_undefined {A} : nothrow (@undefined A).
Proof. by intros s e s'. Qed.

Lemma nothrow_diverge {A} : nothrow (@diverge A).
Proof. by intros s e s'. Qed.

Lemma nothrow_bind {A B} (c : M A) (k : A → M B) :
  nothrow c → (∀ a, nothrow (k a)) → nothrow (bind c k).
Proof.
  intros Hc Hk s e s'. unfold bind. destruct (c s) as [a s1|e1 s1| |] eqn:E; try done.
  - apply Hk.
  - by destruct (Hc s e1 s1).
Qed.

Lemma nothrow_get_map a : nothrow (get_map a).
Proof. intros s e s'. unfold get_map. destruct a; [|done]. by destruct (maps s !! _). Qed.

Lemma nothrow_put_map a m : nothrow (put_map a m).
Proof. by intros s e s'. Qed.

Lemma nothrow_get_fuel : nothrow get_fuel.
Proof. by intros s e s'. Qed.

Lemma nothrow_get_link p : nothrow (get_link p).
Proof. intros s e s'. unfold get_link. destruct p; [|done]. by destruct (link_at s _). Qed.

Lemma nothrow_get_node p : nothrow (get_node p).
Proof. intros s e s'. unfold get_node. destruct p; [|done]. by destruct (node_at s _). Qed.

Lemma nothrow_set_order_prev p q : nothrow (set_order_prev p q).
Proof. intros s e s'. unfold set_order_prev. destruct p; [|done]. by destruct (objs s !! _). Qed.

Lemma nothrow_set_order_next p q : nothrow (set_order_next p q).
Proof. intros s e s'. unfold set_order_next. destruct p; [|done]. by destruct (objs s !! _). Qed.

Lemma nothrow_set_next_in_bucket p q : nothrow (set_next_in_bucket p q).
Proof.
  intros s e s'. unfold set_next_in_bucket. destruct p; [|done]. by destruct (node_at s _).
Qed.

Lemma nothrow_alloc o : nothrow (alloc o).
Proof. by intros s e s'. Qed.

Lemma nothrow_free p : nothrow (free p).
Proof. intros s e s'. unfold free. destruct p; [|done]. by destruct (objs s !! _). Qed.

Lemma nothrow_new_array : nothrow new_array.
Proof. by intros s e s'. Qed.

Lemma nothrow_delete_array : nothrow delete_array.
Proof. by intros s e s'. Qed.

Lemma nothrow_bucket_get b i : nothrow (bucket_get b i).
Proof. intros s e s'. unfold bucket_get. by destruct (b !! _). Qed.

Lemma nothrow_bucket_set b i p : nothrow (bucket_set b i p).
Proof. intros s e s'. unfold bucket_set. by destruct (b !! _). Qed.

Lemma nothrow_hash_index k c : nothrow (hash_index k c).
Proof. intros s e s'. unfold hash_index. by destruct (c =? 0). Qed.

Lemma nothrow_write_second_tail r n v :
  nothrow (λ s, Ok tt (set_obj r (ONode (mkNode (base n) ((data n).1, v) (next_in_bucket n))) s)).
Proof. by intros s e s'. Qed.

Ltac nothrow_step :=
  first
    [ match goal with H : context [nothrow] |- _ => apply H end
    | apply nothrow_ret | apply nothrow_undefined | apply nothrow_diverge
    | apply nothrow_get_map | apply nothrow_put_map | apply nothrow_get_fuel
    | apply nothrow_get_link | apply nothrow_get_node
    | apply nothrow_set_order_prev | apply nothrow_set_order_next
    | apply nothrow_set_next_in_bucket | apply nothrow_alloc | apply nothrow_free
    | apply nothrow_new_array | apply nothrow_delete_array
    | apply nothrow_bucket_get | apply nothrow_bucket_set | apply nothrow_hash_index
    | apply nothrow_write_second_tail
    | assumption
    | apply nothrow_bind; [|intros ?]
    | match goal with
      | |- nothrow (if ?b then _ else _) => destruct b
      | |- nothrow (match ?x with _ => _ end) => destruct x
      end ].

Ltac nothrow_tac := repeat nothrow_step.

Lemma nothrow_end this : nothrow (end_ this).
Proof. unfold end_. nothrow_tac. Qed.

Lemma nothrow_begin this : nothrow (begin_ this).
Proof. unfold begin_. nothrow_tac. Qed.

Lemma nothrow_get_bucket_index this k : nothrow (get_bucket_index this k).
Proof. unfold get_bucket_index. nothrow_tac. Qed.

Lemma nothrow_find_loop fuel this k p : nothrow (find_loop fuel this k p).
Proof.
  revert p. induction fuel as [|fuel IH]; intros p; simpl; [apply nothrow_diverge|].
  destruct p; [|apply nothrow_end]. apply nothrow_bind; [apply nothrow_get_node|].
  intros n. destruct (key_equal _ _); [apply nothrow_ret|apply IH].
Qed.

Lemma nothrow_find this k : nothrow (find this k).
Proof.
  unfold find. pose proof nothrow_get_bucket_index. pose proof nothrow_find_loop.
  nothrow_tac; auto.
Qed.

Lemma nothrow_rehash_loop fuel tl c b cur : nothrow (rehash_loop fuel tl c b cur).
Proof.
  revert b cur. induction fuel as [|fuel IH]; intros b cur; simpl; [apply nothrow_diverge|].
  nothrow_tac; auto.
Qed.

Lemma nothrow_rehash this : nothrow (rehash this).
Proof. unfold rehash. pose proof nothrow_rehash_loop. nothrow_tac; auto. Qed.

Lemma nothrow_insert this kv : nothrow (insert this kv).
Proof.
  unfold insert. pose proof nothrow_find. pose proof nothrow_end.
  pose proof nothrow_rehash. pose proof nothrow_get_bucket_index.
  nothrow_tac; auto.
Qed.

Lemma nothrow_clear_loop fuel tl cur : nothrow (clear_loop fuel tl cur).
Proof.
  revert cur. induction fuel as [|fuel IH]; intros cur; simpl; [apply nothrow_diverge|].
  nothrow_tac; auto.
Qed.

Lemma nothrow_clear this : nothrow (clear this).
Proof. unfold clear. pose proof nothrow_clear_loop. nothrow_tac; auto. Qed.

Lemma nothrow_count this k : nothrow (count this k).
Proof.
  unfold count, cend. pose proof nothrow_find. pose proof nothrow_end. nothrow_tac; auto.
Qed.

Lemma nothrow_data_ref p : nothrow (data_ref p).
Proof. unfold data_ref. nothrow_tac. Qed.

Lemma nothrow_operator_arrow it : nothrow (operator_arrow it).
Proof. apply nothrow_data_ref. Qed.

Lemma nothrow_index this k : nothrow (index this k).
Proof.
  unfold index. pose proof nothrow_find. pose proof nothrow_end.
  pose proof nothrow_insert. pose proof nothrow_operator_arrow.
  nothrow_tac; auto.
Qed.

Lemma nothrow_erase_scan fuel cur prev p : nothrow (erase_scan fuel cur prev p).
Proof.
  revert prev p. induction fuel as [|fuel IH]; intros prev p; simpl; [apply nothrow_diverge|].
  nothrow_tac; auto.
Qed.

(** [erase] throws only from its two checks, before it has changed
    anything. *)
Lemma erase_throw_inv s this pos e s' :
  erase this pos s = Throw e s' →
  e = invalid_iterator ∧ s' = s ∧
  (map_ptr pos ≠ Some this ∨ node pos = None ∨
   ∃ m, maps s !! this = Some m ∧ (node pos = order_tail m ∨ node pos = order_head m)).
Proof.
  unfold erase.
  destruct (bool_decide (map_ptr pos = Some this)) eqn:E1; simpl.
  2:{ intros [= <- <-]. apply bool_decide_eq_false in E1. auto. }
  destruct (bool_decide (node pos = None)) eqn:E2; simpl.
  { intros [= <- <-]. apply bool_decide_eq_true in E2. auto. }
  unfold bind at 1, get_map at 1.
  destruct (maps s !! this) as [m|] eqn:Hm; [|done].
  destruct (bool_decide (node pos = order_tail m)) eqn:E3; simpl.
  { intros [= <- <-]. apply bool_decide_eq_true in E3. eauto 10. }
  destruct (bool_decide (node pos = order_head m)) eqn:E4; simpl.
  { intros [= <- <-]. apply bool_decide_eq_true in E4. eauto 10. }
  intros Hthrow. exfalso. revert Hthrow.
  match goal with |- ?c s = Throw e s' → False => assert (nothrow c) as Hc end; [|apply Hc].
  pose proof nothrow_get_bucket_index. pose proof nothrow_erase_scan.
  nothrow_tac; auto.
Qed.

Lemma erase_throws s this m pos :
  maps s !! this = Some m →
  map_ptr pos ≠ Some this ∨ node pos = None ∨
    node pos = order_tail m ∨ node pos = order_head m →
  erase this pos s = Throw invalid_iterator s.
Proof.
  intros Hm Hc. unfold erase.
  destruct (bool_decide (map_ptr pos = Some this)) eqn:E1; simpl; [|done].
  destruct (bool_decide (node pos = None)) eqn:E2; simpl; [done|].
  rewrite (bind_Ok _ _ _ _ _ (get_map_Ok _ _ _ Hm)).
  apply bool_decide_eq_true in E1. apply bool_decide_eq_false in E2.
  destruct Hc as [?|[?|[Hc|Hc]]]; try done.
  - by rewrite (bool_decide_eq_true_2 _ Hc).
  - rewrite (bool_decide_eq_true_2 (node pos = order_head m) Hc).
    by destruct (bool_decide (node pos = order_tail m)).
Qed.

(** ** Size *)

Lemma size_Ok s this m h t l :
  maps s !! this = Some m → inv s m h t l →
  size_ this s = Ok (Z.of_nat (length l)) s.
Proof.
  intros Hm I. unfold size_. rewrite (bind_Ok _ _ _ _ _ (get_map_Ok _ _ _ Hm)).
  by rewrite (inv_size _ _ _ _ _ I).
Qed.

Lemma empty_Ok s this m h t l :
  maps s !! this = Some m → inv s m h t l →
  empty this s = Ok (bool_decide (l = [])) s.
Proof.
  intros Hm I. unfold empty. rewrite (bind_Ok _ _ _ _ _ (get_map_Ok _ _ _ Hm)).
  rewrite (inv_size _ _ _ _ _ I). unfold ret. f_equal.
  by destruct l.
Qed.

(** ** Misuse of iterators *)

Lemma operator_inc_end s this m :
  maps s !! this = Some m → order_tail m ≠ None →
  operator_inc (mkIter (order_tail m) (Some this)) s = Throw invalid_iterator s ∧
  operator_inc_post (mkIter (order_tail m) (Some this)) s = Throw invalid_iterator s.
Proof.
  intros Hm Ht. unfold operator_inc, operator_inc_post. simpl.
  rewrite (bool_decide_eq_false_2 (order_tail m = None)) by done.
  rewrite !(bind_Ok _ _ _ _ _ (get_map_Ok _ _ _ Hm)).
  by rewrite !bool_decide_eq_true_2.
Qed.

Lemma operator_dec_begin s this m h t l :
  maps s !! this = Some m → inv s m h t l →
  operator_dec (mkIter (Some (hd t (l.*1))) (Some this)) s = Throw invalid_iterator s ∧
  operator_dec_post (mkIter (Some (hd t (l.*1))) (Some this)) s = Throw invalid_iterator s.
Proof.
  intros Hm I. unfold operator_dec, operator_dec_post. simpl.
  rewrite !(bind_Ok _ _ _ _ _ (get_map_Ok _ _ _ Hm)).
  rewrite (inv_head _ _ _ _ _ I).
  destruct (dseg_first _ _ _ _ (inv_order _ _ _ _ _ I)) as [Hn _].
  destruct (get_link_next _ _ _ Hn) as (lk & Hlk & Hlkn).
  rewrite !(bind_Ok _ _ _ _ _ Hlk), Hlkn.
  by rewrite !bool_decide_eq_true_2.
Qed.

Lemma operator_star_sentinel s this m :
  maps s !! this = Some m →
  operator_star (mkIter (order_head m) (Some this)) s = Throw invalid_iterator s ∧
  operator_star (mkIter (order_tail m) (Some this)) s = Throw invalid_iterator s.
Proof.
  intros Hm. unfold operator_star. simpl.
  destruct (bool_decide (order_head m = None)), (bool_decide (order_tail m = None));
    simpl; rewrite ?(bind_Ok _ _ _ _ _ (get_map_Ok _ _ _ Hm));
    rewrite ?(bool_decide_eq_true_2 (order_head m = order_head m)) by done;
    rewrite ?(bool_decide_eq_true_2 (order_tail m = order_tail m)) by done;
    simpl; rewrite ?orb_true_r; done.
Qed.

Lemma null_iterator_throws s it :
  node it = None ∨ map_ptr it = None →
  operator_inc it s = Throw invalid_iterator s ∧
  operator_inc_post it s = Throw invalid_iterator s ∧
  operator_dec it s = Throw invalid_iterator s ∧
  operator_dec_post it s = Throw invalid_iterator s ∧
  operator_star it s = Throw invalid_iterator s.
Proof.
  intros Hn. unfold operator_inc, operator_inc_post, operator_dec, operator_dec_post,
    operator_star.
  assert (bool_decide (map_ptr it = None) || bool_decide (node it = None) = true) as ->.
  { destruct Hn as [Hn|Hn]; rewrite (bool_decide_eq_true_2 _ Hn); [apply orb_true_r|done]. }
  done.
Qed.

(** An entry of another container, reached through an iterator that names
    this container, is not told apart by [ *it]. *)
Lemma operator_star_foreign s this m h t l mo ho to lo e :
  maps s !! this = Some m → inv s m h t l → inv s mo ho to lo →
  (∀ y, y ∈ footprint ho to lo → y ∉ footprint h t l) →
  e ∈ lo →
  operator_star (mkIter (Some e.1) (Some this)) s = Ok e.1 s.
Proof.
  intros Hm I Io Hdisj He. unfold operator_star. simpl.
  rewrite (bind_Ok _ _ _ _ _ (get_map_Ok _ _ _ Hm)).
  rewrite (inv_head _ _ _ _ _ I), (inv_tail _ _ _ _ _ I).
  assert (e.1 ∉ footprint h t l) as Hnin.
  { apply Hdisj. unfold footprint. do 2 right. by apply list_elem_of_fmap_2. }
  unfold footprint in Hnin.
  rewrite !bool_decide_eq_false_2.
  - simpl. eapply data_ref_Ok, (inv_data _ _ _ _ _ Io), He.
  - intros [= Heq]. apply Hnin. rewrite Heq. left.
  - intros [= Heq]. apply Hnin. rewrite Heq. right. left.
Qed.

(** Whatever is inserted, the entries that were there stay where they
    are, in front of the new ones. *)
Lemma insert_all_prefix this h t :
  ∀ kvs s m l,
    maps s !! this = Some m → inv s m h t l →
    Z.of_nat (length l + length kvs) < 2 ^ 53 →
    ∃ s' m' l',
      insert_all this kvs s = Ok tt s' ∧
      maps s' = <[this := m']> (maps s) ∧
      inv s' m' h t (l ++ l').
Proof.
  induction kvs as [|[k v] kvs IH]; intros s m l Hm I Hlen.
  - exists s, m, []. simpl. rewrite app_nil_r. split_and!; try done. by rewrite insert_id.
  - simpl. rewrite Nat2Z.inj_add in Hlen. simpl length in Hlen.
    destruct (has_key_dec l k) as [(e & He & Hk)|Hk].
    + rewrite (bind_Ok _ _ _ _ _ (insert_present _ _ _ _ _ _ _ v _ Hm I He Hk)).
      apply (IH s m l); [done|done|]. rewrite Nat2Z.inj_add. lia.
    + destruct (insert_absent s this m h t l k v Hm I Hk ltac:(lia))
        as (s1 & m1 & x & Hrun1 & Hx & Hmaps1 & I1 & _).
      rewrite (bind_Ok _ _ _ _ _ Hrun1).
      destruct (IH s1 m1 (l ++ [(x, (k, v))])) as (s' & m' & l' & Hrun & Hmaps & I').
      * by rewrite Hmaps1, lookup_insert_eq.
      * done.
      * rewrite length_app, !Nat2Z.inj_add. simpl. lia.
      * exists s', m', ((x, (k, v)) :: l'). rewrite <- app_assoc in I'.
        split_and!; try done. by rewrite Hmaps, Hmaps1, insert_insert_eq.
Qed.

(** ** Copies, object by object *)

Lemma frame_total F s s' :
  frame F s s' →
  (∀ y, is_Some (objs s' !! y) → is_Some (objs s !! y)) →
  ∀ y, y ∉ F → objs s' !! y = objs s !! y.
Proof.
  intros Hfr Hsub y Hy.
  destruct (objs s !! y) as [o|] eqn:E.
  - rewrite <- E. apply Hfr; [done|]. apply elem_of_dom. by rewrite E.
  - destruct (objs s' !! y) as [o'|] eqn:E'; [|done].
    destruct (Hsub y) as [? ?]; [by rewrite E'|congruence].
Qed.

Lemma copy_into_empty_heap s this other m h t mo ho to lo :
  this ≠ other →
  maps s !! other = Some mo → inv s mo ho to lo →
  maps s !! this = Some m → inv s m h t [] →
  (∀ y, y ∈ footprint ho to lo → y ≠ h ∧ y ≠ t) →
  ∃ s' m' l',
    (let* it := cbegin other in
     let* fuel := get_fuel in
     copy_loop fuel this other it) s = Ok tt s' ∧
    maps s' = <[this := m']> (maps s) ∧
    inv s' m' h t l' ∧ l'.*2 = lo.*2 ∧
    inv s' mo ho to lo ∧
    (∀ e, e ∈ l' → objs s !! e.1 = None) ∧
    (∀ y, y ∉ footprint h t l' → objs s' !! y = objs s !! y) ∧
    (bucket_capacity m = bucket_capacity mo → bucket_capacity m' = bucket_capacity mo).
Proof.
  intros Hne Hmo Io Hm I Hdisj.
  unfold cbegin. rewrite (bind_Ok _ _ _ _ _ (begin_Ok _ _ _ _ _ _ Hmo Io)).
  unfold get_fuel at 1, bind at 1.
  destruct (copy_loop_spec this other mo ho to lo h t Hne lo [] s m [] (hd to lo.*1) (fuel_of s))
    as (s' & m' & l' & Hrun & Hmaps & I' & Hl' & Io' & _ & _ & Hfresh & Htot & Hcap);
    try done.
  - intros y Hy. unfold footprint. simpl. destruct (Hdisj y Hy) as [? ?].
    intros [->|[->|?%elem_of_nil]%elem_of_cons]%elem_of_cons; done.
  - by eapply inv_fwd.
  - intros e _ (e' & ?%elem_of_nil & _). done.
  - simpl. rewrite <- (inv_size _ _ _ _ _ Io). apply (inv_small _ _ _ _ _ Io).
  - by eapply inv_fuel.
  - exists s', m', l'. split_and!; try done. intros Hceq. by apply Hcap.
Qed.

Lemma entry_not_sentinel s m h t l e :
  inv s m h t l → e ∈ l → e.1 ≠ h ∧ e.1 ≠ t.
Proof.
  intros I He. pose proof (inv_nodup _ _ _ _ _ I) as Hnd.
  apply NoDup_cons in Hnd as [Hh [Ht _]%NoDup_cons].
  apply (list_elem_of_fmap_2 fst) in He.
  split; intros Heq; rewrite Heq in He; [apply Hh; by right|by apply Ht].
Qed.

Lemma copy_ctor_heap s this other mo ho to lo :
  this ≠ other →
  maps s !! other = Some mo → inv s mo ho to lo →
  ∃ s' m' h t l',
    copy_ctor this other s = Ok tt s' ∧
    maps s' = <[this := m']> (maps s) ∧
    inv s' m' h t l' ∧ l'.*2 = lo.*2 ∧
    inv s' mo ho to lo ∧
    outside (footprint h t l') s s' ∧
    bucket_capacity m' = bucket_capacity mo.
Proof.
  intros Hne Hmo Io. unfold copy_ctor.
  rewrite (bind_Ok _ _ _ _ _ (get_map_Ok _ _ _ Hmo)).
  unfold put_map at 1, bind at 1.
  set (m0 := mkMap [] None None (bucket_capacity mo) 0).
  destruct (init_spec (set_map this m0 s) this m0)
    as (s1 & m1 & h & t & Hrun1 & Hmaps1 & I1 & Hh & Ht & Hsame1 & Hcap1).
  { unfold set_map. simpl. by rewrite lookup_insert_eq. }
  { done. }
  { apply (inv_pow _ _ _ _ _ Io). }
  { apply (inv_cap _ _ _ _ _ Io). }
  rewrite (bind_Ok_seq _ _ _ _ _ _ Hrun1).
  simpl in Hmaps1, Hh, Ht, Hsame1. rewrite insert_insert_eq in Hmaps1.
  assert (∀ y, y ∈ footprint ho to lo → y ≠ h ∧ y ≠ t) as Hlive.
  { intros y Hy. apply (inv_live _ _ _ _ _ Io) in Hy as [o Hy].
    split; intros ->; congruence. }
  destruct (copy_into_empty_heap s1 this other m1 h t mo ho to lo Hne)
    as (s' & m' & l' & Hrun & Hmaps & I' & Hl' & Io' & Hfresh & Htot & Hcap); try done.
  - by rewrite Hmaps1, lookup_insert_ne.
  - apply (inv_frame s); [done|]. intros y Hy.
    destruct (Hlive y Hy). by rewrite Hsame1.
  - by rewrite Hmaps1, lookup_insert_eq.
  - rewrite Hrun. exists s', m', h, t, l'. split_and!; try done.
    + by rewrite Hmaps, Hmaps1, insert_insert_eq.
    + split.
      * intros y Hy. unfold footprint in Hy. rewrite !elem_of_cons in Hy.
        destruct Hy as [->|[->|(e & -> & He)%list_elem_of_fmap]]; [done..|].
        destruct (entry_not_sentinel _ _ _ _ _ _ I' He).
        rewrite <- Hsame1 by done. by apply Hfresh.
      * intros y Hy. rewrite Htot by done. apply Hsame1; intros ->; apply Hy;
          unfold footprint; set_solver.
    + by apply Hcap.
Qed.


(** * The claims *)

(** C1.  Inserting a key that is already in the map returns the iterator to
    the entry that is there together with [false], and the memory after the
    call is the memory before it: value, position in the order list, size
    and order list are untouched (a traversal after the call sees the
    entries it saw before). *)
Theorem C1_insert_existing_key s this m h t l k v e :
  maps s !! this = Some m → inv s m h t l →
  e ∈ l → key_equal e.2.1 k = true →
  insert this (k, v) s = Ok (mkIter (Some e.1) (Some this), false) s ∧
  (insert this (k, v) ;;; traverse this) s = Ok (l.*2) s ∧
  (insert this (k, v) ;;; size_ this) s = Ok (Z.of_nat (length l)) s.
Proof.
  intros Hm I He Hk.
  pose proof (insert_present s this m h t l k v e Hm I He Hk) as Hins.
  split_and!; [done| |].
  - rewrite (bind_Ok _ _ _ _ _ Hins). by eapply traverse_spec.
  - rewrite (bind_Ok _ _ _ _ _ Hins). by eapply size_Ok.
Qed.

(** C2.  Inserting pairwise different keys into a freshly constructed map
    and then iterating from [begin()] to [end()] visits exactly those
    entries in the order of insertion; and every insert of a new key links
    the new entry between the former last object and the tail sentinel. *)
Theorem C2_insertion_order this :
  (∀ kvs s0,
     distinct_keys kvs → Z.of_nat (length kvs) ≤ 2 ^ 53 →
     ∃ s, (ctor this ;;; insert_all this kvs ;;; traverse this) s0 = Ok kvs s) ∧
  (∀ s m h t l k v,
     maps s !! this = Some m → inv s m h t l →
     ¬ has_key l k → Z.of_nat (length l) < 2 ^ 53 →
     ∃ s' x,
       insert this (k, v) s = Ok (mkIter (Some x) (Some this), true) s' ∧
       objs s !! x = None ∧
       next_at s' x = Some (Some t) ∧ prev_at s' t = Some (Some x) ∧
       prev_at s' x = Some (Some (last_of h (l.*1))) ∧
       next_at s' (last_of h (l.*1)) = Some (Some x) ∧
       traverse this s' = Ok (l.*2 ++ [(k, v)]) s').
Proof.
  split.
  - intros kvs s0 Hd Hlen.
    destruct (ctor_spec s0 this) as (s1 & m1 & h & t & Hrun1 & Hmaps1 & I1 & _).
    rewrite (bind_Ok _ _ _ _ _ Hrun1).
    destruct (insert_all_spec this h t kvs s1 m1 [])
      as (s' & m' & l' & Hrun & Hmaps & I' & Hl'); try done.
    + by rewrite Hmaps1, lookup_insert_eq.
    + intros kv _ (e & ?%elem_of_nil & _). done.
    + rewrite (bind_Ok _ _ _ _ _ Hrun). exists s'. rewrite <- Hl'.
      eapply traverse_spec; [|done]. by rewrite Hmaps, lookup_insert_eq.
  - intros s m h t l k v Hm I Hk Hlen.
    destruct (insert_absent s this m h t l k v Hm I Hk Hlen)
      as (s' & m' & x & Hrun & Hx & Hmaps & I' & _).
    exists s', x. split; [done|]. split; [done|].
    pose proof (inv_order _ _ _ _ _ I') as Hd. rewrite fmap_app in Hd. simpl in Hd.
    apply dseg_app in Hd as [Hd1 [Hd2 Hd3]].
    destruct (dseg_last _ _ _ _ Hd1) as [Hd4 Hd5].
    split_and!; try done.
    erewrite traverse_spec; [|by rewrite Hmaps, lookup_insert_eq|done].
    by rewrite fmap_app.
Qed.


(** C4.  [rehash] changes the bucket array, the capacity and
    [next_in_bucket] fields, and nothing else: the same objects live at the
    same addresses with the same order links, keys and values, and the
    sentinels and the count of the container are as before.  So after any
    sequence of inserts, growing or not, every entry that was in the map is
    found by [find] at its old address with its old value, and the
    iteration order starts with the old order. *)
Theorem C4_rehash_frame this :
  (∀ s m h t l,
     maps s !! this = Some m → inv s m h t l → bucket_capacity m * 2 < 2 ^ 55 →
     ∃ s' m',
       rehash this s = Ok tt s' ∧ maps s' = <[this := m']> (maps s) ∧
       chain_blind s s' ∧
       order_head m' = order_head m ∧ order_tail m' = order_tail m ∧
       num_elements m' = num_elements m ∧
       bucket_capacity m' = 2 * bucket_capacity m ∧
       inv s' m' h t l) ∧
  (∀ s m h t l kvs,
     maps s !! this = Some m → inv s m h t l →
     Z.of_nat (length l + length kvs) < 2 ^ 53 →
     ∃ s' l',
       insert_all this kvs s = Ok tt s' ∧
       (∀ e, e ∈ l →
          find this e.2.1 s' = Ok (mkIter (Some e.1) (Some this)) s' ∧
          read_data e.1 s' = Ok e.2 s') ∧
       traverse this s' = Ok (l.*2 ++ l') s').
Proof.
  split.
  - intros s m h t l Hm I Hcap.
    destruct (rehash_spec s this m h t l Hm I Hcap) as (s' & b & Hrun & Hmaps & Hb & _ & I').
    eexists s', _. split_and!; try done. simpl. lia.
  - intros s m h t l kvs Hm I Hlen.
    destruct (insert_all_prefix this h t kvs s m l Hm I Hlen)
      as (s' & m' & l' & Hrun & Hmaps & I').
    assert (maps s' !! this = Some m') as Hm' by (by rewrite Hmaps, lookup_insert_eq).
    exists s', (l'.*2). split_and!; [done| |].
    + intros e He. assert (e ∈ l ++ l') as He' by (apply elem_of_app; by left). split.
      * by eapply find_present.
      * apply read_data_Ok. by apply (inv_data _ _ _ _ _ I').
    + erewrite traverse_spec; [|done..]. by rewrite fmap_app.
Qed.

(** C5.  [at] (and the const [operator[]], which calls it) raises
    [index_out_of_bound] exactly when no entry has the key; when an entry
    has it, the result is a reference to that entry; either way the memory
    is the one before the call. *)
Theorem C5_at_bounds this s m h t l k :
  maps s !! this = Some m → inv s m h t l →
  (at_ this k s = Throw index_out_of_bound s ↔ ¬ has_key l k) ∧
  (∀ e, e ∈ l → key_equal e.2.1 k = true →
     at_ this k s = Ok e.1 s ∧ read_data e.1 s = Ok e.2 s) ∧
  index_const this k s = at_ this k s.
Proof.
  intros Hm I. split_and!; [| |done].
  - split.
    + intros Hthrow (e & He & Hk).
      rewrite (at_present _ _ _ _ _ _ _ _ Hm I He Hk) in Hthrow. done.
    + by eapply at_absent.
  - intros e He Hk. split; [by eapply at_present|].
    apply read_data_Ok. by apply (inv_data _ _ _ _ _ I).
Qed.

(** C6.  The mutating [operator[]] on a key that is not in the map inserts
    it with the default value at the end of the order list, the count grows
    by one, and a write through the returned reference is what a later
    [at] of the key reads; on a key that is in the map it returns the
    reference to the entry and changes nothing. *)
Theorem C6_index_operator this s m h t l k :
  maps s !! this = Some m → inv s m h t l →
  Z.of_nat (length l) < 2 ^ 53 →
  (¬ has_key l k →
     ∃ s' m' x,
       index this k s = Ok x s' ∧ maps s' !! this = Some m' ∧
       inv s' m' h t (l ++ [(x, (k, T_default))]) ∧
       num_elements m' = num_elements m + 1 ∧
       traverse this s' = Ok (l.*2 ++ [(k, T_default)]) s' ∧
       ∀ v, ∃ s'',
         write_second x v s' = Ok tt s'' ∧
         at_ this k s'' = Ok x s'' ∧ read_data x s'' = Ok (k, v) s'') ∧
  (∀ e, e ∈ l → key_equal e.2.1 k = true →
     index this k s = Ok e.1 s ∧ read_data e.1 s = Ok e.2 s).
Proof.
  intros Hm I Hlen. split.
  - intros Hk.
    destruct (index_absent s this m h t l k Hm I Hk Hlen)
      as (s' & m' & x & Hrun & Hx & Hmaps & I' & _).
    assert (maps s' !! this = Some m') as Hm' by (by rewrite Hmaps, lookup_insert_eq).
    exists s', m', x. split_and!; try done.
    + rewrite (inv_size _ _ _ _ _ I'), (inv_size _ _ _ _ _ I), length_app. simpl. lia.
    + erewrite traverse_spec; [|done..]. by rewrite fmap_app.
    + intros v.
      destruct (write_second_spec s' m' h t l x k T_default [] v I')
        as (s'' & Hw & Hmaps'' & I'' & _).
      assert (maps s'' !! this = Some m') as Hm'' by (by rewrite Hmaps'').
      assert ((x, (k, v)) ∈ l ++ [(x, (k, v))]) as Hin by (apply elem_of_app; right; left).
      exists s''. split_and!; [done| |].
      * by apply (at_present s'' this m' h t _ k (x, (k, v)) Hm'' I'' Hin).
      * apply read_data_Ok. apply (inv_data _ _ _ _ _ I'' _ Hin).
  - intros e He Hk. split; [by eapply index_present|].
    apply read_data_Ok. by apply (inv_data _ _ _ _ _ I).
Qed.

(** C7, as the code has it.  [++] on [end()], [--] on [begin()], and [ *]
    on the head sentinel, on the tail sentinel and on an iterator whose node
    or container is null raise [invalid_iterator].  [operator->] never
    raises anything, and [ *] on an entry of another container, through an
    iterator that names this one, returns that entry. *)
Theorem C7_iterator_misuse this s m h t l :
  maps s !! this = Some m → inv s m h t l →
  let e := mkIter (Some t) (Some this) in
  let b := mkIter (Some (hd t (l.*1))) (Some this) in
  end_ this s = Ok e s ∧ begin_ this s = Ok b s ∧
  operator_inc e s = Throw invalid_iterator s ∧
  operator_inc_post e s = Throw invalid_iterator s ∧
  operator_dec b s = Throw invalid_iterator s ∧
  operator_dec_post b s = Throw invalid_iterator s ∧
  operator_star (mkIter (Some h) (Some this)) s = Throw invalid_iterator s ∧
  operator_star e s = Throw invalid_iterator s ∧
  (∀ it, node it = None ∨ map_ptr it = None →
     operator_inc it s = Throw invalid_iterator s ∧
     operator_inc_post it s = Throw invalid_iterator s ∧
     operator_dec it s = Throw invalid_iterator s ∧
     operator_dec_post it s = Throw invalid_iterator s ∧
     operator_star it s = Throw invalid_iterator s) ∧
  (∀ it, nothrow (operator_arrow it)) ∧
  (∀ mo ho to lo x,
     inv s mo ho to lo →
     (∀ y, y ∈ footprint ho to lo → y ∉ footprint h t l) →
     x ∈ lo →
     operator_star (mkIter (Some x.1) (Some this)) s = Ok x.1 s).
Proof.
  intros Hm I e b.
  pose proof (inv_head _ _ _ _ _ I) as Hh. pose proof (inv_tail _ _ _ _ _ I) as Ht.
  destruct (operator_inc_end s this m Hm) as [H1 H2]; [by rewrite Ht|].
  destruct (operator_dec_begin s this m h t l Hm I) as [H3 H4].
  destruct (operator_star_sentinel s this m Hm) as [H5 H6].
  rewrite Ht in H1, H2, H6. rewrite Hh in H5.
  split_and!; try done.
  - by eapply end_Ok.
  - by eapply begin_Ok.
  - intros it Hit. apply (null_iterator_throws s it Hit).
  - apply nothrow_operator_arrow.
  - intros mo ho to lo x Io Hdisj Hx. by eapply operator_star_foreign.
Qed.

(** C8, as the code has it.  [erase] raises [invalid_iterator], with the
    memory unchanged, when the iterator belongs to another container, is
    null, or is at [end()] or at the head sentinel, and in no other case.
    On an iterator to an entry it removes that entry and no other, frees
    it, and the count drops by one; the other entries keep their order.
    [size()] is the number of entries the map holds at the time, not a
    count of the keys ever inserted: an insert of a key that is not in the
    map adds one to it, also when the key was in the map before and has
    been erased; [clear] sets it to zero; and after any run of operations
    on a new map it is the length of the list the model holds.  [empty()]
    holds exactly for size zero. *)
Theorem C8_erase this s m h t l :
  maps s !! this = Some m → inv s m h t l →
  (∀ pos,
     map_ptr pos ≠ Some this ∨ node pos = None ∨ node pos = Some t ∨ node pos = Some h →
     erase this pos s = Throw invalid_iterator s) ∧
  (∀ pos ex s',
     erase this pos s = Throw ex s' →
     ex = invalid_iterator ∧ s' = s ∧
     (map_ptr pos ≠ Some this ∨ node pos = None ∨ node pos = Some t ∨ node pos = Some h)) ∧
  (∀ l1 e l2, l = l1 ++ e :: l2 →
     ∃ s' m',
       erase this (mkIter (Some e.1) (Some this)) s = Ok tt s' ∧
       maps s' !! this = Some m' ∧ inv s' m' h t (l1 ++ l2) ∧
       objs s' !! e.1 = None ∧
       num_elements m' = num_elements m - 1 ∧
       traverse this s' = Ok (l1.*2 ++ l2.*2) s' ∧
       size_ this s' = Ok (Z.of_nat (length l) - 1) s') ∧
  (∀ k v, Z.of_nat (length l) < 2 ^ 53 →
     ∃ r s' m',
       insert this (k, v) s = Ok r s' ∧ maps s' !! this = Some m' ∧
       num_elements m' = num_elements m + (if r.2 then 1 else 0)) ∧
  size_ this s = Ok (Z.of_nat (length l)) s ∧
  empty this s = Ok (Z.of_nat (length l) =? 0) s ∧
  (∃ s', clear this s = Ok tt s' ∧ size_ this s' = Ok 0 s' ∧ empty this s' = Ok true s') ∧
  (∀ os s0, Z.of_nat (length os) < 2 ^ 53 →
     ∃ s', (ctor this ;;; run_ops this os) s0 = Ok tt s' ∧
           size_ this s' = Ok (Z.of_nat (length (al_run os))) s' ∧
           empty this s' = Ok (Z.of_nat (length (al_run os)) =? 0) s').
Proof.
  intros Hm I.
  pose proof (inv_head _ _ _ _ _ I) as Hh. pose proof (inv_tail _ _ _ _ _ I) as Ht.
  assert (∀ s1 m1 h1 t1 l1, maps s1 !! this = Some m1 → inv s1 m1 h1 t1 l1 →
            empty this s1 = Ok (Z.of_nat (length l1) =? 0) s1) as Hempty.
  { intros s1 m1 h1 t1 l1 Hm1 I1. unfold empty.
    rewrite (bind_Ok _ _ _ _ _ (get_map_Ok _ _ _ Hm1)).
    by rewrite (inv_size _ _ _ _ _ I1). }
  split_and!.
  - intros pos Hc. apply (erase_throws s this m pos Hm). rewrite Hh, Ht. tauto.
  - intros pos ex s' Hthrow.
    destruct (erase_throw_inv _ _ _ _ _ Hthrow) as (-> & -> & Hc).
    split_and!; [done..|].
    destruct Hc as [?|[?|(m0 & Hm0 & Hc)]]; [tauto..|].
    assert (m0 = m) as -> by congruence. rewrite Hh, Ht in Hc. tauto.
  - intros l1 e l2 ->.
    destruct (erase_spec s this m h t l1 e l2 Hm I)
      as (s' & m' & Hrun & Hmaps & I' & Hgone & _ & _ & Hnum & _).
    assert (maps s' !! this = Some m') as Hm' by (by rewrite Hmaps, lookup_insert_eq).
    exists s', m'. split_and!; try done.
    + erewrite traverse_spec; [|done..]. by rewrite fmap_app.
    + erewrite size_Ok; [|done..]. f_equal. rewrite !length_app. simpl. lia.
  - intros k v Hlen.
    destruct (has_key_dec l k) as [(e & He & Hk)|Hk].
    + eexists _, s, m. split; [by eapply insert_present|]. simpl. split; [done|lia].
    + destruct (insert_absent s this m h t l k v Hm I Hk Hlen)
        as (s' & m' & x & Hrun & Hx & Hmaps & I' & _).
      eexists _, s', m'. split; [done|]. simpl.
      split; [by rewrite Hmaps, lookup_insert_eq|].
      rewrite (inv_size _ _ _ _ _ I'), (inv_size _ _ _ _ _ I), length_app. simpl. lia.
  - by eapply size_Ok.
  - by eapply Hempty.
  - destruct (clear_spec s this m h t l Hm I) as (s' & m' & Hrun & Hmaps & I' & _).
    assert (maps s' !! this = Some m') as Hm' by (by rewrite Hmaps, lookup_insert_eq).
    exists s'. split_and!; [done| |].
    + by apply (size_Ok s' this m' h t []).
    + by apply (Hempty s' m' h t []).
  - intros os s0 Hlen.
    destruct (ctor_spec s0 this) as (s1 & m1 & h1 & t1 & Hrun1 & Hmaps1 & I1 & _).
    rewrite (bind_Ok _ _ _ _ _ Hrun1).
    destruct (run_ops_spec this h1 t1 os s1 m1 [])
      as (s' & m' & l' & Hrun & Hmaps & I' & Hal & _); try done.
    { by rewrite Hmaps1, lookup_insert_eq. }
    assert (maps s' !! this = Some m') as Hm' by (by rewrite Hmaps, lookup_insert_eq).
    change (l'.*2 = al_run os) in Hal.
    exists s'. rewrite <- Hal, length_fmap. split_and!; [done| |].
    + by eapply size_Ok.
    + by eapply Hempty.
Qed.

(** C9.  Insert [A], [B], [C], erase [B], insert [B] again: the iteration
    order is [A], [C], [B]. *)
Theorem C9_reinsert_after_erase this s0 ka va kb vb kc vc vb' :
  key_equal ka kb = false → key_equal ka kc = false → key_equal kb kc = false →
  ∃ s,
    (ctor this ;;;
     run_ops this [OInsert (ka, va); OInsert (kb, vb); OInsert (kc, vc);
                   OErase kb; OInsert (kb, vb')] ;;;
     traverse this) s0 = Ok [(ka, va); (kc, vc); (kb, vb')] s.
Proof.
  intros Hab Hac Hbc.
  assert (key_equal kb ka = false) as Hba.
  { destruct (key_equal kb ka) eqn:E; [|done]. apply key_equal_sym in E. congruence. }
  assert (key_equal kc ka = false) as Hca.
  { destruct (key_equal kc ka) eqn:E; [|done]. apply key_equal_sym in E. congruence. }
  assert (key_equal kc kb = false) as Hcb.
  { destruct (key_equal kc kb) eqn:E; [|done]. apply key_equal_sym in E. congruence. }
  destruct (ctor_spec s0 this) as (s1 & m1 & h & t & Hrun1 & Hmaps1 & I1 & _).
  rewrite (bind_Ok _ _ _ _ _ Hrun1).
  destruct (run_ops_spec this h t
              [OInsert (ka, va); OInsert (kb, vb); OInsert (kc, vc);
               OErase kb; OInsert (kb, vb')] s1 m1 [])
    as (s' & m' & l' & Hrun & Hmaps & I' & Hal & _); try done.
  { by rewrite Hmaps1, lookup_insert_eq. }
  rewrite (bind_Ok _ _ _ _ _ Hrun). exists s'.
  erewrite traverse_spec; [|by rewrite Hmaps, lookup_insert_eq|done].
  rewrite Hal. simpl.
  repeat (first [rewrite Hab | rewrite Hac | rewrite Hbc | rewrite Hba | rewrite Hca
                | rewrite Hcb | rewrite key_equal_refl]; simpl).
  done.
Qed.

(** C10.  The copy constructor and the assignment operator give [this] the
    entries of [other] in the order of [other], held in objects of its own:
    nothing that was live before the copy changes.  Whatever is then done
    to one of two containers that share no object leaves every object of
    the other, and so its entries and their order, as they were.
    Assigning a container to itself returns at once. *)
Theorem C10_copy_independent this other s mo ho to lo :
  this ≠ other →
  maps s !! other = Some mo → inv s mo ho to lo →
  (∃ s' m' h t l',
     copy_ctor this other s = Ok tt s' ∧
     maps s' !! this = Some m' ∧ inv s' m' h t l' ∧ l'.*2 = lo.*2 ∧
     maps s' !! other = Some mo ∧ inv s' mo ho to lo ∧
     (∀ y, y ∈ footprint ho to lo → y ∉ footprint h t l') ∧
     (∀ y, y ∈ dom (objs s) → objs s' !! y = objs s !! y) ∧
     traverse this s' = Ok (lo.*2) s' ∧ traverse other s' = Ok (lo.*2) s') ∧
  (∀ m h t l,
     maps s !! this = Some m → inv s m h t l →
     (∀ y, y ∈ footprint ho to lo → y ∉ footprint h t l) →
     ∃ s' m' h' t' l',
       assign this other s = Ok tt s' ∧
       maps s' !! this = Some m' ∧ inv s' m' h' t' l' ∧ l'.*2 = lo.*2 ∧
       maps s' !! other = Some mo ∧ inv s' mo ho to lo ∧
       (∀ y, y ∈ footprint ho to lo → y ∉ footprint h' t' l') ∧
       (∀ y, y ∈ footprint ho to lo → objs s' !! y = objs s !! y) ∧
       traverse this s' = Ok (lo.*2) s' ∧ traverse other s' = Ok (lo.*2) s') ∧
  (∀ m h t l os,
     maps s !! this = Some m → inv s m h t l →
     (∀ y, y ∈ footprint ho to lo → y ∉ footprint h t l) →
     Z.of_nat (length l + length os) < 2 ^ 53 →
     ∃ s' m' l',
       run_ops this os s = Ok tt s' ∧
       maps s' !! this = Some m' ∧ inv s' m' h t l' ∧
       maps s' !! other = Some mo ∧ inv s' mo ho to lo ∧
       (∀ y, y ∈ footprint ho to lo → y ∉ footprint h t l') ∧
       (∀ y, y ∈ footprint ho to lo → objs s' !! y = objs s !! y) ∧
       traverse other s' = Ok (lo.*2) s') ∧
  assign other other s = Ok tt s.
Proof.
  intros Hne Hmo Io.
  assert (∀ y, y ∈ footprint ho to lo → y ∈ dom (objs s)) as Hlive.
  { intros y Hy. apply elem_of_dom. by apply (inv_live _ _ _ _ _ Io). }
  split_and!.
  - destruct (copy_ctor_spec s this other mo ho to lo Hne Hmo Io)
      as (s' & m' & h & t & l' & Hrun & Hmaps & I' & Hl' & Io' & Hdisj & Hsame).
    assert (maps s' !! this = Some m') as Hm' by (by rewrite Hmaps, lookup_insert_eq).
    assert (maps s' !! other = Some mo) as Hmo' by (by rewrite Hmaps, lookup_insert_ne).
    exists s', m', h, t, l'. split_and!; try done.
    + rewrite <- Hl'. by eapply traverse_spec.
    + by eapply traverse_spec.
  - intros m h t l Hm I Hdisj.
    destruct (assign_spec s this other m h t l mo ho to lo Hne Hm I Hmo Io Hdisj)
      as (s' & m' & h' & t' & l' & Hrun & Hmaps & I' & Hl' & Io' & Hdisj' & Hfr).
    assert (maps s' !! this = Some m') as Hm' by (by rewrite Hmaps, lookup_insert_eq).
    assert (maps s' !! other = Some mo) as Hmo' by (by rewrite Hmaps, lookup_insert_ne).
    exists s', m', h', t', l'. split_and!; try done.
    + intros y Hy. apply Hfr; [by apply Hdisj|by apply Hlive].
    + rewrite <- Hl'. by eapply traverse_spec.
    + by eapply traverse_spec.
  - intros m h t l os Hm I Hdisj Hlen.
    destruct (run_ops_spec this h t os s m l Hm I Hlen)
      as (s' & m' & l' & Hrun & Hmaps & I' & _ & Hfr & Hnew).
    assert (maps s' !! this = Some m') as Hm' by (by rewrite Hmaps, lookup_insert_eq).
    assert (maps s' !! other = Some mo) as Hmo' by (by rewrite Hmaps, lookup_insert_ne).
    assert (inv s' mo ho to lo) as Io' by (by eapply frame_other).
    exists s', m', l'. split_and!; try done.
    + intros y Hy Hin. destruct (Hnew y Hin) as [Hin'|Hnone].
      * by apply (Hdisj y).
      * apply Hlive, elem_of_dom in Hy as [? ?]. congruence.
    + intros y Hy. apply Hfr; [by apply Hdisj|by apply Hlive].
    + by eapply traverse_spec.
  - unfold assign. by rewrite bool_decide_eq_true_2.
Qed.

(** * Further properties of the member functions *)


Lemma entry_iter_ne s m h t l e this :
  inv s m h t l → e ∈ l →
  iterator_eq (mkIter (Some e.1) (Some this)) (mkIter (Some t) (Some this)) = false.
Proof.
  intros I He. unfold iterator_eq. simpl.
  rewrite bool_decide_eq_false_2; [done|].
  intros [= Heq]. by apply (inv_entry_ne_tail _ _ _ _ _ _ I He).
Qed.

Lemma same_key_same_entry s m h t l e e' k :
  inv s m h t l → e ∈ l → e' ∈ l →
  key_equal e.2.1 k = true → key_equal e'.2.1 k = true → e = e'.
Proof.
  intros I He He' Hk Hk'. apply (inv_keys _ _ _ _ _ I); [done..|].
  eapply key_equal_trans; [exact Hk|]. by apply key_equal_sym.
Qed.

(** X1.  [find] changes nothing.  It returns [end()] exactly when no entry
    has a key equal to the one asked for; otherwise it returns the iterator
    to the one entry with such a key, and dereferencing that iterator gives
    the entry. *)
Theorem find_result this s m h t l k :
  maps s !! this = Some m → inv s m h t l →
  ∃ it,
    find this k s = Ok it s ∧
    end_ this s = Ok (mkIter (Some t) (Some this)) s ∧
    (it = mkIter (Some t) (Some this) ↔ ¬ has_key l k) ∧
    (∀ e, e ∈ l → key_equal e.2.1 k = true →
       it = mkIter (Some e.1) (Some this) ∧
       operator_star it s = Ok e.1 s ∧ read_data e.1 s = Ok e.2 s).
Proof.
  intros Hm I.
  pose proof (end_Ok _ _ _ _ _ _ Hm I) as Hend.
  destruct (has_key_dec l k) as [(e0 & He0 & Hk0)|Hk].
  - exists (mkIter (Some e0.1) (Some this)). split_and!; [by eapply find_present|done| |].
    + split.
      * intros [= Heq]. by destruct (inv_entry_ne_tail _ _ _ _ _ _ I He0).
      * intros Hn. destruct Hn. by exists e0.
    + intros e He Hke.
      assert (e = e0) as -> by (by eapply same_key_same_entry).
      split_and!; [done|by eapply operator_star_Ok|].
      apply read_data_Ok. by apply (inv_data _ _ _ _ _ I).
  - exists (mkIter (Some t) (Some this)). split_and!; [by eapply find_absent|done|done|].
    intros e He Hke. destruct Hk. by exists e.
Qed.

(** X2.  [count] is [1] when an entry has the key and [0] when none has. *)
Theorem count_zero_or_one this s m h t l k :
  maps s !! this = Some m → inv s m h t l →
  (has_key l k → count this k s = Ok 1 s) ∧
  (¬ has_key l k → count this k s = Ok 0 s).
Proof.
  intros Hm I. pose proof (end_Ok _ _ _ _ _ _ Hm I) as Hend. split.
  - intros (e & He & Hk). unfold count, cend.
    rewrite (bind_Ok _ _ _ _ _ (find_present _ _ _ _ _ _ _ _ Hm I He Hk)).
    rewrite (bind_Ok _ _ _ _ _ Hend).
    by rewrite (entry_iter_ne _ _ _ _ _ _ _ I He).
  - intros Hk. unfold count, cend.
    rewrite (bind_Ok _ _ _ _ _ (find_absent _ _ _ _ _ _ _ Hm I Hk)).
    rewrite (bind_Ok _ _ _ _ _ Hend).
    unfold iterator_eq. simpl. by rewrite !bool_decide_eq_true_2.
Qed.

(** X3.  [clear] frees every entry and nothing else, keeps the two
    sentinels and the capacity (a table that has grown does not shrink),
    and leaves an empty map: size [0], [begin() == end()], nothing to
    traverse and no key to find. *)
Theorem clear_empties this s m h t l :
  maps s !! this = Some m → inv s m h t l →
  ∃ s' m',
    clear this s = Ok tt s' ∧ maps s' !! this = Some m' ∧
    inv s' m' h t [] ∧
    bucket_capacity m' = bucket_capacity m ∧
    (∀ e, e ∈ l → objs s' !! e.1 = None) ∧
    (∀ y, y ∉ footprint h t l → objs s' !! y = objs s !! y) ∧
    size_ this s' = Ok 0 s' ∧ empty this s' = Ok true s' ∧
    traverse this s' = Ok [] s' ∧
    begin_ this s' = end_ this s' ∧
    (∀ k, find this k s' = end_ this s').
Proof.
  intros Hm I.
  destruct (clear_spec s this m h t l Hm I)
    as (s' & m' & Hrun & Hmaps & I' & Hgone & Hfr & Hsub & Hcap).
  assert (maps s' !! this = Some m') as Hm' by (by rewrite Hmaps, lookup_insert_eq).
  pose proof (end_Ok _ _ _ _ _ _ Hm' I') as Hend.
  exists s', m'. split_and!; try done.
  - by apply frame_total.
  - by apply (size_Ok s' this m' h t []).
  - by apply (empty_Ok s' this m' h t []).
  - by apply (traverse_spec s' this m' h t []).
  - rewrite Hend. by apply (begin_Ok s' this m' h t []).
  - intros k. rewrite Hend. eapply find_absent; [done..|].
    intros (e & ?%elem_of_nil & _). done.
Qed.

Lemma begin_not_after s m h t l1 e l2 :
  inv s m h t (l1 ++ e :: l2) →
  hd t (l2.*1) ≠ hd t ((l1 ++ e :: l2).*1).
Proof.
  intros I.
  destruct (inv_split_order _ _ _ _ _ _ _ I)
    as (_ & _ & _ & _ & _ & _ & _ & Hb & _ & _ & Hdisj & _ & He).
  simpl in Hb. intros Heq. rewrite fmap_app, fmap_cons in Heq.
  destruct l1 as [|e1 l1]; simpl in Heq.
  - apply He. by rewrite <- Heq.
  - apply (Hdisj e1.1); [right; left|]. by rewrite <- Heq.
Qed.

Lemma operator_inc_entry s this m h t l1 e l2 :
  maps s !! this = Some m → inv s m h t (l1 ++ e :: l2) →
  let it := mkIter (Some e.1) (Some this) in
  let nx := mkIter (Some (hd t (l2.*1))) (Some this) in
  operator_inc it s = Ok nx s ∧ operator_inc_post it s = Ok (it, nx) s.
Proof.
  intros Hm I it nx.
  destruct (inv_split_order _ _ _ _ _ _ _ I) as (_ & _ & _ & _ & Hn & _).
  assert (e.1 ≠ t) as Het.
  { apply (inv_entry_ne_tail _ _ _ _ _ _ I). apply elem_of_app. right. left. }
  unfold operator_inc, operator_inc_post, it, nx. simpl.
  rewrite !(bind_Ok _ _ _ _ _ (get_map_Ok _ _ _ Hm)).
  rewrite (inv_tail _ _ _ _ _ I).
  rewrite !bool_decide_eq_false_2 by congruence.
  destruct (get_link_next _ _ _ Hn) as (lk & Hlk & <-).
  by rewrite !(bind_Ok _ _ _ _ _ Hlk).
Qed.

Lemma operator_dec_entry s this m h t l1 e l2 :
  maps s !! this = Some m → inv s m h t (l1 ++ e :: l2) →
  let it := mkIter (Some e.1) (Some this) in
  let nx := mkIter (Some (hd t (l2.*1))) (Some this) in
  operator_dec nx s = Ok it s ∧ operator_dec_post nx s = Ok (nx, it) s.
Proof.
  intros Hm I it nx.
  destruct (inv_split_order _ _ _ _ _ _ _ I) as (_ & _ & _ & _ & _ & Hp & _).
  pose proof (begin_not_after _ _ _ _ _ _ _ I) as Hne.
  unfold operator_dec, operator_dec_post, it, nx. simpl.
  rewrite !(bind_Ok _ _ _ _ _ (get_map_Ok _ _ _ Hm)).
  rewrite (inv_head _ _ _ _ _ I).
  destruct (dseg_first _ _ _ _ (inv_order _ _ _ _ _ I)) as [Hn _].
  destruct (get_link_next _ _ _ Hn) as (lk & Hlk & Hlkn).
  rewrite !(bind_Ok _ _ _ _ _ Hlk), Hlkn.
  rewrite !bool_decide_eq_false_2 by congruence.
  destruct (get_link_prev _ _ _ Hp) as (lk' & Hlk' & <-).
  by rewrite !(bind_Ok _ _ _ _ _ Hlk').
Qed.

(** X4.  Moving along the order list.  From the iterator to an entry, [++]
    leads to the entry inserted next, or to [end()] from the last one, and
    [--] from there leads back; the postfix forms make the same move and
    return the iterator as it was.  In particular [--end()] is the entry
    inserted last, and [--(++it)] is [it]. *)
Theorem iterator_moves this s m h t l1 e l2 :
  maps s !! this = Some m → inv s m h t (l1 ++ e :: l2) →
  let it := mkIter (Some e.1) (Some this) in
  let nx := mkIter (Some (hd t (l2.*1))) (Some this) in
  operator_inc it s = Ok nx s ∧
  operator_inc_post it s = Ok (it, nx) s ∧
  operator_dec nx s = Ok it s ∧
  operator_dec_post nx s = Ok (nx, it) s ∧
  (let* a := operator_inc it in operator_dec a) s = Ok it s ∧
  (let* a := operator_dec nx in operator_inc a) s = Ok nx s ∧
  (l2 = [] → (let* a := end_ this in operator_dec a) s = Ok it s).
Proof.
  intros Hm I it nx.
  destruct (operator_inc_entry s this m h t l1 e l2 Hm I) as [Hi Hip].
  destruct (operator_dec_entry s this m h t l1 e l2 Hm I) as [Hd Hdp].
  split_and!; try done.
  - by rewrite (bind_Ok _ _ _ _ _ Hi).
  - by rewrite (bind_Ok _ _ _ _ _ Hd).
  - intros ->. by rewrite (bind_Ok _ _ _ _ _ (end_Ok _ _ _ _ _ _ Hm I)).
Qed.

Lemma traverse_back_loop_spec s this m h t :
  maps s !! this = Some m →
  ∀ l1 l2 fuel,
    inv s m h t (l1 ++ l2) →
    (length l1 < fuel)%nat →
    traverse_back_loop fuel this (mkIter (Some (hd t (l2.*1))) (Some this)) s
      = Ok (rev (l1.*2)) s.
Proof.
  intros Hm. induction l1 as [|e l1 IH] using rev_ind; intros l2 fuel I Hfuel.
  - destruct fuel; [simpl in Hfuel; lia|]. simpl.
    rewrite (bind_Ok _ _ _ _ _ (begin_Ok _ _ _ _ _ _ Hm I)).
    unfold iterator_eq. simpl. by rewrite !bool_decide_eq_true_2.
  - rewrite <- app_assoc in I. simpl in I.
    rewrite length_app in Hfuel. simpl in Hfuel.
    destruct fuel; [lia|]. simpl.
    rewrite (bind_Ok _ _ _ _ _ (begin_Ok _ _ _ _ _ _ Hm I)).
    unfold iterator_eq. simpl.
    rewrite (bool_decide_eq_false_2 (Some (hd t (l2.*1)) = _))
      by (intros [= Heq]; by apply (begin_not_after _ _ _ _ _ _ _ I)).
    simpl.
    destruct (operator_dec_entry s this m h t l1 e l2 Hm I) as [Hd _].
    assert (e ∈ l1 ++ e :: l2) as He by (apply elem_of_app; right; left).
    rewrite (bind_Ok _ _ _ _ _ Hd).
    rewrite (bind_Ok _ _ _ _ _ (operator_star_Ok _ _ _ _ _ _ _ Hm I He)).
    rewrite (bind_Ok _ _ _ _ _ (read_data_Ok _ _ _ (inv_data _ _ _ _ _ I e He))).
    rewrite (bind_Ok _ _ _ _ _ (IH (e :: l2) fuel I ltac:(lia))).
    by rewrite fmap_app, rev_app_distr.
Qed.

(** X5.  Walking backwards from [end()] to [begin()] visits the entries in
    the reverse of the insertion order: the [order_prev] links mirror the
    [order_next] links. *)
Theorem traverse_back_reverses this s m h t l :
  maps s !! this = Some m → inv s m h t l →
  traverse_back this s = Ok (rev (l.*2)) s ∧
  traverse this s = Ok (l.*2) s.
Proof.
  intros Hm I. split; [|by eapply traverse_spec].
  unfold traverse_back.
  rewrite (bind_Ok _ _ _ _ _ (end_Ok _ _ _ _ _ _ Hm I)).
  unfold get_fuel at 1, bind at 1.
  apply (traverse_back_loop_spec s this m h t Hm l []).
  - by rewrite app_nil_r.
  - by eapply inv_fuel.
Qed.

(** ** Bucket arrays allocated and released *)

Lemma array_delta_bind {A B} k1 k2 (c : M A) (f : A → M B) :
  array_delta k1 c → (∀ a, array_delta k2 (f a)) → array_delta (k1 + k2) (bind c f).
Proof.
  intros Hc Hf s b s'. unfold bind.
  destruct (c s) as [a s1|e1 s1| |] eqn:E; try done.
  intros Hk. rewrite (Hf _ _ _ _ Hk), (Hc _ _ _ E). lia.
Qed.

Lemma array_delta_ret {A} (a : A) : array_delta 0 (ret a).
Proof. intros s b s'. unfold ret. intros ?. simplify_eq. lia. Qed.

Lemma array_delta_fail {A} k (c : M A) : (∀ s a s', c s ≠ Ok a s') → array_delta k c.
Proof. intros Hc s a s' H. by destruct (Hc s a s'). Qed.

Lemma array_delta_new_array : array_delta 1 new_array.
Proof. intros s b s'. unfold new_array. intros ?. simplify_eq. simpl. lia. Qed.

Lemma array_delta_delete_array : array_delta (-1) delete_array.
Proof. intros s b s'. unfold delete_array. intros ?. simplify_eq. simpl. lia. Qed.

Lemma array_delta_get_map a : array_delta 0 (get_map a).
Proof.
  intros s b s'. unfold get_map. destruct a; [|done].
  destruct (maps s !! _); [|done]. intros ?. simplify_eq. lia.
Qed.

Lemma array_delta_put_map a m : array_delta 0 (put_map a m).
Proof. intros s b s'. unfold put_map. intros ?. simplify_eq. simpl. lia. Qed.

Lemma array_delta_drop_map a :
  array_delta 0 (λ s : memory, Ok tt (mkMem (objs s) (delete a (maps s)) (arrays s))).
Proof. intros s b s' ?. simplify_eq. simpl. lia. Qed.

Lemma array_delta_get_fuel : array_delta 0 get_fuel.
Proof. intros s b s'. unfold get_fuel. intros ?. simplify_eq. lia. Qed.

Lemma array_delta_get_link p : array_delta 0 (get_link p).
Proof.
  intros s b s'. unfold get_link. destruct p; [|done].
  destruct (link_at s _); [|done]. intros ?. simplify_eq. lia.
Qed.

Lemma array_delta_get_node p : array_delta 0 (get_node p).
Proof.
  intros s b s'. unfold get_node. destruct p; [|done].
  destruct (node_at s _); [|done]. intros ?. simplify_eq. lia.
Qed.

Lemma array_delta_set_order_prev p q : array_delta 0 (set_order_prev p q).
Proof.
  intros s b s'. unfold set_order_prev. destruct p; [|done].
  destruct (objs s !! _); [|done]. intros ?. simplify_eq. simpl. lia.
Qed.

Lemma array_delta_set_order_next p q : array_delta 0 (set_order_next p q).
Proof.
  intros s b s'. unfold set_order_next. destruct p; [|done].
  destruct (objs s !! _); [|done]. intros ?. simplify_eq. simpl. lia.
Qed.

Lemma array_delta_set_next_in_bucket p q : array_delta 0 (set_next_in_bucket p q).
Proof.
  intros s b s'. unfold set_next_in_bucket. destruct p; [|done].
  destruct (node_at s _); [|done]. intros ?. simplify_eq. simpl. lia.
Qed.

Lemma array_delta_alloc o : array_delta 0 (alloc o).
Proof. intros s b s'. unfold alloc. intros ?. simplify_eq. simpl. lia. Qed.

Lemma array_delta_free p : array_delta 0 (free p).
Proof.
  intros s b s'. unfold free. destruct p; [|done].
  destruct (objs s !! _); [|done]. intros ?. simplify_eq. simpl. lia.
Qed.

Lemma array_delta_bucket_get b i : array_delta 0 (bucket_get b i).
Proof.
  intros s a s'. unfold bucket_get. destruct (b !! _); [|done]. intros ?. simplify_eq. lia.
Qed.

Lemma array_delta_bucket_set b i p : array_delta 0 (bucket_set b i p).
Proof.
  intros s a s'. unfold bucket_set. destruct (b !! _); [|done]. intros ?. simplify_eq. lia.
Qed.

Lemma array_delta_hash_index k c : array_delta 0 (hash_index k c).
Proof.
  intros s a s'. unfold hash_index, ret, undefined. destruct (c =? 0); [done|].
  intros ?. simplify_eq. lia.
Qed.

Lemma array_delta_write_second r v : array_delta 0 (write_second r v).
Proof.
  intros s a s'. unfold write_second, bind, get_node.
  destruct (node_at s r); [|done]. intros ?. simplify_eq. simpl. lia.
Qed.

Ltac array_delta_step :=
  first
    [ match goal with H : context [array_delta] |- _ => apply H end
    | apply array_delta_ret
    | apply array_delta_fail; done
    | apply array_delta_get_map | apply array_delta_put_map | apply array_delta_get_fuel
    | apply array_delta_get_link | apply array_delta_get_node
    | apply array_delta_set_order_prev | apply array_delta_set_order_next
    | apply array_delta_set_next_in_bucket | apply array_delta_alloc | apply array_delta_free
    | apply array_delta_bucket_get | apply array_delta_bucket_set
    | apply array_delta_hash_index | apply array_delta_write_second
    | apply array_delta_drop_map
    | apply array_delta_new_array | apply array_delta_delete_array
    | match goal with
      | |- array_delta ?k (bind new_array _) =>
          apply (array_delta_bind 1 (k - 1)); [apply array_delta_new_array|intros ?]
      | |- array_delta ?k (bind delete_array _) =>
          apply (array_delta_bind (-1) (k + 1)); [apply array_delta_delete_array|intros ?]
      | |- array_delta ?k (bind _ _) => apply (array_delta_bind 0 k); [|intros ?]
      | |- array_delta _ (if ?b then _ else _) => destruct b
      | |- array_delta _ (match ?x with _ => _ end) => destruct x
      end ].

Ltac array_delta_tac := repeat array_delta_step.

Lemma array_delta_end this : array_delta 0 (end_ this).
Proof. unfold end_. array_delta_tac. Qed.

Lemma array_delta_begin this : array_delta 0 (begin_ this).
Proof. unfold begin_. array_delta_tac. Qed.

Lemma array_delta_find_loop fuel this k p : array_delta 0 (find_loop fuel this k p).
Proof.
  revert p. induction fuel as [|fuel IH]; intros p; simpl; [by apply array_delta_fail|].
  pose proof array_delta_end. array_delta_tac.
Qed.

Lemma array_delta_find this k : array_delta 0 (find this k).
Proof.
  unfold find, get_bucket_index. pose proof array_delta_find_loop. array_delta_tac.
Qed.

Lemma array_delta_rehash_loop fuel tl c b cur : array_delta 0 (rehash_loop fuel tl c b cur).
Proof.
  revert b cur. induction fuel as [|fuel IH]; intros b cur; simpl;
    [by apply array_delta_fail|].
  array_delta_tac.
Qed.

Lemma array_delta_rehash this : array_delta 0 (rehash this).
Proof. unfold rehash. pose proof array_delta_rehash_loop. array_delta_tac. Qed.

Lemma array_delta_insert this kv : array_delta 0 (insert this kv).
Proof.
  unfold insert, get_bucket_index. pose proof array_delta_find. pose proof array_delta_end.
  pose proof array_delta_rehash. array_delta_tac.
Qed.



Lemma array_delta_clear_loop fuel tl cur : array_delta 0 (clear_loop fuel tl cur).
Proof.
  revert cur. induction fuel as [|fuel IH]; intros cur; simpl; [by apply array_delta_fail|].
  array_delta_tac.
Qed.

Lemma array_delta_clear this : array_delta 0 (clear this).
Proof. unfold clear. pose proof array_delta_clear_loop. array_delta_tac. Qed.





Lemma array_delta_init this :
  array_delta 1 (new_buckets_of_capacity this) ∧ array_delta 0 (init_empty this).
Proof. unfold new_buckets_of_capacity, init_empty. split; array_delta_tac. Qed.


Lemma array_delta_copy_loop fuel this other it : array_delta 0 (copy_loop fuel this other it).
Proof.
  revert it. induction fuel as [|fuel IH]; intros it; simpl; [by apply array_delta_fail|].
  pose proof array_delta_end. pose proof array_delta_insert.
  unfold cend, operator_star, read_data, operator_inc, data_ref, throw, undefined.
  array_delta_tac.
Qed.

Lemma array_delta_copy_ctor this other : array_delta 1 (copy_ctor this other).
Proof.
  unfold copy_ctor, cbegin. destruct (array_delta_init this) as [H1 H2].
  pose proof array_delta_copy_loop. pose proof array_delta_begin.
  apply (array_delta_bind 0 1); [array_delta_tac|intros ?].
  apply (array_delta_bind 0 1); [array_delta_tac|intros _].
  apply (array_delta_bind 1 0); [done|intros _].
  array_delta_tac.
Qed.


Lemma array_delta_destructor this : array_delta (-1) (destructor this).
Proof.
  unfold destructor. pose proof array_delta_clear.
  apply (array_delta_bind 0 (-1)); [done|intros _].
  apply (array_delta_bind (-1) 0); [apply array_delta_delete_array|intros _].
  array_delta_tac.
Qed.

(** ** The objects a container holds, from construction to destruction *)







Lemma destructor_spec s this m h t l :
  maps s !! this = Some m → inv s m h t l →
  ∃ s',
    destructor this s = Ok tt s' ∧
    maps s' = delete this (maps s) ∧
    (∀ y, y ∈ footprint h t l → objs s' !! y = None) ∧
    (∀ y, y ∉ footprint h t l → objs s' !! y = objs s !! y).
Proof.
  intros Hm I. unfold destructor.
  destruct (clear_delete_spec s this m h t l Hm I)
    as (s1 & m1 & Hrun1 & Hmaps1 & I1 & Hgone & Hfr & Hmono & _).
  assert (maps s1 !! this = Some m1) as Hm1 by (by rewrite Hmaps1, lookup_insert_eq).
  rewrite (bind_Ok_seq _ _ _ _ _ _ Hrun1).
  rewrite (bind_Ok _ _ _ _ _ (get_map_Ok _ _ _ Hm1)).
  rewrite (inv_head _ _ _ _ _ I1), (inv_tail _ _ _ _ _ I1).
  pose proof (inv_nodup _ _ _ _ _ I1) as Hnd. simpl in Hnd.
  apply NoDup_cons in Hnd as [Hht _].
  assert (h ≠ t) as Hne by (intros ->; apply Hht; left).
  destruct (free_spec s1 h) as (s2 & Hrun2 & Hmaps2 & Hh2 & Hsame2).
  { apply (inv_live _ _ _ _ _ I1). left. }
  rewrite (bind_Ok _ _ _ _ _ Hrun2).
  destruct (free_spec s2 t) as (s3 & Hrun3 & Hmaps3 & Ht3 & Hsame3).
  { rewrite Hsame2 by done. apply (inv_live _ _ _ _ _ I1). right. left. }
  rewrite (bind_Ok _ _ _ _ _ Hrun3).
  eexists. split; [reflexivity|]. simpl. split_and!.
  - by rewrite Hmaps3, Hmaps2, Hmaps1, delete_insert_eq.
  - intros y Hy. unfold footprint in Hy. rewrite !elem_of_cons in Hy.
    destruct Hy as [->|[->|(e & -> & He)%list_elem_of_fmap]].
    + by rewrite Hsame3.
    + done.
    + assert (e.1 ∈ footprint h t l) as Hin.
      { unfold footprint. do 2 right. by apply list_elem_of_fmap_2. }
      destruct (decide (e.1 = t)) as [->|Het]; [done|].
      rewrite Hsame3 by done.
      destruct (decide (e.1 = h)) as [->|Heh]; [done|].
      rewrite Hsame2 by done. by apply Hgone.
  - intros y Hy.
    assert (y ≠ h ∧ y ≠ t) as [Hyh Hyt].
    { split; intros ->; apply Hy; unfold footprint; set_solver. }
    rewrite Hsame3, Hsame2 by done. by apply (frame_total _ _ _ Hfr Hmono).
Qed.

(** X6.  The destructor releases the bucket array, the two sentinels and
    every entry, and nothing else: one array fewer is allocated, and no
    other node changes.  The container is gone afterwards: using it, or
    destroying it a second time, is undefined behaviour. *)
Theorem destructor_releases this s m h t l :
  maps s !! this = Some m → inv s m h t l →
  ∃ s',
    destructor this s = Ok tt s' ∧
    arrays s' = arrays s - 1 ∧
    (∀ y, y ∈ footprint h t l → objs s' !! y = None) ∧
    (∀ y, y ∉ footprint h t l → objs s' !! y = objs s !! y) ∧
    maps s' = delete this (maps s) ∧
    (∀ k, find this k s' = Undefined) ∧
    begin_ this s' = Undefined ∧
    destructor this s' = Undefined.
Proof.
  intros Hm I.
  destruct (destructor_spec s this m h t l Hm I) as (s' & Hrun & Hmaps & Hgone & Hsame).
  assert (maps s' !! this = None) as Hm' by (by rewrite Hmaps, lookup_delete_eq).
  assert (get_map (Some this) s' = Undefined) as Hg by (unfold get_map; by rewrite Hm').
  exists s'. split_and!; try done.
  - rewrite (array_delta_destructor _ _ _ _ Hrun). lia.
  - intros k. unfold find, get_bucket_index, bind. by rewrite Hg.
  - unfold begin_, bind. by rewrite Hg.
  - unfold destructor, clear, bind. by rewrite Hg.
Qed.


(** ** Exceptions *)

Lemma readonly_end this : readonly (end_ this).
Proof.
  intros s a s'. unfold end_, bind, get_map, ret.
  destruct (maps s !! this); [|done]. by intros [= _ <-].
Qed.

Lemma readonly_find_loop fuel this k p : readonly (find_loop fuel this k p).
Proof.
  revert p. induction fuel as [|fuel IH]; intros p s a s'; simpl; [done|].
  destruct p as [x|]; [|apply readonly_end].
  unfold bind, get_node. destruct (node_at s x) as [n|]; [|done].
  destruct (key_equal _ _); [by intros [= _ <-]|apply IH].
Qed.

Lemma readonly_find this k : readonly (find this k).
Proof.
  intros s a s'. unfold find, get_bucket_index, bind, get_map, hash_index, bucket_get,
    get_fuel, undefined, ret.
  destruct (maps s !! this) as [m|]; [|done].
  destruct (_ =? 0); [done|]. destruct (maps s !! this) as [m'|]; [|done].
  destruct (buckets m' !! _); [|done]. apply readonly_find_loop.
Qed.

Lemma throws_only_operator_inc it :
  throws_only invalid_iterator (operator_inc it) ∧
  throws_only invalid_iterator (operator_inc_post it).
Proof.
  split; intros s e s'; unfold operator_inc, operator_inc_post, bind, get_map, get_link,
    throw, ret; repeat case_match; intros ?; by simplify_eq.
Qed.

Lemma throws_only_operator_dec it :
  throws_only invalid_iterator (operator_dec it) ∧
  throws_only invalid_iterator (operator_dec_post it).
Proof.
  split; intros s e s'; unfold operator_dec, operator_dec_post, bind, get_map, get_link,
    throw, ret; repeat case_match; intros ?; by simplify_eq.
Qed.

Lemma throws_only_operator_star it : throws_only invalid_iterator (operator_star it).
Proof.
  intros s e s'. unfold operator_star, data_ref, bind, get_map, get_node, throw, ret,
    undefined.
  repeat case_match; intros ?; by simplify_eq.
Qed.

Lemma throws_only_at this k : throws_only index_out_of_bound (at_ this k).
Proof.
  intros s e s'. unfold at_. unfold bind at 1.
  destruct (find this k s) as [it s1|e1 s1| |] eqn:Ef; try done.
  2:{ by destruct (nothrow_find this k s e1 s1). }
  apply readonly_find in Ef as ->.
  unfold bind at 1. destruct (end_ this s) as [en s1|e1 s1| |] eqn:Ee; try done.
  2:{ by destruct (nothrow_end this s e1 s1). }
  apply readonly_end in Ee as ->.
  destruct (iterator_eq it en).
  - by intros [= <- <-].
  - intros Hthrow. by destruct (nothrow_operator_arrow it s e s').
Qed.

(** X8.  What can be raised, and with what left behind.  [at] and the
    const [operator[]] raise nothing but [index_out_of_bound]; [erase] and
    the iterator operators [++], [--] (prefix and postfix) and [ *] raise
    nothing but [invalid_iterator]; and whenever one of them raises, the
    memory is exactly as it was before the call. *)
Theorem exceptions_change_nothing this k pos it :
  throws_only index_out_of_bound (at_ this k) ∧
  throws_only index_out_of_bound (index_const this k) ∧
  throws_only invalid_iterator (erase this pos) ∧
  throws_only invalid_iterator (operator_inc it) ∧
  throws_only invalid_iterator (operator_inc_post it) ∧
  throws_only invalid_iterator (operator_dec it) ∧
  throws_only invalid_iterator (operator_dec_post it) ∧
  throws_only invalid_iterator (operator_star it).
Proof.
  split_and!.
  - apply throws_only_at.
  - apply throws_only_at.
  - intros s e s' Hthrow. by destruct (erase_throw_inv _ _ _ _ _ Hthrow) as (-> & -> & _).
  - apply throws_only_operator_inc.
  - apply throws_only_operator_inc.
  - apply throws_only_operator_dec.
  - apply throws_only_operator_dec.
  - apply throws_only_operator_star.
Qed.

Lemma nothrow_destructor this : nothrow (destructor this).
Proof.
  unfold destructor. pose proof nothrow_clear.
  assert (nothrow (λ s : memory, Ok tt (mkMem (objs s) (delete this (maps s)) (arrays s))))
    by done.
  nothrow_tac; auto.
Qed.

Lemma nothrow_size_empty this : nothrow (size_ this) ∧ nothrow (empty this).
Proof. unfold size_, empty. split; nothrow_tac. Qed.

(** X9.  In no memory whatsoever, well formed or not, do [find], [count],
    [insert], the mutating [operator[]], [clear], [begin], [end], [size],
    [empty], [rehash] or the destructor raise an exception. *)
Theorem members_that_never_throw this k kv :
  nothrow (find this k) ∧ nothrow (count this k) ∧
  nothrow (insert this kv) ∧ nothrow (index this k) ∧
  nothrow (clear this) ∧
  nothrow (begin_ this) ∧ nothrow (end_ this) ∧
  nothrow (cbegin this) ∧ nothrow (cend this) ∧
  nothrow (size_ this) ∧ nothrow (empty this) ∧
  nothrow (rehash this) ∧ nothrow (destructor this).
Proof.
  split_and!.
  - apply nothrow_find.
  - apply nothrow_count.
  - apply nothrow_insert.
  - apply nothrow_index.
  - apply nothrow_clear.
  - apply nothrow_begin.
  - apply nothrow_end.
  - apply nothrow_begin.
  - apply nothrow_end.
  - apply nothrow_size_empty.
  - apply nothrow_size_empty.
  - apply nothrow_rehash.
  - apply nothrow_destructor.
Qed.

(** X10.  In every memory the mutating [operator[]] is [insert] of the key
    with the default value followed by [->] on the iterator that [insert]
    returns: same result, same memory, same failures. *)
Theorem index_is_insert_default this k s :
  index this k s = (let* p := insert this (k, T_default) in operator_arrow (fst p)) s.
Proof.
  unfold index. unfold bind at 1.
  destruct (find this k s) as [it s1|e1 s1| |] eqn:Ef.
  - pose proof (readonly_find _ _ _ _ _ Ef) as ->.
    unfold bind at 1.
    destruct (end_ this s) as [en s1|e1 s1| |] eqn:Ee.
    + pose proof (readonly_end _ _ _ _ Ee) as ->.
      destruct (iterator_eq it en) eqn:Eq; simpl; [done|].
      unfold insert. simpl.
      unfold bind at 1. unfold bind at 1. rewrite Ef.
      unfold bind at 1. rewrite Ee. by rewrite Eq.
    + unfold insert. simpl. unfold bind at 1. unfold bind at 1. rewrite Ef.
      unfold bind at 1. by rewrite Ee.
    + unfold insert. simpl. unfold bind at 1. unfold bind at 1. rewrite Ef.
      unfold bind at 1. by rewrite Ee.
    + unfold insert. simpl. unfold bind at 1. unfold bind at 1. rewrite Ef.
      unfold bind at 1. by rewrite Ee.
  - unfold insert. simpl. unfold bind at 1. unfold bind at 1. by rewrite Ef.
  - unfold insert. simpl. unfold bind at 1. unfold bind at 1. by rewrite Ef.
  - unfold insert. simpl. unfold bind at 1. unfold bind at 1. by rewrite Ef.
Qed.

(** ** The container against its model *)

Lemma al_lookup_spec l k :
  match al_lookup k (l.*2) with
  | Some v => ∃ e, e ∈ l ∧ key_equal e.2.1 k = true ∧ e.2.2 = v
  | None => ¬ has_key l k
  end.
Proof.
  induction l as [|e l IH]; [simpl|rewrite fmap_cons; cbn [al_lookup]].
  - intros (e & ?%elem_of_nil & _). done.
  - destruct (key_equal e.2.1 k) eqn:E.
    + exists e. split_and!; [left|done..].
    + destruct (al_lookup k (l.*2)) as [v|].
      * destruct IH as (e' & He' & Hk & Hv). exists e'. split_and!; [by right|done..].
      * intros (e' & [->|He']%elem_of_cons & Hk); [congruence|].
        apply IH. by exists e'.
Qed.

(** X11.  The container refines an association list kept in insertion
    order.  After the constructor and any sequence of [insert], [erase] by
    key, [clear] and [map[k] = v], a traversal yields the list the model
    computes and a backward traversal its reverse, [size] is its length,
    and [at] and [count] answer as a lookup in it does. *)
Theorem refines_association_list this os s0 :
  Z.of_nat (length os) < 2 ^ 53 →
  ∃ s,
    (ctor this ;;; run_ops this os) s0 = Ok tt s ∧
    traverse this s = Ok (al_run os) s ∧
    traverse_back this s = Ok (rev (al_run os)) s ∧
    size_ this s = Ok (Z.of_nat (length (al_run os))) s ∧
    ∀ k,
      match al_lookup k (al_run os) with
      | Some v =>
          count this k s = Ok 1 s ∧
          ∃ r k', at_ this k s = Ok r s ∧ read_data r s = Ok (k', v) s ∧
                  key_equal k' k = true
      | None =>
          count this k s = Ok 0 s ∧ at_ this k s = Throw index_out_of_bound s
      end.
Proof.
  intros Hlen.
  destruct (ctor_spec s0 this) as (s1 & m1 & h & t & Hrun1 & Hmaps1 & I1 & _).
  rewrite (bind_Ok _ _ _ _ _ Hrun1).
  destruct (run_ops_spec this h t os s1 m1 [])
    as (s & m & l & Hrun & Hmaps & I & Hal & _); try done.
  { by rewrite Hmaps1, lookup_insert_eq. }
  assert (maps s !! this = Some m) as Hm by (by rewrite Hmaps, lookup_insert_eq).
  change (l.*2 = al_run os) in Hal.
  exists s. rewrite <- Hal. split_and!; [done|by eapply traverse_spec| | |].
  - unfold traverse_back.
    rewrite (bind_Ok _ _ _ _ _ (end_Ok _ _ _ _ _ _ Hm I)).
    unfold get_fuel at 1, bind at 1.
    apply (traverse_back_loop_spec s this m h t Hm l []); [by rewrite app_nil_r|].
    by eapply inv_fuel.
  - rewrite length_fmap. by eapply size_Ok.
  - intros k. pose proof (al_lookup_spec l k) as Hlk.
    pose proof (end_Ok _ _ _ _ _ _ Hm I) as Hend.
    destruct (al_lookup k (l.*2)) as [v|].
    + destruct Hlk as (e & He & Hk & Hv). split.
      * unfold count, cend.
        rewrite (bind_Ok _ _ _ _ _ (find_present _ _ _ _ _ _ _ _ Hm I He Hk)).
        rewrite (bind_Ok _ _ _ _ _ Hend).
        by rewrite (entry_iter_ne _ _ _ _ _ _ _ I He).
      * exists e.1, e.2.1. split_and!; [by eapply at_present| |done].
        apply read_data_Ok. rewrite (inv_data _ _ _ _ _ I e He).
        destruct e as [x [k' v']]. simpl in *. by subst.
    + split; [|by eapply at_absent].
      unfold count, cend.
      rewrite (bind_Ok _ _ _ _ _ (find_absent _ _ _ _ _ _ _ Hm I Hlk)).
      rewrite (bind_Ok _ _ _ _ _ Hend).
      unfold iterator_eq. simpl. by rewrite !bool_decide_eq_true_2.
Qed.

(** X12.  [erase(find(k))].  When the key is in the map the call removes
    its entry: afterwards the key is not found, counted or reachable by
    [at], while every other entry is found where it was, with its data.
    When the key is not in the map, [find] gives [end()] and [erase]
    raises [invalid_iterator], the map being untouched. *)
Theorem erase_by_key this s m h t l k :
  maps s !! this = Some m → inv s m h t l →
  (∀ e, e ∈ l → key_equal e.2.1 k = true →
     ∃ s' m' l',
       (let* it := find this k in erase this it) s = Ok tt s' ∧
       maps s' !! this = Some m' ∧ inv s' m' h t l' ∧
       ¬ has_key l' k ∧
       find this k s' = end_ this s' ∧
       at_ this k s' = Throw index_out_of_bound s' ∧
       ∀ e', e' ∈ l → e' ≠ e →
         e' ∈ l' ∧
         find this e'.2.1 s' = Ok (mkIter (Some e'.1) (Some this)) s' ∧
         read_data e'.1 s' = Ok e'.2 s') ∧
  (¬ has_key l k →
     (let* it := find this k in erase this it) s = Throw invalid_iterator s).
Proof.
  intros Hm I. split.
  - intros e He Hk.
    rewrite (bind_Ok _ _ _ _ _ (find_present _ _ _ _ _ _ _ _ Hm I He Hk)).
    apply list_elem_of_split in He as (l1 & l2 & ->).
    destruct (erase_spec s this m h t l1 e l2 Hm I) as (s' & m' & Hrun & Hmaps & I' & _).
    assert (maps s' !! this = Some m') as Hm' by (by rewrite Hmaps, lookup_insert_eq).
    assert (¬ has_key (l1 ++ l2) k) as Hgone.
    { intros (e' & He' & Hk'). by rewrite (inv_unique _ _ _ _ _ _ _ k I Hk e' He') in Hk'. }
    exists s', m', (l1 ++ l2). split_and!; try done.
    + rewrite (end_Ok _ _ _ _ _ _ Hm' I'). by eapply find_absent.
    + by eapply at_absent.
    + intros e' He' Hne.
      assert (e' ∈ l1 ++ l2) as Hin.
      { rewrite elem_of_app, elem_of_cons in He'. rewrite elem_of_app. naive_solver. }
      split_and!; [done|by eapply find_present|].
      apply read_data_Ok. by apply (inv_data _ _ _ _ _ I').
  - intros Hk.
    rewrite (bind_Ok _ _ _ _ _ (find_absent _ _ _ _ _ _ _ Hm I Hk)).
    apply (erase_throws s this m _ Hm). simpl. rewrite (inv_tail _ _ _ _ _ I). tauto.
Qed.

(** X13.  After [insert] of a pair, whether the key was new or not, [find]
    of the key returns the iterator that [insert] returned, [count] is [1],
    and [at] gives the entry that iterator points to; its key equals the
    one inserted, and it carries the inserted value when [insert] reported
    [true], which it does exactly for a key that was not there. *)
Theorem insert_then_find this s m h t l k v :
  maps s !! this = Some m → inv s m h t l →
  Z.of_nat (length l) < 2 ^ 53 →
  ∃ it b s' r kv,
    insert this (k, v) s = Ok (it, b) s' ∧
    (b = true ↔ ¬ has_key l k) ∧
    find this k s' = Ok it s' ∧
    count this k s' = Ok 1 s' ∧
    operator_star it s' = Ok r s' ∧
    at_ this k s' = Ok r s' ∧
    read_data r s' = Ok kv s' ∧
    key_equal kv.1 k = true ∧
    (b = true → kv = (k, v)).
Proof.
  intros Hm I Hlen.
  assert (∀ s' m' l' e, maps s' !! this = Some m' → inv s' m' h t l' → e ∈ l' →
            key_equal e.2.1 k = true →
            find this k s' = Ok (mkIter (Some e.1) (Some this)) s' ∧
            count this k s' = Ok 1 s' ∧
            operator_star (mkIter (Some e.1) (Some this)) s' = Ok e.1 s' ∧
            at_ this k s' = Ok e.1 s' ∧
            read_data e.1 s' = Ok e.2 s') as Hall.
  { intros s' m' l' e Hm' I' He Hk.
    pose proof (find_present _ _ _ _ _ _ _ _ Hm' I' He Hk) as Hf.
    split_and!; [done| |by eapply operator_star_Ok|by eapply at_present|].
    - unfold count, cend. rewrite (bind_Ok _ _ _ _ _ Hf).
      rewrite (bind_Ok _ _ _ _ _ (end_Ok _ _ _ _ _ _ Hm' I')).
      by rewrite (entry_iter_ne _ _ _ _ _ _ _ I' He).
    - apply read_data_Ok. by apply (inv_data _ _ _ _ _ I'). }
  destruct (has_key_dec l k) as [(e & He & Hk)|Hk].
  - destruct (Hall s m l e Hm I He Hk) as (H1 & H2 & H3 & H4 & H5).
    exists (mkIter (Some e.1) (Some this)), false, s, e.1, e.2.
    split_and!; try done.
    + by eapply insert_present.
    + split; [done|]. intros Hn. destruct Hn. by exists e.
  - destruct (insert_absent s this m h t l k v Hm I Hk Hlen)
      as (s' & m' & x & Hrun & Hx & Hmaps & I' & _).
    assert (maps s' !! this = Some m') as Hm' by (by rewrite Hmaps, lookup_insert_eq).
    destruct (Hall s' m' _ (x, (k, v)) Hm' I') as (H1 & H2 & H3 & H4 & H5).
    { apply elem_of_app. right. left. }
    { simpl. apply key_equal_refl. }
    exists (mkIter (Some x) (Some this)), true, s', x, (k, v).
    split_and!; done.
Qed.

(** X14.  No two entries of a container have equal keys, whatever was done
    to it since its construction. *)
Theorem keys_stay_unique this os s0 :
  Z.of_nat (length os) < 2 ^ 53 →
  ∃ s kvs,
    (ctor this ;;; run_ops this os ;;; traverse this) s0 = Ok kvs s ∧
    ∀ i j a b,
      kvs !! i = Some a → kvs !! j = Some b → key_equal a.1 b.1 = true → i = j.
Proof.
  intros Hlen.
  destruct (ctor_spec s0 this) as (s1 & m1 & h & t & Hrun1 & Hmaps1 & I1 & _).
  rewrite (bind_Ok _ _ _ _ _ Hrun1).
  destruct (run_ops_spec this h t os s1 m1 [])
    as (s & m & l & Hrun & Hmaps & I & _); try done.
  { by rewrite Hmaps1, lookup_insert_eq. }
  assert (maps s !! this = Some m) as Hm by (by rewrite Hmaps, lookup_insert_eq).
  rewrite (bind_Ok _ _ _ _ _ Hrun).
  exists s, (l.*2). split; [by eapply traverse_spec|].
  intros i j a b Hi Hj Hk.
  apply list_lookup_fmap_Some in Hi as (e1 & -> & He1).
  apply list_lookup_fmap_Some in Hj as (e2 & -> & He2).
  assert (e1 = e2) as <-.
  { apply (inv_keys _ _ _ _ _ I); [by eapply list_elem_of_lookup_2..|done]. }
  assert (NoDup l) as Hnd.
  { pose proof (inv_nodup _ _ _ _ _ I) as Hn.
    apply NoDup_cons in Hn as [_ [_ Hn]%NoDup_cons]. by eapply NoDup_fmap_1. }
  by eapply NoDup_lookup.
Qed.

(** X15.  [erase] leaves the iterator it was given dangling, and nothing
    detects that: using the iterator again ([ *], [->], [++], [--], or a
    second [erase]) is undefined behaviour, not an [invalid_iterator]. *)
Theorem erased_iterator_dangles this s m h t l1 e l2 :
  maps s !! this = Some m → inv s m h t (l1 ++ e :: l2) →
  let it := mkIter (Some e.1) (Some this) in
  ∃ s',
    erase this it s = Ok tt s' ∧
    operator_star it s' = Undefined ∧
    operator_arrow it s' = Undefined ∧
    operator_inc it s' = Undefined ∧
    operator_dec it s' = Undefined ∧
    erase this it s' = Undefined.
Proof.
  intros Hm I it.
  destruct (erase_spec s this m h t l1 e l2 Hm I) as (s' & m' & Hrun & Hmaps & I' & Hgone & _).
  assert (maps s' !! this = Some m') as Hm' by (by rewrite Hmaps, lookup_insert_eq).
  pose proof (inv_nodup _ _ _ _ _ I) as Hnd.
  assert (e.1 ≠ h ∧ e.1 ≠ t) as [Heh Het].
  { rewrite fmap_app, fmap_cons in Hnd.
    apply NoDup_cons in Hnd as [Hh [Ht _]%NoDup_cons].
    split; intros Heq.
    - apply Hh. right. apply elem_of_app. right. rewrite <- Heq. left.
    - apply Ht. apply elem_of_app. right. rewrite <- Heq. left. }
  assert (get_node (Some e.1) s' = Undefined) as Hgn.
  { unfold get_node, node_at. by rewrite Hgone. }
  assert (get_link (Some e.1) s' = Undefined) as Hgl.
  { unfold get_link, link_at. by rewrite Hgone. }
  assert (e.1 ∉ footprint h t (l1 ++ l2)) as Hout.
  { intros Hin. apply (inv_live _ _ _ _ _ I') in Hin as [? ?]. congruence. }
  exists s'. split_and!; [done|..].
  - unfold operator_star, it. simpl.
    rewrite (bind_Ok _ _ _ _ _ (get_map_Ok _ _ _ Hm')).
    rewrite (inv_head _ _ _ _ _ I'), (inv_tail _ _ _ _ _ I').
    rewrite !bool_decide_eq_false_2 by congruence. simpl.
    unfold data_ref, bind. by rewrite Hgn.
  - unfold operator_arrow, it. cbn [node]. unfold data_ref, bind. by rewrite Hgn.
  - unfold operator_inc, it. simpl.
    rewrite (bind_Ok _ _ _ _ _ (get_map_Ok _ _ _ Hm')).
    rewrite (inv_tail _ _ _ _ _ I').
    rewrite !bool_decide_eq_false_2 by congruence.
    unfold bind. by rewrite Hgl.
  - unfold operator_dec, it. simpl.
    rewrite (bind_Ok _ _ _ _ _ (get_map_Ok _ _ _ Hm')).
    rewrite (inv_head _ _ _ _ _ I').
    destruct (dseg_first _ _ _ _ (inv_order _ _ _ _ _ I')) as [Hn _].
    destruct (get_link_next _ _ _ Hn) as (lk & Hlk & Hlkn).
    rewrite (bind_Ok _ _ _ _ _ Hlk), Hlkn.
    rewrite bool_decide_eq_false_2.
    + unfold bind. by rewrite Hgl.
    + intros [= Heq]. apply Hout. unfold footprint. rewrite Heq.
      destruct ((l1 ++ l2).*1); simpl; set_solver.
  - unfold erase, it. simpl.
    rewrite bool_decide_eq_true_2 by done. simpl.
    rewrite (bind_Ok _ _ _ _ _ (get_map_Ok _ _ _ Hm')).
    rewrite (inv_head _ _ _ _ _ I'), (inv_tail _ _ _ _ _ I').
    rewrite !bool_decide_eq_false_2 by congruence. simpl.
    unfold bind. by rewrite Hgn.
Qed.

(** X16.  [begin() == end()] holds exactly when the container has no
    entry, which is what [empty()] returns and when [size()] is [0]. *)
Theorem begin_meets_end_iff_empty this s m h t l :
  maps s !! this = Some m → inv s m h t l →
  ∃ b e,
    begin_ this s = Ok b s ∧ end_ this s = Ok e s ∧
    (iterator_eq b e = true ↔ l = []) ∧
    empty this s = Ok (iterator_eq b e) s ∧
    (iterator_eq b e = true ↔ size_ this s = Ok 0 s).
Proof.
  intros Hm I.
  exists (mkIter (Some (hd t (l.*1))) (Some this)), (mkIter (Some t) (Some this)).
  assert (iterator_eq (mkIter (Some (hd t (l.*1))) (Some this)) (mkIter (Some t) (Some this))
          = bool_decide (l = [])) as Heq.
  { destruct l as [|e l]; simpl.
    - unfold iterator_eq. simpl. by rewrite !bool_decide_eq_true_2.
    - by rewrite (entry_iter_ne _ _ _ _ _ e this I); [|left]. }
  rewrite Heq, (size_Ok _ _ _ _ _ _ Hm I).
  split_and!; [by eapply begin_Ok|by eapply end_Ok| |by eapply empty_Ok|].
  - by rewrite bool_decide_eq_true.
  - rewrite bool_decide_eq_true. split; [by intros ->|].
    intros [= Hz]. destruct l; [done|]. simpl in Hz. lia.
Qed.

(** ** Copies and the heap *)





(** X17.  The copy constructor allocates one bucket array, the sentinels
    and the entries of the new container, and writes to no node that was
    live; the copy holds the pairs of the source in the order of the
    source.  Destroying the copy gives back exactly the heap there was
    before the copy was made: the same nodes, and as many bucket arrays. *)
Theorem copy_then_destroy this other s mo ho to lo :
  this ≠ other →
  maps s !! other = Some mo → inv s mo ho to lo →
  ∃ s1 s',
    copy_ctor this other s = Ok tt s1 ∧
    traverse this s1 = Ok (lo.*2) s1 ∧
    (∀ y, is_Some (objs s !! y) → objs s1 !! y = objs s !! y) ∧
    arrays s1 = arrays s + 1 ∧
    destructor this s1 = Ok tt s' ∧
    objs s' = objs s ∧
    arrays s' = arrays s ∧
    maps s' = delete this (maps s).
Proof.
  intros Hne Hmo Io.
  destruct (copy_ctor_heap s this other mo ho to lo Hne Hmo Io)
    as (s1 & m1 & h & t & l1 & Hrun1 & Hmaps1 & I1 & Hl1 & _ & [Ho1 Ho2] & _).
  assert (maps s1 !! this = Some m1) as Hm1 by (by rewrite Hmaps1, lookup_insert_eq).
  destruct (destructor_spec s1 this m1 h t l1 Hm1 I1) as (s' & Hrun & Hmaps & Hgone & Hsame).
  pose proof (array_delta_copy_ctor _ _ _ _ _ Hrun1) as Ha1.
  pose proof (array_delta_destructor _ _ _ _ Hrun) as Ha.
  exists s1, s'. split_and!; try done.
  - rewrite <- Hl1. by eapply traverse_spec.
  - intros y [o Hy]. apply Ho2. intros Hin. apply Ho1 in Hin. congruence.
  - apply map_eq. intros y.
    destruct (decide (y ∈ footprint h t l1)) as [Hin|Hnin].
    + rewrite Hgone by done. symmetry. by apply Ho1.
    + rewrite Hsame by done. by apply Ho2.
  - lia.
  - by rewrite Hmaps, Hmaps1, delete_insert_eq.
Qed.


(** ** Growth *)

Lemma insert_all_capacity this h t :
  ∀ kvs s m l,
    maps s !! this = Some m → inv s m h t l →
    (∀ kv, kv ∈ kvs → ¬ has_key l kv.1) →
    distinct_keys kvs →
    Z.of_nat (length l + length kvs) ≤ 2 ^ 53 →
    (bucket_capacity m = 16 ∨ 3 * bucket_capacity m < 8 * Z.of_nat (length l)) →
    ∃ s' m' l',
      insert_all this kvs s = Ok tt s' ∧
      maps s' = <[this := m']> (maps s) ∧
      inv s' m' h t (l ++ l') ∧ l'.*2 = kvs ∧
      (bucket_capacity m' = 16 ∨
       3 * bucket_capacity m' < 8 * Z.of_nat (length l + length kvs)).
Proof.
  induction kvs as [|[k v] kvs IH]; intros s m l Hm I Habs Hd Hlen Hmin.
  - exists s, m, []. simpl. rewrite app_nil_r, Nat.add_0_r.
    split_and!; try done. by rewrite insert_id.
  - simpl. rewrite Nat2Z.inj_add in Hlen. simpl length in Hlen.
    destruct (insert_absent s this m h t l k v Hm I)
      as (s1 & m1 & x & Hrun1 & Hx & Hmaps1 & I1 & _ & Hcap1).
    { apply (Habs (k, v)). left. }
    { lia. }
    rewrite (bind_Ok _ _ _ _ _ Hrun1).
    destruct (IH s1 m1 (l ++ [(x, (k, v))])) as (s' & m' & l' & Hrun & Hmaps & I' & Hl' & Hmin').
    + by rewrite Hmaps1, lookup_insert_eq.
    + done.
    + by eapply distinct_keys_absent.
    + by destruct Hd.
    + rewrite length_app, !Nat2Z.inj_add. simpl. lia.
    + pose proof (inv_size _ _ _ _ _ I) as Hsz.
      rewrite length_app, Nat2Z.inj_add. simpl length.
      destruct (exceeds_load (num_elements m + 1) (bucket_capacity m)) eqn:E; rewrite Hcap1.
      * apply exceeds_load_spec in E. right. lia.
      * destruct Hmin; [by left|right; lia].
    + exists s', m', ((x, (k, v)) :: l'). rewrite <- app_assoc in I'. simpl in *.
      split_and!; try done.
      * by rewrite Hmaps, Hmaps1, insert_insert_eq.
      * by f_equal.
      * rewrite length_app in Hmin'. simpl in Hmin'.
        destruct Hmin' as [?|Hmin']; [by left|right]. lia.
Qed.

(** X19.  The table grows as late as the load factor allows: after [n]
    inserts of pairwise different keys into a new map the capacity is the
    least [16 * 2^j] with [n <= 0.75 * capacity]. *)
Theorem capacity_after_inserts this kvs s0 :
  distinct_keys kvs → Z.of_nat (length kvs) ≤ 2 ^ 53 →
  ∃ s m,
    (ctor this ;;; insert_all this kvs) s0 = Ok tt s ∧
    maps s !! this = Some m ∧
    num_elements m = Z.of_nat (length kvs) ∧
    least_capacity (bucket_capacity m) (Z.of_nat (length kvs)).
Proof.
  intros Hd Hlen.
  destruct (ctor_spec s0 this) as (s1 & m1 & h & t & Hrun1 & Hmaps1 & I1 & _ & _ & _ & Hcap1).
  rewrite (bind_Ok _ _ _ _ _ Hrun1).
  destruct (insert_all_capacity this h t kvs s1 m1 [])
    as (s & m & l & Hrun & Hmaps & I & Hl & Hmin); try done.
  { by rewrite Hmaps1, lookup_insert_eq. }
  { intros kv _ (e & ?%elem_of_nil & _). done. }
  { by left. }
  simpl in I, Hmin.
  assert (length l = length kvs) as Hlk by (by rewrite <- Hl, length_fmap).
  pose proof (inv_size _ _ _ _ _ I) as Hsz. rewrite Hlk in Hsz.
  exists s, m. split_and!; [done|by rewrite Hmaps, lookup_insert_eq|done|].
  split_and!.
  - apply (inv_pow _ _ _ _ _ I).
  - rewrite <- Hsz. apply (inv_load _ _ _ _ _ I).
  - done.
Qed.

End linked_hashmap.

Arguments Ok {Key T A} a s.
Arguments Throw {Key T A} e s.
Arguments Undefined {Key T A}.
Arguments Diverge {Key T A}.

Notation "'let*' x := c 'in' k" := (bind c (λ x, k))
  (at level 10, x name, c at level 100, k at level 200).
Notation "c ;;; k" := (bind c (λ _, k))
  (at level 100, k at level 200, right associativity).

(** * An instance: integer keys and values

    [Key = T = Z], the hash of a key is the key as a [size_t], keys are
    compared with [Z.eqb], and [T()] is [0]. *)

Definition zhash (k : Z) : Z := size_t k.

Definition mem0 : @memory Z Z := mkMem ∅ ∅ 0.

(** The memory a computation ends in. *)
Definition final_memory {A} (r : @result Z Z A) : @memory Z Z :=
  match r with
  | Ok _ s => s
  | Throw _ s => s
  | _ => mem0
  end.

Lemma zeq_refl (a : Z) : (a =? a) = true.
Proof. apply Z.eqb_refl. Qed.

Lemma zeq_sym (a b : Z) : (a =? b) = true → (b =? a) = true.
Proof. rewrite !Z.eqb_eq. congruence. Qed.

Lemma zeq_trans (a b c : Z) : (a =? b) = true → (b =? c) = true → (a =? c) = true.
Proof. rewrite !Z.eqb_eq. congruence. Qed.

Lemma zhash_proper (a b : Z) : (a =? b) = true → zhash a = zhash b.
Proof. rewrite Z.eqb_eq. congruence. Qed.

(** Feeds the facts about [Z.eqb] and [zhash] to a statement that asks for
    them. *)
Ltac zfeed H :=
  repeat match type of H with
    | (∀ a : Z, (a =? a) = true) → _ => specialize (H zeq_refl)
    | (∀ a b : Z, (a =? b) = true → (b =? a) = true) → _ => specialize (H zeq_sym)
    | (∀ a b c : Z, (a =? b) = true → (b =? c) = true → (a =? c) = true) → _ =>
        specialize (H zeq_trans)
    | (∀ a b : Z, (a =? b) = true → zhash a = zhash b) → _ => specialize (H zhash_proper)
    end.

(** A map at address [1] holding [5 ↦ 50] and [21 ↦ 210], which share a
    bucket. *)
Definition example_build : M unit :=
  ctor 1%positive ;;; insert_all zhash Z.eqb 1%positive [(5, 50); (21, 210)].

Lemma example_map :
  ∃ s m h t e1 e2,
    example_build mem0 = Ok tt s ∧
    maps s !! 1%positive = Some m ∧
    inv zhash Z.eqb s m h t [e1; e2] ∧
    e1.2 = (5, 50) ∧ e2.2 = (21, 210) ∧
    bucket_capacity m = 16.
Proof.
  unfold example_build.
  pose proof (@ctor_spec Z Z zhash Z.eqb) as Hctor. zfeed Hctor.
  destruct (Hctor mem0 1%positive) as (s1 & m1 & h & t & Hrun1 & Hmaps1 & I1 & _).
  rewrite (bind_Ok _ _ _ _ _ Hrun1).
  pose proof (@insert_all_spec Z Z zhash Z.eqb) as Hins. zfeed Hins.
  destruct (Hins 1%positive h t [(5, 50); (21, 210)] s1 m1 [])
    as (s' & m' & l' & Hrun & Hmaps & I' & Hl').
  - by rewrite Hmaps1, lookup_insert_eq.
  - done.
  - intros kv _ (e & ?%elem_of_nil & _). done.
  - simpl. split_and!; try done.
    + intros kv' ->%list_elem_of_singleton. done.
    + by intros kv' ?%elem_of_nil.
  - simpl. lia.
  - destruct l' as [|e1 [|e2 [|? ?]]]; try done. simpl in Hl'. simplify_eq.
    assert (maps s' !! 1%positive = Some m') as Hm' by (by rewrite Hmaps, lookup_insert_eq).
    exists s', m', h, t, e1, e2. split_and!; try done.
    assert ((ctor 1%positive ;;; insert_all zhash Z.eqb 1%positive [(5, 50); (21, 210)]) mem0
            = Ok tt s') as Htot by (by rewrite (bind_Ok _ _ _ _ _ Hrun1)).
    clear -Htot Hm'. vm_compute in Htot. injection Htot as <-.
    vm_compute in Hm'. by injection Hm' as <-.
Qed.

(** Witness of C1: inserting [5 ↦ 99] into the example map. *)
Lemma C1_witness :
  ∃ s it,
    example_build mem0 = Ok tt s ∧
    insert zhash Z.eqb 1%positive (5, 99) s = Ok (it, false) s ∧
    (insert zhash Z.eqb 1%positive (5, 99) ;;; traverse 1%positive) s
      = Ok [(5, 50); (21, 210)] s.
Proof.
  destruct example_map as (s & m & h & t & e1 & e2 & Hrun & Hm & I & H1 & H2 & Hcap).
  pose proof (@C1_insert_existing_key Z Z zhash Z.eqb) as C1. zfeed C1.
  destruct (C1 s 1%positive m h t [e1; e2] 5 99 e1 Hm I) as (Ha & Hb & _).
  - left.
  - by rewrite H1.
  - exists s, (mkIter (Some e1.1) (Some 1%positive)). split_and!; [assumption..|].
    rewrite Hb. simpl. by rewrite H1, H2.
Defined.

Lemma example_no_7 (e1 e2 : positive * (Z * Z)) :
  e1.2 = (5, 50) → e2.2 = (21, 210) → ¬ has_key Z.eqb [e1; e2] 7.
Proof.
  intros H1 H2 (e & He & Hk).
  apply elem_of_cons in He as [->|He]; [by rewrite H1 in Hk|].
  apply list_elem_of_singleton in He as ->. by rewrite H2 in Hk.
Qed.

Lemma example_length (e1 e2 : positive * (Z * Z)) :
  Z.of_nat (length [e1; e2]) < 2 ^ 53.
Proof. simpl. lia. Qed.

(** Witness of C2: three inserts into a new map, and a fourth key put into
    the example map. *)
Lemma C2_witness :
  (∃ s, (ctor 1%positive ;;;
         insert_all zhash Z.eqb 1%positive [(1, 10); (2, 20); (3, 30)] ;;;
         traverse 1%positive) mem0 = Ok [(1, 10); (2, 20); (3, 30)] s) ∧
  (∃ s s' x,
     example_build mem0 = Ok tt s ∧
     insert zhash Z.eqb 1%positive (7, 70) s
       = Ok (mkIter (Some x) (Some 1%positive), true) s' ∧
     traverse 1%positive s' = Ok [(5, 50); (21, 210); (7, 70)] s').
Proof.
  pose proof (@C2_insertion_order Z Z zhash Z.eqb) as C2. zfeed C2.
  destruct (C2 1%positive) as [Ha Hb]. split.
  - apply Ha.
    + simpl. split_and!; try exact Logic.I.
      * intros kv' [->| ->%list_elem_of_singleton]%elem_of_cons; done.
      * intros kv' ->%list_elem_of_singleton. done.
      * by intros kv' ?%elem_of_nil.
    + simpl. lia.
  - destruct example_map as (s & m & h & t & e1 & e2 & Hrun & Hm & I & H1 & H2 & Hcap).
    destruct (Hb s m h t [e1; e2] 7 70 Hm I (example_no_7 e1 e2 H1 H2) (example_length e1 e2))
      as (s' & x & Hins & _ & _ & _ & _ & _ & Htr).
    exists s, s', x. split_and!; [assumption..|]. rewrite Htr. simpl. by rewrite H1, H2.
Defined.


(** Witness of C4: [rehash] on the example map, and two more inserts. *)
Lemma C4_witness :
  (∃ s s' m',
     example_build mem0 = Ok tt s ∧
     rehash zhash 1%positive s = Ok tt s' ∧ maps s' !! 1%positive = Some m' ∧
     bucket_capacity m' = 32 ∧ chain_blind s s') ∧
  (∃ s s' r,
     example_build mem0 = Ok tt s ∧
     insert_all zhash Z.eqb 1%positive [(5, 1); (7, 70)] s = Ok tt s' ∧
     find zhash Z.eqb 1%positive 21 s' = Ok r s').
Proof.
  pose proof (@C4_rehash_frame Z Z zhash Z.eqb) as C4. zfeed C4.
  destruct (C4 1%positive) as (Ha & Hb).
  destruct example_map as (s & m & h & t & e1 & e2 & Hrun & Hm & I & H1 & H2 & Hcap).
  split.
  - destruct (Ha s m h t [e1; e2] Hm I ltac:(rewrite Hcap; lia))
      as (s' & m' & Hre & Hmaps & Hblind & _ & _ & _ & Hcap' & _).
    exists s, s', m'. split_and!; try assumption.
    + by rewrite Hmaps, lookup_insert_eq.
    + rewrite Hcap', Hcap. done.
  - destruct (Hb s m h t [e1; e2] [(5, 1); (7, 70)] Hm I ltac:(simpl; lia))
      as (s' & l' & Hins & Hold & _).
    destruct (Hold e2) as [Hfind _]; [right; left|].
    rewrite H2 in Hfind. simpl in Hfind.
    exists s, s', (mkIter (Some e2.1) (Some 1%positive)). split_and!; assumption.
Defined.

(** Witness of C5: [at] on a missing and on a present key of the example
    map. *)
Lemma C5_witness :
  ∃ s r,
    example_build mem0 = Ok tt s ∧
    at_ zhash Z.eqb 1%positive 7 s = Throw index_out_of_bound s ∧
    at_ zhash Z.eqb 1%positive 21 s = Ok r s ∧
    read_data r s = Ok (21, 210) s.
Proof.
  destruct example_map as (s & m & h & t & e1 & e2 & Hrun & Hm & I & H1 & H2 & Hcap).
  pose proof (@C5_at_bounds Z Z zhash Z.eqb) as C5. zfeed C5.
  destruct (C5 1%positive s m h t [e1; e2] 7 Hm I) as ([_ Ha] & _).
  destruct (C5 1%positive s m h t [e1; e2] 21 Hm I) as (_ & Hb & _).
  destruct (Hb e2) as [Hb1 Hb2]; [right; left|by rewrite H2|].
  exists s, e2.1. split_and!; [assumption| |assumption|by rewrite Hb2, H2].
  apply Ha. by apply example_no_7.
Defined.

(** Witness of C6: [map[7]] on the example map, then a write through the
    reference. *)
Lemma C6_witness :
  ∃ s s' x s'',
    example_build mem0 = Ok tt s ∧
    index zhash Z.eqb 0 1%positive 7 s = Ok x s' ∧
    traverse 1%positive s' = Ok [(5, 50); (21, 210); (7, 0)] s' ∧
    write_second x 77 s' = Ok tt s'' ∧
    at_ zhash Z.eqb 1%positive 7 s'' = Ok x s'' ∧ read_data x s'' = Ok (7, 77) s''.
Proof.
  destruct example_map as (s & m & h & t & e1 & e2 & Hrun & Hm & I & H1 & H2 & Hcap).
  pose proof (@C6_index_operator Z Z zhash Z.eqb 0) as C6. zfeed C6.
  destruct (C6 1%positive s m h t [e1; e2] 7 Hm I (example_length e1 e2)) as [Ha _].
  destruct (Ha (example_no_7 e1 e2 H1 H2)) as (s' & m' & x & Hidx & _ & _ & _ & Htr & Hw).
  destruct (Hw 77) as (s'' & Hw1 & Hw2 & Hw3).
  exists s, s', x, s''. split_and!; try assumption.
  rewrite Htr. simpl. by rewrite H1, H2.
Defined.

(** Witness of C7 as amended: misuse of iterators of the example map. *)
Lemma C7_witness :
  ∃ s e,
    example_build mem0 = Ok tt s ∧
    end_ 1%positive s = Ok e s ∧
    operator_inc e s = Throw invalid_iterator s ∧
    operator_star e s = Throw invalid_iterator s ∧
    operator_dec (mkIter None None) s = Throw invalid_iterator s.
Proof.
  destruct example_map as (s & m & h & t & e1 & e2 & Hrun & Hm & I & H1 & H2 & Hcap).
  pose proof (@C7_iterator_misuse Z Z zhash Z.eqb 1%positive s m h t [e1; e2] Hm I) as C7.
  simpl in C7. destruct C7 as (Hend & _ & Hinc & _ & _ & _ & _ & Hstar & Hnull & _).
  destruct (Hnull (mkIter None None)) as (_ & _ & Hdec & _); [by left|].
  exists s, (mkIter (Some t) (Some 1%positive)). split_and!; assumption.
Defined.

(** Witness of C8: erasing the first entry of the example map, and erasing
    through [end()]. *)
Lemma C8_witness :
  ∃ s e s' it,
    example_build mem0 = Ok tt s ∧
    end_ 1%positive s = Ok e s ∧
    erase zhash 1%positive e s = Throw invalid_iterator s ∧
    find zhash Z.eqb 1%positive 5 s = Ok it s ∧
    erase zhash 1%positive it s = Ok tt s' ∧
    traverse 1%positive s' = Ok [(21, 210)] s' ∧
    size_ 1%positive s' = Ok 1 s'.
Proof.
  destruct example_map as (s & m & h & t & e1 & e2 & Hrun & Hm & I & H1 & H2 & Hcap).
  pose proof (@C8_erase Z Z zhash Z.eqb 0) as C8. zfeed C8.
  destruct (C8 1%positive s m h t [e1; e2] Hm I) as (Ha & _ & Hc & _).
  destruct (Hc [] e1 [e2] eq_refl) as (s' & m' & Her & _ & _ & _ & _ & Htr & Hsz).
  pose proof (@find_present Z Z zhash Z.eqb) as Hf. zfeed Hf.
  exists s, (mkIter (Some t) (Some 1%positive)), s', (mkIter (Some e1.1) (Some 1%positive)).
  split_and!; try assumption.
  - by eapply end_Ok.
  - apply Ha. simpl. tauto.
  - apply (Hf s 1%positive m h t [e1; e2] 5 e1 Hm I); [left|by rewrite H1].
  - rewrite Htr. simpl. by rewrite H2.
Defined.

(** Witness of C9: the keys [1], [2], [3]. *)
Lemma C9_witness :
  ∃ s,
    (ctor 1%positive ;;;
     run_ops zhash Z.eqb 0 1%positive
       [OInsert (1, 10); OInsert (2, 20); OInsert (3, 30); OErase 2; OInsert (2, 21)] ;;;
     traverse 1%positive) mem0 = Ok [(1, 10); (3, 30); (2, 21)] s.
Proof.
  pose proof (@C9_reinsert_after_erase Z Z zhash Z.eqb 0) as C9. zfeed C9.
  apply (C9 1%positive mem0 1 10 2 20 3 30 21); reflexivity.
Defined.

(** Witness of C10: the example map copied to address [2], then the copy
    cleared. *)
Lemma C10_witness :
  ∃ s s' s'',
    example_build mem0 = Ok tt s ∧
    copy_ctor zhash Z.eqb 2%positive 1%positive s = Ok tt s' ∧
    traverse 2%positive s' = Ok [(5, 50); (21, 210)] s' ∧
    run_ops zhash Z.eqb 0 2%positive [OClear; OInsert (9, 90)] s' = Ok tt s'' ∧
    traverse 1%positive s'' = Ok [(5, 50); (21, 210)] s'' ∧
    assign zhash Z.eqb 1%positive 1%positive s = Ok tt s.
Proof.
  destruct example_map as (s & m & h & t & e1 & e2 & Hrun & Hm & I & H1 & H2 & Hcap).
  pose proof (@C10_copy_independent Z Z zhash Z.eqb 0) as C10. zfeed C10.
  destruct (C10 2%positive 1%positive s m h t [e1; e2] ltac:(done) Hm I)
    as ((s' & m' & h' & t' & l' & Hcp & Hm' & I' & Hl' & Hmo' & Io' & Hdisj & _ & Htr & _)
        & _ & _ & Hself).
  destruct (C10 2%positive 1%positive s' m h t [e1; e2] ltac:(done) Hmo' Io')
    as (_ & _ & Hind & _).
  assert (Z.of_nat (length l' + length [OClear; OInsert (9, 90)]) < 2 ^ 53) as Hlen.
  { rewrite <- (length_fmap snd l'), Hl'. simpl. lia. }
  destruct (Hind m' h' t' l' [OClear; OInsert (9, 90)] Hm' I' Hdisj Hlen)
    as (s'' & m'' & l'' & Hops & _ & _ & _ & _ & _ & _ & Htr').
  exists s, s', s''. split_and!; try assumption.
  - rewrite Htr. simpl. by rewrite H1, H2.
  - rewrite Htr'. simpl. by rewrite H1, H2.
Defined.

(** Two maps: an empty one at address [1] and one at address [2] that holds
    [7 ↦ 70]. *)
Definition two_maps : @memory Z Z :=
  final_memory ((ctor 1%positive ;;; ctor 2%positive ;;;
                 insert zhash Z.eqb 2%positive (7, 70)) mem0).



(** Counterexample to C8 as stated: [size()] is not the number of distinct
    keys ever inserted minus the number erased.  Insert [1], erase it and
    insert it again: one key was ever inserted and one entry was erased, but
    the size is [1].  Insert [5] and [21] and clear: two keys were inserted
    and none erased, but the size is [0]. *)
Lemma C8_counterexample :
  (∃ s, (ctor 1%positive ;;;
         run_ops zhash Z.eqb 0 1%positive [OInsert (1, 10); OErase 1; OInsert (1, 11)] ;;;
         size_ 1%positive) mem0 = Ok 1 s) ∧
  spec_size Z.eqb [OInsert (1, 10); OErase 1; OInsert (1, 11)] = 0 ∧
  (∃ s, (ctor 1%positive ;;;
         run_ops zhash Z.eqb 0 1%positive [OInsert (5, 50); OInsert (21, 210); OClear] ;;;
         size_ 1%positive) mem0 = Ok 0 s) ∧
  spec_size Z.eqb [OInsert (5, 50); OInsert (21, 210); OClear] = 2.
Proof.
  split_and!.
  - exists (final_memory
              ((ctor 1%positive ;;;
                run_ops zhash Z.eqb 0 1%positive
                  [OInsert (1, 10); OErase 1; OInsert (1, 11)]) mem0)).
    vm_compute. reflexivity.
  - vm_compute. reflexivity.
  - exists (final_memory
              ((ctor 1%positive ;;;
                run_ops zhash Z.eqb 0 1%positive
                  [OInsert (5, 50); OInsert (21, 210); OClear]) mem0)).
    vm_compute. reflexivity.
  - vm_compute. reflexivity.
Qed.

(** Counterexample to C7 as stated: on [end()] of the first map
    [operator->] does not raise [invalid_iterator] (the tail sentinel is no
    [Node], reading it as one is undefined), and [ *] on the entry of the
    second map, through an iterator that names the first map, returns that
    entry instead of raising. *)
Lemma C7_counterexample :
  end_ 1%positive two_maps = Ok (mkIter (Some 2%positive) (Some 1%positive)) two_maps ∧
  operator_arrow (mkIter (Some 2%positive) (Some 1%positive)) two_maps = Undefined ∧
  operator_arrow (mkIter (Some 2%positive) (Some 1%positive)) two_maps
    ≠ Throw invalid_iterator two_maps ∧
  find zhash Z.eqb 2%positive 7 two_maps
    = Ok (mkIter (Some 5%positive) (Some 2%positive)) two_maps ∧
  operator_star (mkIter (Some 5%positive) (Some 1%positive)) two_maps
    = Ok 5%positive two_maps ∧
  operator_star (mkIter (Some 5%positive) (Some 1%positive)) two_maps
    ≠ Throw invalid_iterator two_maps.
Proof.
  assert (operator_arrow (mkIter (Some 2%positive) (Some 1%positive)) two_maps = Undefined)
    as Ha by (vm_compute; reflexivity).
  assert (operator_star (mkIter (Some 5%positive) (Some 1%positive)) two_maps
          = Ok 5%positive two_maps) as Hs by (vm_compute; reflexivity).
  split_and!.
  - vm_compute. reflexivity.
  - exact Ha.
  - rewrite Ha. discriminate.
  - vm_compute. reflexivity.
  - exact Hs.
  - rewrite Hs. discriminate.
Qed.

(** * Instances of the further properties *)

(** [find] on the example map: [21] is found, [7] is not. *)
Lemma find_result_witness :
  ∃ s it e,
    example_build mem0 = Ok tt s ∧
    find zhash Z.eqb 1%positive 21 s = Ok it s ∧
    end_ 1%positive s = Ok e s ∧ it ≠ e ∧
    find zhash Z.eqb 1%positive 7 s = Ok e s.
Proof.
  destruct example_map as (s & m & h & t & e1 & e2 & Hrun & Hm & I & H1 & H2 & Hcap).
  pose proof (@find_result Z Z zhash Z.eqb) as X. zfeed X.
  destruct (X 1%positive s m h t [e1; e2] 21 Hm I) as (it & Hf & He & Hiff & _).
  destruct (X 1%positive s m h t [e1; e2] 7 Hm I) as (it7 & Hf7 & _ & Hiff7 & _).
  assert (it7 = mkIter (Some t) (Some 1%positive)) as Heq7.
  { apply Hiff7. by apply example_no_7. }
  rewrite Heq7 in Hf7.
  exists s, it, (mkIter (Some t) (Some 1%positive)).
  split_and!; [assumption..| |assumption].
  intros Heq. apply Hiff in Heq. apply Heq. exists e2. split; [right; left|by rewrite H2].
Defined.

(** [count] on the example map. *)
Lemma count_zero_or_one_witness :
  ∃ s,
    example_build mem0 = Ok tt s ∧
    count zhash Z.eqb 1%positive 21 s = Ok 1 s ∧
    count zhash Z.eqb 1%positive 7 s = Ok 0 s.
Proof.
  destruct example_map as (s & m & h & t & e1 & e2 & Hrun & Hm & I & H1 & H2 & Hcap).
  pose proof (@count_zero_or_one Z Z zhash Z.eqb) as X. zfeed X.
  destruct (X 1%positive s m h t [e1; e2] 21 Hm I) as [Ha _].
  destruct (X 1%positive s m h t [e1; e2] 7 Hm I) as [_ Hb].
  exists s. split_and!; [assumption| |].
  - apply Ha. exists e2. split; [right; left|by rewrite H2].
  - apply Hb. by apply example_no_7.
Defined.

(** [clear] on the example map. *)
Lemma clear_empties_witness :
  ∃ s s',
    example_build mem0 = Ok tt s ∧
    clear 1%positive s = Ok tt s' ∧
    size_ 1%positive s' = Ok 0 s' ∧
    traverse 1%positive s' = Ok [] s' ∧
    find zhash Z.eqb 1%positive 5 s' = end_ 1%positive s'.
Proof.
  destruct example_map as (s & m & h & t & e1 & e2 & Hrun & Hm & I & H1 & H2 & Hcap).
  pose proof (@clear_empties Z Z zhash Z.eqb) as X. zfeed X.
  destruct (X 1%positive s m h t [e1; e2] Hm I)
    as (s' & m' & Hcl & _ & _ & _ & _ & _ & Hsz & _ & Htr & _ & Hfind).
  exists s, s'. split_and!; [assumption..|]. apply Hfind.
Defined.

(** The iterators of the example map: from [5] to [21] to [end()] and
    back. *)
Lemma iterator_moves_witness :
  ∃ s it1 it2 e,
    example_build mem0 = Ok tt s ∧
    find zhash Z.eqb 1%positive 5 s = Ok it1 s ∧
    find zhash Z.eqb 1%positive 21 s = Ok it2 s ∧
    end_ 1%positive s = Ok e s ∧
    operator_inc it1 s = Ok it2 s ∧ operator_inc it2 s = Ok e s ∧
    operator_dec e s = Ok it2 s ∧ operator_dec it2 s = Ok it1 s ∧
    operator_inc_post it1 s = Ok (it1, it2) s.
Proof.
  destruct example_map as (s & m & h & t & e1 & e2 & Hrun & Hm & I & H1 & H2 & Hcap).
  pose proof (@iterator_moves Z Z zhash Z.eqb) as X. zfeed X.
  pose proof (X 1%positive s m h t [] e1 [e2] Hm I) as Xa.
  pose proof (X 1%positive s m h t [e1] e2 [] Hm I) as Xb.
  simpl in Xa, Xb.
  destruct Xa as (Ha1 & Ha2 & Ha3 & _). destruct Xb as (Hb1 & _ & Hb3 & _).
  pose proof (@find_present Z Z zhash Z.eqb) as Hf. zfeed Hf.
  pose proof (Hf s 1%positive m h t [e1; e2] 5 e1 Hm I ltac:(left) ltac:(by rewrite H1)) as Hf1.
  pose proof (Hf s 1%positive m h t [e1; e2] 21 e2 Hm I ltac:(right; left)
                ltac:(by rewrite H2)) as Hf2.
  exists s, (mkIter (Some e1.1) (Some 1%positive)), (mkIter (Some e2.1) (Some 1%positive)),
    (mkIter (Some t) (Some 1%positive)).
  split_and!; try assumption.
  by eapply end_Ok.
Defined.

(** The example map walked backwards. *)
Lemma traverse_back_reverses_witness :
  ∃ s,
    example_build mem0 = Ok tt s ∧
    traverse_back 1%positive s = Ok [(21, 210); (5, 50)] s.
Proof.
  destruct example_map as (s & m & h & t & e1 & e2 & Hrun & Hm & I & H1 & H2 & Hcap).
  pose proof (@traverse_back_reverses Z Z zhash Z.eqb) as X. zfeed X.
  destruct (X 1%positive s m h t [e1; e2] Hm I) as [Hb _].
  exists s. split; [assumption|]. rewrite Hb. simpl. by rewrite H1, H2.
Defined.

(** The example map destroyed. *)
Lemma destructor_releases_witness :
  ∃ s s',
    example_build mem0 = Ok tt s ∧
    destructor 1%positive s = Ok tt s' ∧
    arrays s' = arrays s - 1 ∧
    maps s' = delete 1%positive (maps s) ∧
    begin_ 1%positive s' = Undefined.
Proof.
  destruct example_map as (s & m & h & t & e1 & e2 & Hrun & Hm & I & H1 & H2 & Hcap).
  pose proof (@destructor_releases Z Z zhash Z.eqb) as X. zfeed X.
  destruct (X 1%positive s m h t [e1; e2] Hm I)
    as (s' & Hd & Harr & _ & _ & Hmaps & _ & Hb & _).
  exists s, s'. split_and!; assumption.
Defined.


(** [at] of a missing key of the example map: the exception it raises. *)
Lemma exceptions_change_nothing_witness :
  ∃ s,
    example_build mem0 = Ok tt s ∧
    at_ zhash Z.eqb 1%positive 7 s = Throw index_out_of_bound s ∧
    ∀ e s', at_ zhash Z.eqb 1%positive 7 s = Throw e s' → e = index_out_of_bound ∧ s' = s.
Proof.
  destruct example_map as (s & m & h & t & e1 & e2 & Hrun & Hm & I & H1 & H2 & Hcap).
  pose proof (@exceptions_change_nothing Z Z zhash Z.eqb) as X. zfeed X.
  destruct (X 1%positive 7 (mkIter None None) (mkIter None None)) as (Hat & _).
  pose proof (@at_absent Z Z zhash Z.eqb) as Ha. zfeed Ha.
  exists s. split_and!; [assumption| |].
  - apply (Ha s 1%positive m h t [e1; e2] 7 Hm I). by apply example_no_7.
  - intros e s'. apply Hat.
Defined.

(** A run of operations against the model. *)
Lemma refines_association_list_witness :
  ∃ s,
    (ctor 1%positive ;;;
     run_ops zhash Z.eqb 0 1%positive
       [OInsert (1, 10); OInsert (2, 20); OAssign 1 11; OErase 2; OInsert (3, 30)]) mem0
      = Ok tt s ∧
    traverse 1%positive s = Ok [(1, 11); (3, 30)] s ∧
    traverse_back 1%positive s = Ok [(3, 30); (1, 11)] s ∧
    size_ 1%positive s = Ok 2 s.
Proof.
  pose proof (@refines_association_list Z Z zhash Z.eqb 0) as X. zfeed X.
  destruct (X 1%positive
              [OInsert (1, 10); OInsert (2, 20); OAssign 1 11; OErase 2; OInsert (3, 30)]
              mem0 ltac:(simpl; lia))
    as (s & Hrun & Htr & Hback & Hsz & _).
  assert (al_run Z.eqb
            [OInsert (1, 10); OInsert (2, 20); OAssign 1 11; OErase 2; OInsert (3, 30)]
          = [(1, 11); (3, 30)]) as E by reflexivity.
  rewrite E in Htr, Hback, Hsz.
  exists s. split_and!; [exact Hrun|exact Htr|exact Hback|exact Hsz].
Defined.

(** [erase(find(k))] on the example map, for [k = 5] and for [k = 7]. *)
Lemma erase_by_key_witness :
  ∃ s s',
    example_build mem0 = Ok tt s ∧
    (let* it := find zhash Z.eqb 1%positive 5 in erase zhash 1%positive it) s = Ok tt s' ∧
    find zhash Z.eqb 1%positive 5 s' = end_ 1%positive s' ∧
    (let* it := find zhash Z.eqb 1%positive 7 in erase zhash 1%positive it) s
      = Throw invalid_iterator s.
Proof.
  destruct example_map as (s & m & h & t & e1 & e2 & Hrun & Hm & I & H1 & H2 & Hcap).
  pose proof (@erase_by_key Z Z zhash Z.eqb) as X. zfeed X.
  destruct (X 1%positive s m h t [e1; e2] 5 Hm I) as [Ha _].
  destruct (X 1%positive s m h t [e1; e2] 7 Hm I) as [_ Hb].
  destruct (Ha e1 ltac:(left) ltac:(by rewrite H1))
    as (s' & m' & l' & Her & _ & _ & _ & Hf & _).
  exists s, s'. split_and!; [assumption..|].
  apply Hb. by apply example_no_7.
Defined.

(** [insert] of a new key into the example map, then [find] and [at]. *)
Lemma insert_then_find_witness :
  ∃ s it s' r,
    example_build mem0 = Ok tt s ∧
    insert zhash Z.eqb 1%positive (7, 70) s = Ok (it, true) s' ∧
    find zhash Z.eqb 1%positive 7 s' = Ok it s' ∧
    at_ zhash Z.eqb 1%positive 7 s' = Ok r s' ∧
    read_data r s' = Ok (7, 70) s'.
Proof.
  destruct example_map as (s & m & h & t & e1 & e2 & Hrun & Hm & I & H1 & H2 & Hcap).
  pose proof (@insert_then_find Z Z zhash Z.eqb) as X. zfeed X.
  destruct (X 1%positive s m h t [e1; e2] 7 70 Hm I (example_length e1 e2))
    as (it & b & s' & r & kv & Hins & Hb & Hf & _ & _ & Hat & Hrd & _ & Hkv).
  assert (b = true) as Hbt by (apply Hb; by apply example_no_7).
  rewrite Hbt in Hins. rewrite (Hkv Hbt) in Hrd.
  exists s, it, s', r. split_and!; assumption.
Defined.

(** The same key inserted twice and assigned once: one entry. *)
Lemma keys_stay_unique_witness :
  ∃ s kvs,
    (ctor 1%positive ;;;
     run_ops zhash Z.eqb 0 1%positive [OInsert (1, 10); OInsert (1, 20); OAssign 1 5] ;;;
     traverse 1%positive) mem0 = Ok kvs s ∧
    ∀ i j a b, kvs !! i = Some a → kvs !! j = Some b → (a.1 =? b.1) = true → i = j.
Proof.
  pose proof (@keys_stay_unique Z Z zhash Z.eqb 0) as X. zfeed X.
  apply (X 1%positive [OInsert (1, 10); OInsert (1, 20); OAssign 1 5] mem0).
  simpl. lia.
Defined.

(** The first entry of the example map erased, and its iterator used
    again. *)
Lemma erased_iterator_dangles_witness :
  ∃ s it s',
    example_build mem0 = Ok tt s ∧
    find zhash Z.eqb 1%positive 5 s = Ok it s ∧
    erase zhash 1%positive it s = Ok tt s' ∧
    operator_star it s' = Undefined ∧
    erase zhash 1%positive it s' = Undefined.
Proof.
  destruct example_map as (s & m & h & t & e1 & e2 & Hrun & Hm & I & H1 & H2 & Hcap).
  pose proof (@erased_iterator_dangles Z Z zhash Z.eqb) as X. zfeed X.
  pose proof (X 1%positive s m h t [] e1 [e2] Hm I) as Xa. simpl in Xa.
  destruct Xa as (s' & Her & Hstar & _ & _ & _ & Her2).
  pose proof (@find_present Z Z zhash Z.eqb) as Hf. zfeed Hf.
  pose proof (Hf s 1%positive m h t [e1; e2] 5 e1 Hm I ltac:(left) ltac:(by rewrite H1)) as Hf1.
  exists s, (mkIter (Some e1.1) (Some 1%positive)), s'. split_and!; assumption.
Defined.

(** The example map is not empty, and its [begin()] is not its [end()]. *)
Lemma begin_meets_end_iff_empty_witness :
  ∃ s b e,
    example_build mem0 = Ok tt s ∧
    begin_ 1%positive s = Ok b s ∧ end_ 1%positive s = Ok e s ∧
    iterator_eq b e = false ∧
    empty 1%positive s = Ok false s.
Proof.
  destruct example_map as (s & m & h & t & e1 & e2 & Hrun & Hm & I & H1 & H2 & Hcap).
  pose proof (@begin_meets_end_iff_empty Z Z zhash Z.eqb) as X. zfeed X.
  destruct (X 1%positive s m h t [e1; e2] Hm I) as (b & e & Hb & He & Hiff & Hemp & _).
  assert (iterator_eq b e = false) as Hne.
  { destruct (iterator_eq b e); [|reflexivity]. by destruct Hiff as [Hiff _]; specialize (Hiff eq_refl). }
  rewrite Hne in Hemp.
  exists s, b, e. split_and!; assumption.
Defined.

(** The example map copied to address [2], and the copy destroyed. *)
Lemma copy_then_destroy_witness :
  ∃ s s1 s',
    example_build mem0 = Ok tt s ∧
    copy_ctor zhash Z.eqb 2%positive 1%positive s = Ok tt s1 ∧
    traverse 2%positive s1 = Ok [(5, 50); (21, 210)] s1 ∧
    destructor 2%positive s1 = Ok tt s' ∧
    objs s' = objs s ∧ arrays s' = arrays s.
Proof.
  destruct example_map as (s & m & h & t & e1 & e2 & Hrun & Hm & I & H1 & H2 & Hcap).
  pose proof (@copy_then_destroy Z Z zhash Z.eqb) as X. zfeed X.
  destruct (X 2%positive 1%positive s m h t [e1; e2] ltac:(done) Hm I)
    as (s1 & s' & Hcp & Htr & _ & _ & Hd & Hobjs & Harr & _).
  exists s, s1, s'. split_and!; try assumption.
  rewrite Htr. simpl. by rewrite H1, H2.
Defined.


(** Thirteen keys in a new map: twelve fit a table of [16], the thirteenth
    makes it [32]. *)
Lemma capacity_after_inserts_witness :
  ∃ s m,
    (ctor 1%positive ;;;
     insert_all zhash Z.eqb 1%positive
       [(1, 1); (2, 2); (3, 3); (4, 4); (5, 5); (6, 6); (7, 7); (8, 8); (9, 9); (10, 10);
        (11, 11); (12, 12); (13, 13)]) mem0 = Ok tt s ∧
    maps s !! 1%positive = Some m ∧
    bucket_capacity m = 32.
Proof.
  pose proof (@capacity_after_inserts Z Z zhash Z.eqb) as X. zfeed X.
  destruct (X 1%positive
              [(1, 1); (2, 2); (3, 3); (4, 4); (5, 5); (6, 6); (7, 7); (8, 8); (9, 9);
               (10, 10); (11, 11); (12, 12); (13, 13)] mem0)
    as (s & m & Hrun & Hm & _ & (j & Hj) & Hload & Hmin).
  - simpl. split_and!; try exact Logic.I;
      intros kv' Hin; repeat (apply elem_of_cons in Hin as [->|Hin]; [reflexivity|]);
      by apply elem_of_nil in Hin.
  - simpl. lia.
  - exists s, m. split_and!; [exact Hrun|exact Hm|].
    simpl in Hload, Hmin. clear Hrun Hm.
    destruct j as [|[|j]].
    + simpl in Hj. lia.
    + simpl in Hj. lia.
    + assert (2 ^ 2 ≤ 2 ^ Z.of_nat (S (S j))) by (apply Z.pow_le_mono_r; lia). lia.
Defined.
